(** * draw-captcha: stroke metrics, session aggregation and the scoring engine

    A shallow embedding of

    - [src/app/draw-captcha/types.ts]    (the data contracts),
    - [src/app/draw-captcha/metrics.ts]  ([computeStrokeMetrics]),
    - the [useStrokeCapture] hook        (stroke capture and [buildSession]),
    - [src/app/draw-captcha/scoring.ts]  ([ScoringEngine]),

    followed by the properties the specification states about them.

    Conventions of the embedding.

    - A JavaScript [number] holding a measurement is a real number [R]:
      arithmetic is exact, so rounding, [NaN], infinities and signed zeros
      are outside the model.  Every division of the source is guarded by a
      test that its divisor is positive.  A statement on [R] is about the
      formula the source evaluates; the value a concrete input gives is
      read off the doubles, for which [Binary64] embeds the scoring engine
      on binary64 numbers.
    - A [number] that only ever holds an array length or a counter
      ([strokeCount], [directionChanges], a stroke [id]) is a [nat].
    - An array is a [list]; [push] appends at the end.
    - A [Map<string, V>] is an association list in insertion order.
    - A call that may throw returns a [Completion]. *)

From Stdlib Require Import Reals Lra Lia List String Ascii Bool Arith Sorted.
From Stdlib Require PrimFloat.
Import ListNotations.

Local Open Scope R_scope.

(** ** JavaScript built-ins used by the sources *)

Module Js.

(** A completed call: a returned value or a thrown one. *)
Inductive Thrown : Type :=
| ErrorObject (message : string)   (* [e instanceof Error] *)
| OtherValue.                      (* anything else that was thrown *)

Inductive Completion (A : Type) : Type :=
| Normal (v : A)
| Throw (e : Thrown).
Arguments Normal {A} v.
Arguments Throw {A} e.

(** [Math.atan2(y, x)] on real arguments, with values in (-PI, PI]. *)
Definition Math_atan2 (y x : R) : R :=
  if Rgt_dec x 0 then atan (y / x)
  else if Rlt_dec x 0 then
    if Rge_dec y 0 then atan (y / x) + PI else atan (y / x) - PI
  else if Rgt_dec y 0 then PI / 2
  else if Rlt_dec y 0 then - (PI / 2)
  else 0.

(** [Math.max(...l)] for a non-empty [l = x :: xs]. *)
Definition Math_max (x : R) (xs : list R) : R := fold_left Rmax xs x.

(** [l.reduce((a, b) => a + b, 0)]. *)
Definition reduce_add (l : list R) : R := fold_left Rplus l 0.

(** ** [Map<string, V>]: entries in insertion order *)
Section JsMap.
Context {V : Type}.

Definition Map := list (string * V).

Definition Map_empty : Map := [].

(** [m.set(k, v)]: an existing key keeps its position and takes the new
    value, a new key is appended. *)
Fixpoint Map_set (k : string) (v : V) (m : Map) : Map :=
  match m with
  | [] => [(k, v)]
  | (k', v') :: rest =>
      if String.eqb k' k then (k', v) :: rest
      else (k', v') :: Map_set k v rest
  end.

Fixpoint Map_get (k : string) (m : Map) : option V :=
  match m with
  | [] => None
  | (k', v') :: rest => if String.eqb k' k then Some v' else Map_get k rest
  end.

Definition Map_size (m : Map) : nat := List.length m.
Definition Map_keys (m : Map) : list string := map fst m.
Definition Map_values (m : Map) : list V := map snd m.
End JsMap.
Arguments Map V : clear implicits.

End Js.

(** ** types.ts *)

Inductive PointerType : Type := mouse | touch | pen.

Module CapturePoint.
Record t : Type := mk {
  x : R;
  y : R;
  timestamp : R;
  pressure : R;
  pointerType : PointerType
}.
End CapturePoint.

Module StrokeMetrics.
Record t : Type := mk {
  length : R;
  duration : R;
  avgVelocity : R;
  maxVelocity : R;
  avgAcceleration : R;
  maxAcceleration : R;
  directionChanges : nat
}.
End StrokeMetrics.

Module Stroke.
Record t : Type := mk {
  id : nat;
  points : list CapturePoint.t;
  startTime : R;
  endTime : R;
  metrics : StrokeMetrics.t
}.
End Stroke.

Module CaptchaSession.
Record t : Type := mk {
  sessionId : string;
  prompt : string;
  strokes : list Stroke.t;
  startTime : R;
  endTime : R;
  startTimestamp : R;
  canvasWidth : R;
  canvasHeight : R;
  totalDuration : R;
  strokeCount : nat;
  pausesBetweenStrokes : list R;
  totalPathLength : R;
  avgVelocity : R
}.
End CaptchaSession.

Module ScoringResult.
Record t : Type := mk {
  score : R;
  confidence : R;
  signals : list (string * R);
  details : option string
}.
End ScoringResult.

Module ScoringAlgorithm.
Record t : Type := mk {
  name : string;
  version : string;
  score : CaptchaSession.t -> Js.Completion ScoringResult.t
}.
End ScoringAlgorithm.

(** ** metrics.ts *)

Module Metrics.
Import Js.

(** Euclidean distance between two captured points *)
Definition distance (a b : CapturePoint.t) : R :=
  sqrt ((CapturePoint.x b - CapturePoint.x a) ^ 2
        + (CapturePoint.y b - CapturePoint.y a) ^ 2).

(** Angle (radians) from point a to point b *)
Definition angle (a b : CapturePoint.t) : R :=
  Math_atan2 (CapturePoint.y b - CapturePoint.y a)
             (CapturePoint.x b - CapturePoint.x a).

(** The variables the loop of [computeStrokeMetrics] updates. *)
Record LoopState : Type := mkLoop {
  totalLength : R;
  velocities : list R;
  accelerations : list R;
  directionChanges : nat;
  prevAngle : option R
}.

Definition loop_init : LoopState :=
  {| totalLength := 0; velocities := []; accelerations := [];
     directionChanges := 0; prevAngle := None |}.

(** One iteration, for [a = points[i - 1]] and [b = points[i]]. *)
Definition loop_body (a b : CapturePoint.t) (st : LoopState) : LoopState :=
  let dist := distance a b in
  let dt := CapturePoint.timestamp b - CapturePoint.timestamp a in
  let totalLength' := totalLength st + dist in
  let '(velocities', accelerations') :=
    if Rgt_dec dt 0 then
      let velocity := dist / dt in
      let vs := velocities st ++ [velocity] in
      if (1 <? List.length vs)%nat then
        let dv := Rabs (velocity - nth (List.length vs - 2) vs 0) in
        (vs, accelerations st ++ [dv / dt])
      else (vs, accelerations st)
    else (velocities st, accelerations st) in
  let currentAngle := angle a b in
  let directionChanges' :=
    match prevAngle st with
    | Some prev =>
        let angleDiff := Rabs (currentAngle - prev) in
        let angleDiff :=
          if Rgt_dec angleDiff PI then 2 * PI - angleDiff else angleDiff in
        if Rgt_dec angleDiff (PI / 6) then S (directionChanges st)
        else directionChanges st
    | None => directionChanges st
    end in
  {| totalLength := totalLength';
     velocities := velocities';
     accelerations := accelerations';
     directionChanges := directionChanges';
     prevAngle := Some currentAngle |}.

(** [for (let i = 1; i < points.length; i++)]: [prev] is [points[i - 1]]
    and [rest] holds [points[i]], [points[i + 1]], ... *)
Fixpoint loop (prev : CapturePoint.t) (rest : list CapturePoint.t)
    (st : LoopState) : LoopState :=
  match rest with
  | [] => st
  | p :: rest' => loop p rest' (loop_body prev p st)
  end.

Definition zeroMetrics : StrokeMetrics.t :=
  {| StrokeMetrics.length := 0;
     StrokeMetrics.duration := 0;
     StrokeMetrics.avgVelocity := 0;
     StrokeMetrics.maxVelocity := 0;
     StrokeMetrics.avgAcceleration := 0;
     StrokeMetrics.maxAcceleration := 0;
     StrokeMetrics.directionChanges := 0 |}.

(** [series.length > 0 ? series.reduce(+, 0) / series.length : 0] *)
Definition average (series : list R) : R :=
  match series with
  | [] => 0
  | _ :: _ => reduce_add series / INR (List.length series)
  end.

(** [series.length > 0 ? Math.max(...series) : 0] *)
Definition maximum (series : list R) : R :=
  match series with
  | [] => 0
  | v :: vs => Math_max v vs
  end.

(** The state of the loop when it ends ([loop_init] for no point). *)
Definition runLoop (points : list CapturePoint.t) : LoopState :=
  match points with
  | [] => loop_init
  | p0 :: rest => loop p0 rest loop_init
  end.

Definition computeStrokeMetrics (points : list CapturePoint.t)
    : StrokeMetrics.t :=
  if (List.length points <? 2)%nat then zeroMetrics
  else
    match points with
    | [] => zeroMetrics              (* not reached: the length is >= 2 *)
    | p0 :: _ =>
        let st := runLoop points in
        let duration :=
          CapturePoint.timestamp (last points p0)
          - CapturePoint.timestamp p0 in
        {| StrokeMetrics.length := totalLength st;
           StrokeMetrics.duration := duration;
           StrokeMetrics.avgVelocity := average (velocities st);
           StrokeMetrics.maxVelocity := maximum (velocities st);
           StrokeMetrics.avgAcceleration := average (accelerations st);
           StrokeMetrics.maxAcceleration := maximum (accelerations st);
           StrokeMetrics.directionChanges := directionChanges st |}
    end.

End Metrics.

(** ** The [useStrokeCapture] hook

    The hook's React state ([strokes], [isDrawing]) and refs
    ([currentPoints], [strokeId], [sessionStart], [sessionTimestamp]) form one
    state record; each callback is a function on it.  State updates are
    applied at once.  The clocks and the identifier generator are inputs:
    a callback that reads [performance.now()], [Date.now()] or
    [crypto.randomUUID()] takes the value read as an argument. *)

Module StrokeCapture.

Record State : Type := mkState {
  strokes : list Stroke.t;
  isDrawing : bool;
  currentPoints : list CapturePoint.t;
  strokeId : nat;
  sessionStart : R;
  sessionTimestamp : R
}.

(** The state of a freshly mounted hook. *)
Definition initial : State :=
  {| strokes := []; isDrawing := false; currentPoints := [];
     strokeId := 0; sessionStart := 0; sessionTimestamp := 0 |}.

(** Reset state and begin a new capture session *)
Definition startSession (performance_now Date_now : R) (st : State) : State :=
  {| strokes := [];
     isDrawing := isDrawing st;
     currentPoints := currentPoints st;
     strokeId := 0;
     sessionStart := performance_now;
     sessionTimestamp := Date_now |}.

(** Begin capturing a new stroke *)
Definition beginStroke (st : State) : State :=
  {| strokes := strokes st;
     isDrawing := true;
     currentPoints := [];
     strokeId := strokeId st;
     sessionStart := sessionStart st;
     sessionTimestamp := sessionTimestamp st |}.

(** Append a point to the current stroke *)
Definition addPoint (point : CapturePoint.t) (st : State) : State :=
  {| strokes := strokes st;
     isDrawing := isDrawing st;
     currentPoints := currentPoints st ++ [point];
     strokeId := strokeId st;
     sessionStart := sessionStart st;
     sessionTimestamp := sessionTimestamp st |}.

(** Finalise the current stroke and compute its metrics *)
Definition endStroke (st : State) : State :=
  let points := currentPoints st in
  if (List.length points <? 2)%nat then
    {| strokes := strokes st;
       isDrawing := false;
       currentPoints := [];
       strokeId := strokeId st;
       sessionStart := sessionStart st;
       sessionTimestamp := sessionTimestamp st |}
  else
    match points with
    | [] => st                       (* not reached: the length is >= 2 *)
    | p0 :: _ =>
        let metrics := Metrics.computeStrokeMetrics points in
        let stroke :=
          {| Stroke.id := strokeId st;
             Stroke.points := points;
             Stroke.startTime := CapturePoint.timestamp p0;
             Stroke.endTime := CapturePoint.timestamp (last points p0);
             Stroke.metrics := metrics |} in
        {| strokes := strokes st ++ [stroke];
           isDrawing := false;
           currentPoints := [];
           strokeId := S (strokeId st);
           sessionStart := sessionStart st;
           sessionTimestamp := sessionTimestamp st |}
    end.

(** Remove the last stroke *)
Definition undo (st : State) : State :=
  {| strokes := removelast (strokes st);
     isDrawing := isDrawing st;
     currentPoints := currentPoints st;
     strokeId := strokeId st;
     sessionStart := sessionStart st;
     sessionTimestamp := sessionTimestamp st |}.

(** Remove all strokes *)
Definition clear (st : State) : State :=
  {| strokes := [];
     isDrawing := isDrawing st;
     currentPoints := currentPoints st;
     strokeId := strokeId st;
     sessionStart := sessionStart st;
     sessionTimestamp := sessionTimestamp st |}.

(** Gaps between consecutive strokes:
    [for (let i = 1; i < strokes.length; i++)
       pauses.push(strokes[i].startTime - strokes[i - 1].endTime)]. *)
Fixpoint pauses (strokes : list Stroke.t) : list R :=
  match strokes with
  | [] => []
  | a :: rest =>
      match rest with
      | [] => []
      | b :: _ => (Stroke.startTime b - Stroke.endTime a) :: pauses rest
      end
  end.

(** Build the final CaptchaSession object (call on submit) *)
Definition buildSession (prompt : string) (canvasWidth canvasHeight : R)
    (performance_now : R) (randomUUID : string) (st : State)
    : CaptchaSession.t :=
  let endTime := performance_now in
  let startTime := sessionStart st in
  let totalPathLength :=
    fold_left
      (fun sum s => sum + StrokeMetrics.length (Stroke.metrics s))
      (strokes st) 0 in
  let velocities :=
    map (fun s => StrokeMetrics.avgVelocity (Stroke.metrics s)) (strokes st) in
  let avgVelocity :=
    if (0 <? List.length velocities)%nat
    then Js.reduce_add velocities / INR (List.length velocities)
    else 0 in
  {| CaptchaSession.sessionId := randomUUID;
     CaptchaSession.prompt := prompt;
     CaptchaSession.strokes := strokes st;
     CaptchaSession.startTime := startTime;
     CaptchaSession.endTime := endTime;
     CaptchaSession.startTimestamp := sessionTimestamp st;
     CaptchaSession.canvasWidth := canvasWidth;
     CaptchaSession.canvasHeight := canvasHeight;
     CaptchaSession.totalDuration := endTime - startTime;
     CaptchaSession.strokeCount := List.length (strokes st);
     CaptchaSession.pausesBetweenStrokes := pauses (strokes st);
     CaptchaSession.totalPathLength := totalPathLength;
     CaptchaSession.avgVelocity := avgVelocity |}.

(** The callbacks that change the state, as events of a drawing
    interaction. *)
Inductive Event : Type :=
| StartSession (performance_now Date_now : R)
| BeginStroke
| AddPoint (point : CapturePoint.t)
| EndStroke
| Undo
| Clear.

Definition step (st : State) (ev : Event) : State :=
  match ev with
  | StartSession performance_now Date_now =>
      startSession performance_now Date_now st
  | BeginStroke => beginStroke st
  | AddPoint point => addPoint point st
  | EndStroke => endStroke st
  | Undo => undo st
  | Clear => clear st
  end.

Definition run (evs : list Event) (st : State) : State :=
  fold_left step evs st.

(** An event other than [StartSession]: one that stays in the session. *)
Definition inSession (ev : Event) : bool :=
  match ev with
  | StartSession _ _ => false
  | _ => true
  end.

(** The identifiers [endStroke] hands out while [evs] run from [st], in
    the order they are handed out. *)
Fixpoint assignedIds (evs : list Event) (st : State) : list nat :=
  match evs with
  | [] => []
  | ev :: evs' =>
      let here :=
        match ev with
        | EndStroke =>
            if (List.length (currentPoints st) <? 2)%nat then []
            else [strokeId st]
        | _ => []
        end in
      here ++ assignedIds evs' (step st ev)
  end.

End StrokeCapture.

(** ** scoring.ts *)

Module Scoring.
Import Js.

Record ScoringEngine : Type := mkEngine {
  algorithms : list ScoringAlgorithm.t
}.

(** [new ScoringEngine()] *)
Definition newEngine : ScoringEngine := {| algorithms := [] |}.

(** Register a scoring algorithm *)
Definition register (algorithm : ScoringAlgorithm.t) (this : ScoringEngine)
    : ScoringEngine :=
  {| algorithms := algorithms this ++ [algorithm] |}.

(** Remove a scoring algorithm by name *)
Definition unregister (name : string) (this : ScoringEngine)
    : ScoringEngine :=
  {| algorithms :=
       filter (fun a => negb (String.eqb (ScoringAlgorithm.name a) name))
              (algorithms this) |}.

Definition quote : string := String (ascii_of_nat 34) EmptyString.

(** The first argument of [console.error] in [evaluate]. *)
Definition failureMessage (name : string) : string :=
  ("Scoring algorithm " ++ quote ++ name ++ quote ++ " failed:")%string.

(** [`Error: ${e instanceof Error ? e.message : "Unknown"}`] *)
Definition failureDetails (e : Thrown) : string :=
  ("Error: " ++ match e with
                | ErrorObject message => message
                | OtherValue => "Unknown"
                end)%string.

(** The result [evaluate] stores for an algorithm that threw [e]. *)
Definition failureResult (e : Thrown) : ScoringResult.t :=
  {| ScoringResult.score := -1;
     ScoringResult.confidence := 0;
     ScoringResult.signals := [];
     ScoringResult.details := Some (failureDetails e) |}.

(** What a run of [evaluate] builds and does: the [results] map, the lines
    written with [console.error], and the algorithms whose [score] was
    called, in call order.  [calls] is a record of the run that the source
    does not keep. *)
Record Evaluation : Type := mkEvaluation {
  results : Map ScoringResult.t;
  console : list (string * Thrown);
  calls : list ScoringAlgorithm.t
}.

Definition evaluation_init : Evaluation :=
  {| results := Map_empty; console := []; calls := [] |}.

(** The body of [for (const algo of this.algorithms)]. *)
Definition evaluate_body (session : CaptchaSession.t) (ev : Evaluation)
    (algo : ScoringAlgorithm.t) : Evaluation :=
  match ScoringAlgorithm.score algo session with
  | Normal r =>
      {| results := Map_set (ScoringAlgorithm.name algo) r (results ev);
         console := console ev;
         calls := calls ev ++ [algo] |}
  | Throw e =>
      {| results :=
           Map_set (ScoringAlgorithm.name algo) (failureResult e)
                   (results ev);
         console :=
           console ev ++ [(failureMessage (ScoringAlgorithm.name algo), e)];
         calls := calls ev ++ [algo] |}
  end.

(** [for (const algo of this.algorithms) { ... }] from the empty map. *)
Definition evaluate_loop (session : CaptchaSession.t)
    (algos : list ScoringAlgorithm.t) : Evaluation :=
  fold_left (evaluate_body session) algos evaluation_init.

Definition evaluate_run (this : ScoringEngine) (session : CaptchaSession.t)
    : Evaluation :=
  evaluate_loop session (algorithms this).

(** Run every registered algorithm and return named results *)
Definition evaluate (this : ScoringEngine) (session : CaptchaSession.t)
    : Map ScoringResult.t :=
  results (evaluate_run this session).

(** The body of [for (const result of results.values())], on the pair
    [(totalScore, totalWeight)]. *)
Definition combine_body (acc : R * R) (result : ScoringResult.t) : R * R :=
  let '(totalScore, totalWeight) := acc in
  if Rge_dec (ScoringResult.score result) 0 then
    (totalScore
       + ScoringResult.score result * ScoringResult.confidence result,
     totalWeight + ScoringResult.confidence result)
  else (totalScore, totalWeight).

(** Weighted average of all algorithm scores (by confidence) *)
Definition getCombinedScore (this : ScoringEngine)
    (session : CaptchaSession.t) : R :=
  let results := evaluate this session in
  if (Map_size results =? 0)%nat then -1
  else
    let '(totalScore, totalWeight) :=
      fold_left combine_body (Map_values results) (0, 0) in
    if Rgt_dec totalWeight 0 then totalScore / totalWeight else -1.

(** The placeholder algorithms shipped with the engine. *)
Definition placeholder (name details : string) : ScoringAlgorithm.t :=
  {| ScoringAlgorithm.name := name;
     ScoringAlgorithm.version := "0.1.0";
     ScoringAlgorithm.score := fun _session =>
       Normal {| ScoringResult.score := 0;
                 ScoringResult.confidence := 0;
                 ScoringResult.signals := [];
                 ScoringResult.details := Some details |} |}.

Definition velocityConsistencyScorer : ScoringAlgorithm.t :=
  placeholder "velocity-consistency"
              "Velocity consistency: not yet implemented".
Definition strokeEntropyScorer : ScoringAlgorithm.t :=
  placeholder "stroke-entropy" "Stroke entropy: not yet implemented".
Definition microMotorScorer : ScoringAlgorithm.t :=
  placeholder "micro-motor" "Micro-motor signals: not yet implemented".
Definition timingScorer : ScoringAlgorithm.t :=
  placeholder "timing" "Timing analysis: not yet implemented".

(** The global engine: no [register] call is active in the source. *)
Definition scoringEngine : ScoringEngine := newEngine.

End Scoring.

(** ** The scoring engine on IEEE-754 doubles

    [evaluate] and [getCombinedScore] once more, with the scores and
    confidences as binary64 numbers, which is what a JavaScript [number]
    is: every sum, product and quotient below rounds as the source's does.
    The engine hands the session on to the algorithms and reads nothing of
    it.  This is the embedding to consult for the value a concrete
    combination has; the general properties are stated on the real
    numbers, about the formulas the source evaluates. *)

Module Binary64.
Import Js PrimFloat.

Record ScoringResult : Type := mkResult {
  score : float;
  confidence : float;
  signals : list (string * float);
  details : option string
}.

Record ScoringAlgorithm : Type := mkAlgorithm {
  name : string;
  version : string;
  run : CaptchaSession.t -> Completion ScoringResult
}.

(** The result [evaluate] stores for an algorithm that threw [e]. *)
Definition failureResult (e : Thrown) : ScoringResult :=
  {| score := (-1)%float;
     confidence := 0%float;
     signals := [];
     details := Some (Scoring.failureDetails e) |}.

(** The body of [for (const algo of this.algorithms)], on [results]. *)
Definition evaluate_body (session : CaptchaSession.t)
    (results : Map ScoringResult) (algo : ScoringAlgorithm)
    : Map ScoringResult :=
  match run algo session with
  | Normal r => Map_set (name algo) r results
  | Throw e => Map_set (name algo) (failureResult e) results
  end.

(** Run every registered algorithm and return named results *)
Definition evaluate (algorithms : list ScoringAlgorithm)
    (session : CaptchaSession.t) : Map ScoringResult :=
  fold_left (evaluate_body session) algorithms Map_empty.

(** The body of [for (const result of results.values())]. *)
Definition combine_body (acc : float * float) (result : ScoringResult)
    : float * float :=
  let '(totalScore, totalWeight) := acc in
  if leb 0 (score result)
  then (add totalScore (mul (score result) (confidence result)),
        add totalWeight (confidence result))
  else (totalScore, totalWeight).

(** Weighted average of all algorithm scores (by confidence) *)
Definition getCombinedScore (algorithms : list ScoringAlgorithm)
    (session : CaptchaSession.t) : float :=
  let results := evaluate algorithms session in
  if (Map_size results =? 0)%nat then (-1)%float
  else
    let '(totalScore, totalWeight) :=
      fold_left combine_body (Map_values results) (0%float, 0%float) in
    if ltb 0 totalWeight then div totalScore totalWeight else (-1)%float.

(** The doubles 0.5 and 1, those nearest to 0.2, 0.4 and 0.8, and the
    double next above the one nearest to 0.4, which JavaScript prints as
    0.4000000000000001. *)
Definition d0_5 : float := 0.5%float.
Definition d1 : float := 1%float.
Definition d0_2 : float := 0x1.999999999999ap-3%float.
Definition d0_4 : float := 0x1.999999999999ap-2%float.
Definition d0_8 : float := 0x1.999999999999ap-1%float.
Definition d0_4000000000000001 : float := 0x1.999999999999bp-2%float.

(** An algorithm that returns the given score and confidence. *)
Definition returning (n : string) (s c : float) : ScoringAlgorithm :=
  {| name := n;
     version := "1.0.0";
     run := fun _ =>
       Normal {| score := s; confidence := c;
                 signals := []; details := None |} |}.

End Binary64.

(** ** The vocabulary of the specification

    The definitions below follow the words of the specification, not the
    code: the theorems compare the code with them. *)

Module Spec.
Import Js.

(** Sum of a series. *)
Definition Rsum (l : list R) : R := fold_right Rplus 0 l.

(** Arithmetic mean of a (non-empty) series. *)
Definition mean (l : list R) : R := Rsum l / INR (List.length l).

(** [m] is the maximum of the series [l]. *)
Definition isMaximum (m : R) (l : list R) : Prop :=
  In m l /\ forall v, In v l -> v <= m.

(** *** Stroke metrics (section 4.2) *)

(** The consecutive pairs (i-1, i) of a point sequence. *)
Fixpoint segments (points : list CapturePoint.t)
    : list (CapturePoint.t * CapturePoint.t) :=
  match points with
  | [] => []
  | a :: rest =>
      match rest with
      | [] => []
      | b :: _ => (a, b) :: segments rest
      end
  end.

(** [d = sqrt(dx^2 + dy^2)] *)
Definition segDistance (s : CapturePoint.t * CapturePoint.t) : R :=
  let dx := CapturePoint.x (snd s) - CapturePoint.x (fst s) in
  let dy := CapturePoint.y (snd s) - CapturePoint.y (fst s) in
  sqrt (dx * dx + dy * dy).

(** [dt = t[i] - t[i-1]] *)
Definition segDt (s : CapturePoint.t * CapturePoint.t) : R :=
  CapturePoint.timestamp (snd s) - CapturePoint.timestamp (fst s).

(** [v = d / dt] *)
Definition segVelocity (s : CapturePoint.t * CapturePoint.t) : R :=
  segDistance s / segDt s.

Definition positiveDt (s : CapturePoint.t * CapturePoint.t) : bool :=
  if Rlt_dec 0 (segDt s) then true else false.

(** The segments that enter the velocity series: those with [dt > 0]. *)
Definition timedSegments (points : list CapturePoint.t)
    : list (CapturePoint.t * CapturePoint.t) :=
  filter positiveDt (segments points).

Definition velocitySeries (points : list CapturePoint.t) : list R :=
  map segVelocity (timedSegments points).

(** [|v[i] - v[i-1]| / dt[i]] over the consecutive entries of the velocity
    series, [dt[i]] being the time delta of the later segment. *)
Fixpoint accelerationsOf (timed : list (CapturePoint.t * CapturePoint.t))
    : list R :=
  match timed with
  | [] => []
  | s :: rest =>
      match rest with
      | [] => []
      | s' :: _ =>
          (Rabs (segVelocity s' - segVelocity s) / segDt s')
            :: accelerationsOf rest
      end
  end.

Definition accelerationSeries (points : list CapturePoint.t) : list R :=
  accelerationsOf (timedSegments points).

(** The bearing of a segment, [atan2(dy, dx)]. *)
Definition bearing (s : CapturePoint.t * CapturePoint.t) : R :=
  Math_atan2 (CapturePoint.y (snd s) - CapturePoint.y (fst s))
             (CapturePoint.x (snd s) - CapturePoint.x (fst s)).

(** The absolute angular difference, wrapped into [0, PI]. *)
Definition wrappedDifference (b1 b2 : R) : R :=
  if Rlt_dec PI (Rabs (b2 - b1)) then 2 * PI - Rabs (b2 - b1)
  else Rabs (b2 - b1).

Definition isTurn (b1 b2 : R) : bool :=
  if Rlt_dec (PI / 6) (wrappedDifference b1 b2) then true else false.

(** The number of consecutive bearings that differ by more than PI/6. *)
Fixpoint countTurns (bearings : list R) : nat :=
  match bearings with
  | [] => 0
  | b1 :: rest =>
      match rest with
      | [] => 0
      | b2 :: _ => ((if isTurn b1 b2 then 1 else 0) + countTurns rest)%nat
      end
  end.

(** *** Stroke capture (section 3) *)

(** What holds of the stroke list and the counter in every state the
    callbacks reach: identifiers increase along the list, lie below the
    counter, and every stroke has at least two points. *)
Definition coherent (st : StrokeCapture.State) : Prop :=
  StronglySorted lt (map Stroke.id (StrokeCapture.strokes st))
  /\ Forall (fun s => (Stroke.id s < StrokeCapture.strokeId st)%nat
                      /\ (2 <= List.length (Stroke.points s))%nat)
            (StrokeCapture.strokes st).

(** *** Scoring (section 4.4) *)

(** The result an algorithm contributes: what it returns, or the
    synthetic failure result when it throws. *)
Definition outcome (session : CaptchaSession.t) (a : ScoringAlgorithm.t)
    : ScoringResult.t :=
  match ScoringAlgorithm.score a session with
  | Normal r => r
  | Throw e => Scoring.failureResult e
  end.

(** The distinct names of a list, each at its first occurrence. *)
Fixpoint distinctNames (names : list string) : list string :=
  match names with
  | [] => []
  | n :: rest =>
      n :: filter (fun m => negb (String.eqb m n)) (distinctNames rest)
  end.

(** The last algorithm registered under [name], if any. *)
Definition lastNamed (name : string) (algos : list ScoringAlgorithm.t)
    : option ScoringAlgorithm.t :=
  find (fun a => String.eqb (ScoringAlgorithm.name a) name) (rev algos).

(** The results that enter the combination: those with [score >= 0]. *)
Definition eligible (rs : list ScoringResult.t) : list ScoringResult.t :=
  filter (fun r => if Rle_dec 0 (ScoringResult.score r) then true else false)
         rs.

(** The numerator and the denominator of the confidence-weighted mean. *)
Definition weightedScore (rs : list ScoringResult.t) : R :=
  Rsum (map (fun r => ScoringResult.score r * ScoringResult.confidence r)
            (eligible rs)).

Definition totalWeight (rs : list ScoringResult.t) : R :=
  Rsum (map ScoringResult.confidence (eligible rs)).

(** A result within the documented ranges: a score in [0,1] or the
    sentinel -1, and a confidence in [0,1]. *)
Definition inRange (r : ScoringResult.t) : Prop :=
  (0 <= ScoringResult.score r <= 1 \/ ScoringResult.score r = -1)
  /\ 0 <= ScoringResult.confidence r <= 1.

End Spec.

(** ** Concrete inputs used to exercise the definitions *)

Module Examples.

(** A stroke with a repeated timestamp: the middle segment has [dt = 0]. *)
Definition stutter : list CapturePoint.t :=
  [CapturePoint.mk 0 0 0 (1 / 2) mouse;
   CapturePoint.mk 3 4 5 (1 / 2) mouse;
   CapturePoint.mk 6 8 5 (1 / 2) mouse;
   CapturePoint.mk 6 8 9 (1 / 2) mouse].

(** Two finalized strokes: A ends at 100, B starts at 150. *)
Definition strokeA : Stroke.t :=
  {| Stroke.id := 0;
     Stroke.points := [CapturePoint.mk 0 0 40 (1 / 2) pen;
                       CapturePoint.mk 3 4 100 (1 / 2) pen];
     Stroke.startTime := 40;
     Stroke.endTime := 100;
     Stroke.metrics :=
       Metrics.computeStrokeMetrics
         [CapturePoint.mk 0 0 40 (1 / 2) pen;
          CapturePoint.mk 3 4 100 (1 / 2) pen] |}.

Definition strokeB : Stroke.t :=
  {| Stroke.id := 1;
     Stroke.points := [CapturePoint.mk 5 5 150 (1 / 2) pen;
                       CapturePoint.mk 5 9 170 (1 / 2) pen];
     Stroke.startTime := 150;
     Stroke.endTime := 170;
     Stroke.metrics :=
       Metrics.computeStrokeMetrics
         [CapturePoint.mk 5 5 150 (1 / 2) pen;
          CapturePoint.mk 5 9 170 (1 / 2) pen] |}.

Definition twoStrokes : StrokeCapture.State :=
  {| StrokeCapture.strokes := [strokeA; strokeB];
     StrokeCapture.isDrawing := false;
     StrokeCapture.currentPoints := [];
     StrokeCapture.strokeId := 2;
     StrokeCapture.sessionStart := 10;
     StrokeCapture.sessionTimestamp := 1000 |}.

(** A drawing interaction: a tap of one point, a stroke, a clear, and two
    more strokes of which the last is undone. *)
Definition interaction : list StrokeCapture.Event :=
  [StrokeCapture.BeginStroke;
   StrokeCapture.AddPoint (CapturePoint.mk 1 1 20 (1 / 2) touch);
   StrokeCapture.EndStroke;
   StrokeCapture.BeginStroke;
   StrokeCapture.AddPoint (CapturePoint.mk 0 0 40 (1 / 2) touch);
   StrokeCapture.AddPoint (CapturePoint.mk 3 4 100 (1 / 2) touch);
   StrokeCapture.EndStroke;
   StrokeCapture.Clear;
   StrokeCapture.BeginStroke;
   StrokeCapture.AddPoint (CapturePoint.mk 5 5 150 (1 / 2) touch);
   StrokeCapture.AddPoint (CapturePoint.mk 5 9 170 (1 / 2) touch);
   StrokeCapture.EndStroke;
   StrokeCapture.BeginStroke;
   StrokeCapture.AddPoint (CapturePoint.mk 7 7 200 (1 / 2) touch);
   StrokeCapture.AddPoint (CapturePoint.mk 8 8 210 (1 / 2) touch);
   StrokeCapture.EndStroke;
   StrokeCapture.Undo].

Definition session : CaptchaSession.t :=
  StrokeCapture.buildSession "Draw a star" 500 375 180 "session-1"
                             twoStrokes.

(** An algorithm that returns the given score and confidence. *)
Definition returning (name : string) (score confidence : R)
    : ScoringAlgorithm.t :=
  {| ScoringAlgorithm.name := name;
     ScoringAlgorithm.version := "1.0.0";
     ScoringAlgorithm.score := fun _session =>
       Js.Normal {| ScoringResult.score := score;
                    ScoringResult.confidence := confidence;
                    ScoringResult.signals := [];
                    ScoringResult.details := None |} |}.

(** An algorithm whose [score] throws [new Error(message)]. *)
Definition throwing (name message : string) : ScoringAlgorithm.t :=
  {| ScoringAlgorithm.name := name;
     ScoringAlgorithm.version := "1.0.0";
     ScoringAlgorithm.score := fun _session =>
       Js.Throw (Js.ErrorObject message) |}.

(** Two algorithms registered under one name. *)
Definition sameName : Scoring.ScoringEngine :=
  Scoring.register (returning "risk" 0.8 0.5)
    (Scoring.register (returning "risk" 0.2 1) Scoring.newEngine).

(** The same two algorithms under two names. *)
Definition twoNames : Scoring.ScoringEngine :=
  Scoring.register (returning "pace" 0.8 0.5)
    (Scoring.register (returning "risk" 0.2 1) Scoring.newEngine).

(** An algorithm that throws, and a later one of the same name. *)
Definition overwritten : Scoring.ScoringEngine :=
  Scoring.register (returning "risk" 0.2 1)
    (Scoring.register (throwing "risk" "boom") Scoring.newEngine).

(** A throwing algorithm between two algorithms of one name. *)
Definition mixed : Scoring.ScoringEngine :=
  Scoring.register (returning "risk" 0.8 0.5)
    (Scoring.register (throwing "entropy" "boom")
      (Scoring.register (returning "risk" 0.2 1) Scoring.newEngine)).

End Examples.

(** ** Operations on inputs used to state further properties *)

Module Inputs.


(** A stroke of four points on a line, one every 10 ms. *)
Definition steady : list CapturePoint.t :=
  [CapturePoint.mk 0 0 0 (1 / 2) mouse;
   CapturePoint.mk 3 4 10 (1 / 2) mouse;
   CapturePoint.mk 6 8 20 (1 / 2) mouse;
   CapturePoint.mk 9 12 30 (1 / 2) mouse].

(** A stroke as [endStroke] builds it from its points: at least two
    points, the times of the first and the last one, and the metrics of
    the points. *)
Definition finalized (s : Stroke.t) : Prop :=
  exists p0 rest,
    Stroke.points s = p0 :: rest
    /\ rest <> []
    /\ Stroke.startTime s = CapturePoint.timestamp p0
    /\ Stroke.endTime s = CapturePoint.timestamp (last rest p0)
    /\ Stroke.metrics s = Metrics.computeStrokeMetrics (Stroke.points s).

End Inputs.

(** ** The [Canvas] component: pointer capture

    [toPoint] and the three pointer handlers.  A handler returns the new
    value of the component's refs and the calls it makes to
    [onStrokeStart], [onStrokePoint] and [onStrokeEnd], as events of the
    capture hook in call order; [handlePointerMove] also returns the line
    segments it paints.  The bounding rectangle, the clock readings and the
    presence of a 2d context are inputs.  [preventDefault] and pointer
    capture are left out: they do not touch the data. *)

Module Canvas.

(** Logical canvas dimensions (CSS-pixel space) *)
Definition CANVAS_W : R := 500.
Definition CANVAS_H : R := 375.

(** The fields of a DOM [PointerEvent] that are read.  A [pointerType]
    that the device does not report is the empty string: [None]. *)
Record PointerEvent : Type := mkPointerEvent {
  clientX : R;
  clientY : R;
  pressure : R;
  pointerType : option PointerType
}.

(** [getBoundingClientRect()] *)
Record DOMRect : Type := mkRect {
  left : R;
  top : R;
  width : R;
  height : R
}.

(** A painted segment: [moveTo(fromX, fromY)], [lineTo(toX, toY)] with
    the given [lineWidth]. *)
Record Line : Type := mkLine {
  fromX : R;
  fromY : R;
  toX : R;
  toY : R;
  lineWidth : R
}.

Record Refs : Type := mkRefs {
  pointerDown : bool;
  lastPt : option (R * R);
  dpr : R
}.

(** The refs of a mounted canvas; [dpr] is [window.devicePixelRatio || 1]. *)
Definition mounted (devicePixelRatio : R) : Refs :=
  {| pointerDown := false;
     lastPt := None;
     dpr := if Req_dec_T devicePixelRatio 0 then 1 else devicePixelRatio |}.

(** Convert a pointer event to a CapturePoint in logical coords *)
Definition toPoint (rect : DOMRect) (performance_now : R)
    (e : PointerEvent) : CapturePoint.t :=
  {| CapturePoint.x := (clientX e - left rect) * (CANVAS_W / width rect);
     CapturePoint.y := (clientY e - top rect) * (CANVAS_H / height rect);
     CapturePoint.timestamp := performance_now;
     CapturePoint.pressure :=
       if Req_dec_T (pressure e) 0 then 0.5 else pressure e;
     CapturePoint.pointerType :=
       match pointerType e with
       | Some t => t
       | None => mouse
       end |}.

Definition handlePointerDown (isActive : bool) (rect : DOMRect)
    (performance_now : R) (e : PointerEvent) (refs : Refs)
    : Refs * list StrokeCapture.Event :=
  if negb isActive then (refs, [])
  else
    let pt := toPoint rect performance_now e in
    ({| pointerDown := true;
        lastPt := Some (CapturePoint.x pt, CapturePoint.y pt);
        dpr := dpr refs |},
     [StrokeCapture.BeginStroke; StrokeCapture.AddPoint pt]).

(** [for (const pe of events) { ... }] of [handlePointerMove]: the points
    handed to [onStrokePoint], the segments painted, and the final
    [lastPt].  [clock i] is what [performance.now()] returns in the
    iteration of index [i]. *)
Fixpoint moveLoop (rect : DOMRect) (d : R) (clock : nat -> R) (i : nat)
    (events : list PointerEvent) (last : option (R * R))
    : list CapturePoint.t * list Line * option (R * R) :=
  match events with
  | [] => ([], [], last)
  | pe :: rest =>
      let pt := toPoint rect (clock i) pe in
      let painted :=
        match last with
        | Some (lx, ly) =>
            [{| fromX := lx * d; fromY := ly * d;
                toX := CapturePoint.x pt * d;
                toY := CapturePoint.y pt * d;
                lineWidth := 2.5 * d |}]
        | None => []
        end in
      let '(pts, lines, last') :=
        moveLoop rect d clock (S i) rest
                 (Some (CapturePoint.x pt, CapturePoint.y pt)) in
      (pt :: pts, painted ++ lines, last')
  end.

Definition handlePointerMove (isActive hasContext : bool) (rect : DOMRect)
    (clock : nat -> R) (native : PointerEvent)
    (coalesced : list PointerEvent) (refs : Refs)
    : Refs * list StrokeCapture.Event * list Line :=
  if negb (pointerDown refs) || negb isActive then (refs, [], [])
  else
    let events :=
      if (0 <? List.length coalesced)%nat then coalesced else [native] in
    if negb hasContext then (refs, [], [])
    else
      let '(pts, lines, last') :=
        moveLoop rect (dpr refs) clock 0 events (lastPt refs) in
      ({| pointerDown := pointerDown refs;
          lastPt := last';
          dpr := dpr refs |},
       map StrokeCapture.AddPoint pts, lines).

(** Also the handler of pointer-cancel and pointer-leave. *)
Definition handlePointerUp (refs : Refs)
    : Refs * list StrokeCapture.Event :=
  if negb (pointerDown refs) then (refs, [])
  else
    ({| pointerDown := false; lastPt := None; dpr := dpr refs |},
     [StrokeCapture.EndStroke]).

(** What a pointer does on the canvas. *)
Inductive Pointer : Type :=
| Down (rect : DOMRect) (performance_now : R) (e : PointerEvent)
| Move (hasContext : bool) (rect : DOMRect) (clock : nat -> R)
       (native : PointerEvent) (coalesced : list PointerEvent)
| Up.

(** The canvas wired to the capture hook, as [DrawCaptcha] wires it:
    [onStrokeStart = beginStroke], [onStrokePoint = addPoint],
    [onStrokeEnd = endStroke]. *)
Definition dispatch (isActive : bool) (refs : Refs) (p : Pointer)
    : Refs * list StrokeCapture.Event :=
  match p with
  | Down rect performance_now e =>
      handlePointerDown isActive rect performance_now e refs
  | Move hasContext rect clock native coalesced =>
      fst (handlePointerMove isActive hasContext rect clock native
                             coalesced refs)
  | Up => handlePointerUp refs
  end.

Definition pointerStep (isActive : bool)
    (st : Refs * StrokeCapture.State) (p : Pointer)
    : Refs * StrokeCapture.State :=
  let '(refs', calls) := dispatch isActive (fst st) p in
  (refs', StrokeCapture.run calls (snd st)).

(** The refs and the hook agree: the pointer is down exactly while the
    hook is drawing and holds pending points, and [lastPt] is the last
    pending point. *)
Definition consistent (st : Refs * StrokeCapture.State) : Prop :=
  pointerDown (fst st) = StrokeCapture.isDrawing (snd st)
  /\ match StrokeCapture.currentPoints (snd st) with
     | [] => pointerDown (fst st) = false /\ lastPt (fst st) = None
     | p :: pts =>
         pointerDown (fst st) = true
         /\ lastPt (fst st) =
            Some (CapturePoint.x (last pts p), CapturePoint.y (last pts p))
     end.

Definition pointerRun (isActive : bool) (ps : list Pointer)
    (st : Refs * StrokeCapture.State) : Refs * StrokeCapture.State :=
  fold_left (pointerStep isActive) ps st.

End Canvas.

(** ** The [MetricsPanel] component: derived figures *)

Module MetricsPanel.

(** [s.points.reduce((ps, p) => ps + p.pressure, 0) / s.points.length] *)
Definition strokePressure (s : Stroke.t) : R :=
  fold_left (fun ps p => ps + CapturePoint.pressure p) (Stroke.points s) 0
  / INR (List.length (Stroke.points s)).

Definition avgPressure (session : CaptchaSession.t) : R :=
  if (0 <? List.length (CaptchaSession.strokes session))%nat
  then
    fold_left (fun sum s => sum + strokePressure s)
              (CaptchaSession.strokes session) 0
    / INR (List.length (CaptchaSession.strokes session))
  else 0.

Definition totalDirChanges (session : CaptchaSession.t) : nat :=
  fold_left
    (fun sum s =>
       (sum + StrokeMetrics.directionChanges (Stroke.metrics s))%nat)
    (CaptchaSession.strokes session) 0%nat.

End MetricsPanel.

(** ** The [StrokeGraph] component: the velocity heat-map

    A colour [hsl(h, 80%, 55%)] is the triple of its numbers. *)

Module StrokeGraph.

Record Hsl : Type := hsl {
  hue : R;
  saturation : R;
  lightness : R
}.

(** Map velocity to a hue: blue (slow) -> red (fast) *)
Definition velocityColor (v maxV : R) : Hsl :=
  if Req_dec_T maxV 0 then hsl 220 80 55
  else
    let t := Rmin (v / maxV) 1 in
    let hue := (1 - t) * 220 in
    hsl hue 80 55.

(** [let maxV = 0; for (const s of strokes)
      maxV = Math.max(maxV, s.metrics.maxVelocity)] *)
Definition globalMaxVelocity (strokes : list Stroke.t) : R :=
  fold_left (fun maxV s => Rmax maxV (StrokeMetrics.maxVelocity
                                        (Stroke.metrics s)))
            strokes 0.

(** The speed of the segment from [a] to [b]: [dt > 0 ? dist / dt : 0]. *)
Definition segmentVelocity (a b : CapturePoint.t) : R :=
  let dx := CapturePoint.x b - CapturePoint.x a in
  let dy := CapturePoint.y b - CapturePoint.y a in
  let dt := CapturePoint.timestamp b - CapturePoint.timestamp a in
  let dist := sqrt (dx * dx + dy * dy) in
  if Rgt_dec dt 0 then dist / dt else 0.

(** A painted segment with its [strokeStyle]. *)
Record Painted : Type := mkPainted {
  strokeStyle : Hsl;
  fromX : R;
  fromY : R;
  toX : R;
  toY : R
}.

(** [for (let i = 1; i < pts.length; i++) { ... }] for one stroke, [prev]
    being [pts[i - 1]]. *)
Fixpoint paintStroke (sx sy maxV : R) (prev : CapturePoint.t)
    (rest : list CapturePoint.t) : list Painted :=
  match rest with
  | [] => []
  | p :: rest' =>
      {| strokeStyle := velocityColor (segmentVelocity prev p) maxV;
         fromX := CapturePoint.x prev * sx;
         fromY := CapturePoint.y prev * sy;
         toX := CapturePoint.x p * sx;
         toY := CapturePoint.y p * sy |}
        :: paintStroke sx sy maxV p rest'
  end.

(** What the effect paints, stroke by stroke: [w] and [h] are the
    canvas' client size and [dpr] the device pixel ratio. *)
Definition paint (strokes : list Stroke.t) (sourceWidth sourceHeight : R)
    (w h dpr : R) : list Painted :=
  let sx := (w * dpr) / sourceWidth in
  let sy := (h * dpr) / sourceHeight in
  let maxV := globalMaxVelocity strokes in
  flat_map
    (fun stroke =>
       let pts := Stroke.points stroke in
       if (List.length pts <? 2)%nat then []
       else
         match pts with
         | [] => []
         | p0 :: rest => paintStroke sx sy maxV p0 rest
         end)
    strokes.

End StrokeGraph.

(** ** The [DrawCaptcha] component: phases of a challenge

    The component's state, the hook it holds and the canvas it renders
    in the drawing phase.  A user event acts only where the rendered page
    offers its control: the buttons of the other phases are not rendered
    and a disabled button does not fire.  What is written to the console
    is left out. *)

Module DrawCaptcha.

Inductive Category : Type := symbol | number | shape.

Record ChallengePrompt : Type := mkChallenge {
  instruction : string;
  emoji : string;
  category : Category
}.

(** Challenge prompts *)
Definition challenges : list ChallengePrompt :=
  [ {| instruction := "Draw a flower"; emoji := "🌸"; category := symbol |};
    {| instruction := "Draw the number 5"; emoji := "5";
       category := number |};
    {| instruction := "Draw a star"; emoji := "⭐"; category := shape |};
    {| instruction := "Draw a circle"; emoji := "⭕"; category := shape |};
    {| instruction := "Draw a heart"; emoji := "❤️"; category := symbol |} ].

(** [challenges[Math.floor(random * challenges.length)]], [random] being
    what [Math.random()] returned; [None] is [undefined]. *)
Definition pickChallenge (random : R) : option ChallengePrompt :=
  let index := Int_part (random * INR (List.length challenges)) in
  if (index <? 0)%Z then None else nth_error challenges (Z.to_nat index).

Inductive Phase : Type := idle | drawing | submitted.

Definition Phase_eqb (p q : Phase) : bool :=
  match p, q with
  | idle, idle | drawing, drawing | submitted, submitted => true
  | _, _ => false
  end.

Record State : Type := mkState {
  phase : Phase;
  challenge : option ChallengePrompt;
  session : option CaptchaSession.t;
  hasRandomised : bool;
  capture : StrokeCapture.State;          (* useStrokeCapture() *)
  canvas : option Canvas.Refs             (* the rendered <Canvas> *)
}.

(** Start with a fixed challenge; randomise on first user interaction *)
Definition initial : State :=
  {| phase := idle;
     challenge := nth_error challenges 0;
     session := None;
     hasRandomised := false;
     capture := StrokeCapture.initial;
     canvas := None |}.

(** [handleStart]; the page then renders the canvas. *)
Definition handleStart (random performance_now Date_now : R)
    (devicePixelRatio : R) (st : State) : State :=
  {| phase := drawing;
     challenge :=
       if hasRandomised st then challenge st else pickChallenge random;
     session := session st;
     hasRandomised := true;
     capture :=
       StrokeCapture.startSession performance_now Date_now (capture st);
     canvas := Some (Canvas.mounted devicePixelRatio) |}.

Definition handleClear (st : State) : State :=
  {| phase := phase st;
     challenge := challenge st;
     session := session st;
     hasRandomised := hasRandomised st;
     capture := StrokeCapture.clear (capture st);
     canvas := canvas st |}.

(** The Undo button calls the hook's [undo]. *)
Definition handleUndo (st : State) : State :=
  {| phase := phase st;
     challenge := challenge st;
     session := session st;
     hasRandomised := hasRandomised st;
     capture := StrokeCapture.undo (capture st);
     canvas := canvas st |}.

(** [handleSubmit].  With an undefined challenge the prompt cannot be
    built: reading [challenge.instruction] throws before any update. *)
Definition handleSubmit (performance_now : R) (randomUUID : string)
    (st : State) : State :=
  match challenge st with
  | None => st
  | Some c =>
      let data :=
        StrokeCapture.buildSession
          (instruction c ++ " " ++ emoji c)%string
          Canvas.CANVAS_W Canvas.CANVAS_H performance_now randomUUID
          (capture st) in
      {| phase := submitted;
         challenge := challenge st;
         session := Some data;
         hasRandomised := hasRandomised st;
         capture := capture st;
         canvas := None |}
  end.

Definition handleRetry (random : R) (st : State) : State :=
  {| phase := idle;
     challenge := pickChallenge random;
     session := None;
     hasRandomised := hasRandomised st;
     capture := StrokeCapture.clear (capture st);
     canvas := canvas st |}.

(** A pointer on the rendered canvas, which is always active. *)
Definition handlePointer (p : Canvas.Pointer) (st : State) : State :=
  match canvas st with
  | None => st
  | Some refs =>
      let '(refs', capture') :=
        Canvas.pointerStep true (refs, capture st) p in
      {| phase := phase st;
         challenge := challenge st;
         session := session st;
         hasRandomised := hasRandomised st;
         capture := capture';
         canvas := Some refs' |}
  end.

Inductive UserEvent : Type :=
| ClickStart (random performance_now Date_now devicePixelRatio : R)
| PointerInput (p : Canvas.Pointer)
| ClickClear
| ClickUndo
| ClickSubmit (performance_now : R) (randomUUID : string)
| ClickRetry (random : R).

Definition hasStrokes (st : State) : bool :=
  (0 <? List.length (StrokeCapture.strokes (capture st)))%nat.

(** Whether the rendered page offers the control of the event. *)
Definition offered (st : State) (ev : UserEvent) : bool :=
  match ev with
  | ClickStart _ _ _ _ => Phase_eqb (phase st) idle
  | PointerInput _ => Phase_eqb (phase st) drawing
  | ClickClear | ClickUndo | ClickSubmit _ _ =>
      Phase_eqb (phase st) drawing && hasStrokes st
  | ClickRetry _ =>
      Phase_eqb (phase st) submitted
      && match session st with Some _ => true | None => false end
  end.

Definition step (st : State) (ev : UserEvent) : State :=
  if offered st ev then
    match ev with
    | ClickStart random performance_now Date_now devicePixelRatio =>
        handleStart random performance_now Date_now devicePixelRatio st
    | PointerInput p => handlePointer p st
    | ClickClear => handleClear st
    | ClickUndo => handleUndo st
    | ClickSubmit performance_now randomUUID =>
        handleSubmit performance_now randomUUID st
    | ClickRetry random => handleRetry random st
    end
  else st.

Definition run (evs : list UserEvent) (st : State) : State :=
  fold_left step evs st.

(** [Math.random()] returns a number in [0, 1). *)
Definition randomInRange (ev : UserEvent) : Prop :=
  match ev with
  | ClickStart random _ _ _ | ClickRetry random => 0 <= random < 1
  | _ => True
  end.

End DrawCaptcha.

(** * Properties *)

(** ** Series: sums and maxima *)

Module SeriesFacts.
Import Js Spec.

Lemma fold_left_Rplus (l : list R) (a : R) :
  fold_left Rplus l a = a + Rsum l.
Proof.
  revert a; induction l as [|v l IH]; intros a; simpl.
  - lra.
  - rewrite IH. lra.
Qed.

Lemma reduce_add_Rsum (l : list R) : reduce_add l = Rsum l.
Proof. unfold reduce_add. rewrite fold_left_Rplus. lra. Qed.

Lemma Math_max_isMaximum (vs : list R) (v : R) :
  isMaximum (Math_max v vs) (v :: vs).
Proof.
  unfold Math_max. revert v.
  induction vs as [|a vs IH]; intros v; simpl.
  - split; [now left|]. intros u [<-|[]]. lra.
  - destruct (IH (Rmax v a)) as [Hin Hub]. split.
    + destruct Hin as [Heq|Hin]; [|now right; right].
      rewrite <- Heq.
      unfold Rmax. destruct (Rle_dec v a); [now right; left | now left].
    + intros u [<-|[<-|Hu]].
      * apply Rle_trans with (Rmax v a); [apply Rmax_l|]. apply Hub. now left.
      * apply Rle_trans with (Rmax v a); [apply Rmax_r|]. apply Hub. now left.
      * apply Hub. now right.
Qed.

Lemma average_mean (l : list R) : l <> [] -> Metrics.average l = mean l.
Proof.
  destruct l as [|v l]; [congruence|]. intros _.
  unfold Metrics.average, mean. now rewrite reduce_add_Rsum.
Qed.

Lemma maximum_isMaximum (l : list R) :
  l <> [] -> isMaximum (Metrics.maximum l) l.
Proof.
  destruct l as [|v l]; [congruence|]. intros _.
  apply Math_max_isMaximum.
Qed.

End SeriesFacts.

(** ** metrics.ts: [computeStrokeMetrics] *)

Module MetricsFacts.
Import Js Spec Metrics SeriesFacts.

Lemma distance_segDistance (a b : CapturePoint.t) :
  distance a b = segDistance (a, b).
Proof. unfold distance, segDistance. simpl. f_equal. ring. Qed.

Lemma segments_cons2 (a b : CapturePoint.t) (rest : list CapturePoint.t) :
  segments (a :: b :: rest) = (a, b) :: segments (b :: rest).
Proof. reflexivity. Qed.

Lemma timedSegments_cons2 (a b : CapturePoint.t)
    (rest : list CapturePoint.t) :
  timedSegments (a :: b :: rest) =
  (if positiveDt (a, b) then [(a, b)] else [])
    ++ timedSegments (b :: rest).
Proof.
  unfold timedSegments. rewrite segments_cons2.
  change (filter positiveDt ((a, b) :: segments (b :: rest)))
    with (if positiveDt (a, b)
          then (a, b) :: filter positiveDt (segments (b :: rest))
          else filter positiveDt (segments (b :: rest))).
  now destruct (positiveDt (a, b)).
Qed.

Lemma positiveDt_true (a b : CapturePoint.t) :
  CapturePoint.timestamp b - CapturePoint.timestamp a > 0 ->
  positiveDt (a, b) = true.
Proof.
  intros H. unfold positiveDt, segDt. simpl.
  destruct (Rlt_dec _ _); [reflexivity | lra].
Qed.

Lemma positiveDt_false (a b : CapturePoint.t) :
  ~ CapturePoint.timestamp b - CapturePoint.timestamp a > 0 ->
  positiveDt (a, b) = false.
Proof.
  intros H. unfold positiveDt, segDt. simpl.
  destruct (Rlt_dec _ _); [lra | reflexivity].
Qed.

(** *** One iteration *)

Lemma body_totalLength (a b : CapturePoint.t) (st : LoopState) :
  totalLength (loop_body a b st) = totalLength st + distance a b.
Proof.
  unfold loop_body.
  destruct (Rgt_dec _ _); [destruct (_ <? _)%nat|]; reflexivity.
Qed.

Lemma body_prevAngle (a b : CapturePoint.t) (st : LoopState) :
  prevAngle (loop_body a b st) = Some (angle a b).
Proof.
  unfold loop_body.
  destruct (Rgt_dec _ _); [destruct (_ <? _)%nat|]; reflexivity.
Qed.

Lemma body_directionChanges (a b : CapturePoint.t) (st : LoopState) :
  directionChanges (loop_body a b st) =
  match prevAngle st with
  | Some prev =>
      ((if isTurn prev (angle a b) then 1 else 0) + directionChanges st)%nat
  | None => directionChanges st
  end.
Proof.
  unfold loop_body.
  assert (Hdc : forall (vs : list R * list R) dc,
             directionChanges
               (let '(v, c) := vs in
                {| totalLength := totalLength st + distance a b;
                   velocities := v; accelerations := c;
                   directionChanges := dc;
                   prevAngle := Some (angle a b) |}) = dc)
    by (intros [v c] dc; reflexivity).
  rewrite Hdc. destruct (prevAngle st) as [prev|]; [|reflexivity].
  unfold isTurn, wrappedDifference.
  destruct (Rgt_dec (Rabs (angle a b - prev)) PI) as [Hw|Hw];
    destruct (Rlt_dec PI (Rabs (angle a b - prev))) as [Hw'|Hw'];
    try lra;
    match goal with
    | |- context [Rgt_dec ?u ?v] =>
        destruct (Rgt_dec u v); destruct (Rlt_dec v u); try lra; reflexivity
    end.
Qed.

(** A segment whose time delta is not positive adds its distance to the
    length and leaves both series as they are. *)
Lemma body_untimed (a b : CapturePoint.t) (st : LoopState) :
  CapturePoint.timestamp b - CapturePoint.timestamp a <= 0 ->
  velocities (loop_body a b st) = velocities st
  /\ accelerations (loop_body a b st) = accelerations st
  /\ totalLength (loop_body a b st) = totalLength st + distance a b.
Proof.
  intros H. unfold loop_body.
  destruct (Rgt_dec _ _) as [Hgt|_]; [lra|]. repeat split.
Qed.

Lemma nth_before_last (l : list R) (u v : R) :
  nth (List.length ((l ++ [u]) ++ [v]) - 2) ((l ++ [u]) ++ [v]) 0 = u.
Proof.
  rewrite <- app_assoc. simpl.
  replace (List.length (l ++ [u; v]) - 2)%nat with (List.length l)
    by (rewrite length_app; simpl; lia).
  now rewrite nth_middle.
Qed.

(** A segment with a positive time delta appends its velocity, and, when
    a velocity was recorded before, an acceleration. *)
Lemma body_timed_first (a b : CapturePoint.t) (st : LoopState) :
  CapturePoint.timestamp b - CapturePoint.timestamp a > 0 ->
  velocities st = [] ->
  velocities (loop_body a b st) = [segVelocity (a, b)]
  /\ accelerations (loop_body a b st) = accelerations st.
Proof.
  intros H Hv. unfold loop_body.
  destruct (Rgt_dec _ _) as [_|Hn]; [|contradiction].
  rewrite Hv. simpl. unfold segVelocity, segDt.
  rewrite distance_segDistance. split; reflexivity.
Qed.

Lemma body_timed_next (a b : CapturePoint.t) (st : LoopState)
    (l : list R) (u : R) :
  CapturePoint.timestamp b - CapturePoint.timestamp a > 0 ->
  velocities st = l ++ [u] ->
  velocities (loop_body a b st) = (l ++ [u]) ++ [segVelocity (a, b)]
  /\ accelerations (loop_body a b st) =
       accelerations st
         ++ [Rabs (segVelocity (a, b) - u) / segDt (a, b)].
Proof.
  intros H Hv. unfold loop_body.
  destruct (Rgt_dec _ _) as [_|Hn]; [|contradiction].
  rewrite Hv.
  assert (Hlen : forall v : R,
             (1 <? List.length ((l ++ [u]) ++ [v]))%nat = true).
  { intros v. apply Nat.ltb_lt. rewrite !length_app. simpl. lia. }
  rewrite Hlen. rewrite nth_before_last.
  unfold segVelocity, segDt. rewrite distance_segDistance.
  split; reflexivity.
Qed.

(** *** The whole loop *)

Lemma loop_totalLength (rest : list CapturePoint.t) :
  forall (prev : CapturePoint.t) (st : LoopState),
    totalLength (loop prev rest st) =
    totalLength st + Rsum (map segDistance (segments (prev :: rest))).
Proof.
  induction rest as [|p rest IH]; intros prev st.
  - simpl. lra.
  - rewrite segments_cons2. simpl loop. rewrite IH, body_totalLength.
    rewrite distance_segDistance. simpl. lra.
Qed.

Lemma accelerationsOf_snoc (l : list (CapturePoint.t * CapturePoint.t))
    (s0 s : CapturePoint.t * CapturePoint.t) :
  accelerationsOf ((l ++ [s0]) ++ [s]) =
  accelerationsOf (l ++ [s0])
    ++ [Rabs (segVelocity s - segVelocity s0) / segDt s].
Proof.
  induction l as [|a l IH].
  - reflexivity.
  - destruct l as [|a' l].
    + reflexivity.
    + change (accelerationsOf (((a :: a' :: l) ++ [s0]) ++ [s]))
        with (Rabs (segVelocity a' - segVelocity a) / segDt a'
                :: accelerationsOf (((a' :: l) ++ [s0]) ++ [s])).
      rewrite IH. reflexivity.
Qed.

Lemma snoc_cases {A : Type} (l : list A) :
  l = [] \/ exists l' a, l = l' ++ [a].
Proof.
  induction l as [|a l' _] using rev_ind; [now left | right; eauto].
Qed.

(** The two series the loop builds are those of the segments with a
    positive time delta.  [timed] stands for the segments of that kind
    met before [prev]. *)
Lemma loop_series (rest : list CapturePoint.t) :
  forall (prev : CapturePoint.t) (st : LoopState)
         (timed : list (CapturePoint.t * CapturePoint.t)),
    velocities st = map segVelocity timed ->
    accelerations st = accelerationsOf timed ->
    velocities (loop prev rest st) =
      map segVelocity (timed ++ timedSegments (prev :: rest))
    /\ accelerations (loop prev rest st) =
      accelerationsOf (timed ++ timedSegments (prev :: rest)).
Proof.
  induction rest as [|p rest IH]; intros prev st timed Hv Ha.
  - simpl. rewrite app_nil_r. now split.
  - simpl loop. rewrite timedSegments_cons2.
    destruct (Rgt_dec (CapturePoint.timestamp p
                       - CapturePoint.timestamp prev) 0) as [Hdt|Hdt].
    + rewrite (positiveDt_true _ _ Hdt), app_assoc.
      destruct (snoc_cases timed) as [Hnil|(l & s0 & Hsnoc)].
      * subst timed. simpl in Hv, Ha.
        destruct (body_timed_first prev p st Hdt Hv) as [Hv' Ha'].
        apply IH; simpl; congruence.
      * subst timed. rewrite map_app in Hv. simpl in Hv.
        destruct (body_timed_next prev p st _ _ Hdt Hv) as [Hv' Ha'].
        apply IH.
        -- rewrite Hv'. now rewrite !map_app.
        -- rewrite Ha', Ha. now rewrite accelerationsOf_snoc.
    + rewrite (positiveDt_false _ _ Hdt). simpl app.
      destruct (body_untimed prev p st) as (Hv' & Ha' & _); [lra|].
      apply IH; congruence.
Qed.

Lemma countTurns_cons2 (b1 b2 : R) (l : list R) :
  countTurns (b1 :: b2 :: l) =
  ((if isTurn b1 b2 then 1 else 0) + countTurns (b2 :: l))%nat.
Proof. reflexivity. Qed.

Lemma loop_directionChanges (rest : list CapturePoint.t) :
  forall (prev : CapturePoint.t) (st : LoopState),
    directionChanges (loop prev rest st) =
    (directionChanges st
     + countTurns (match prevAngle st with
                   | Some b => [b]
                   | None => []
                   end ++ map bearing (segments (prev :: rest))))%nat.
Proof.
  induction rest as [|p rest IH]; intros prev st.
  - simpl. destruct (prevAngle st); simpl; lia.
  - simpl loop. rewrite IH, body_prevAngle, body_directionChanges.
    rewrite segments_cons2.
    change (map bearing ((prev, p) :: segments (p :: rest)))
      with (angle prev p :: map bearing (segments (p :: rest))).
    destruct (prevAngle st) as [b|]; cbn [app].
    + rewrite countTurns_cons2. lia.
    + lia.
Qed.

End MetricsFacts.

Module MetricsTheorems.
Import Js Spec Metrics SeriesFacts MetricsFacts.

(** *** Fewer than two points *)

(** C3.  For every list of fewer than 2 points, the empty list included,
    [computeStrokeMetrics] returns the all-zero metrics record: length,
    duration, avgVelocity, maxVelocity, avgAcceleration, maxAcceleration
    and directionChanges are all 0.  The function is total, so this is a
    returned value and no error. *)
Theorem computeStrokeMetrics_few_points (points : list CapturePoint.t) :
  (List.length points < 2)%nat ->
  computeStrokeMetrics points =
  {| StrokeMetrics.length := 0;
     StrokeMetrics.duration := 0;
     StrokeMetrics.avgVelocity := 0;
     StrokeMetrics.maxVelocity := 0;
     StrokeMetrics.avgAcceleration := 0;
     StrokeMetrics.maxAcceleration := 0;
     StrokeMetrics.directionChanges := 0 |}.
Proof.
  intros H. unfold computeStrokeMetrics.
  apply Nat.ltb_lt in H. now rewrite H.
Qed.

Lemma computeStrokeMetrics_few_points_witness :
  (List.length (@nil CapturePoint.t) < 2)%nat
  /\ computeStrokeMetrics [] = zeroMetrics
  /\ computeStrokeMetrics [CapturePoint.mk 3 4 5 (1 / 2) mouse] = zeroMetrics.
Proof.
  split; [simpl; lia|]. split.
  - apply (computeStrokeMetrics_few_points []). simpl; lia.
  - apply (computeStrokeMetrics_few_points [_]). simpl; lia.
Defined.

(** *** Length, velocity and acceleration *)

Lemma computeStrokeMetrics_fields (p0 p1 : CapturePoint.t)
    (rest : list CapturePoint.t) :
  let points := p0 :: p1 :: rest in
  let st := runLoop points in
  computeStrokeMetrics points =
  {| StrokeMetrics.length := totalLength st;
     StrokeMetrics.duration :=
       CapturePoint.timestamp (last points p0) - CapturePoint.timestamp p0;
     StrokeMetrics.avgVelocity := average (velocities st);
     StrokeMetrics.maxVelocity := maximum (velocities st);
     StrokeMetrics.avgAcceleration := average (accelerations st);
     StrokeMetrics.maxAcceleration := maximum (accelerations st);
     StrokeMetrics.directionChanges := directionChanges st |}.
Proof. reflexivity. Qed.

Lemma runLoop_series (points : list CapturePoint.t) :
  velocities (runLoop points) = velocitySeries points
  /\ accelerations (runLoop points) = accelerationSeries points.
Proof.
  destruct points as [|p0 rest]; [now split|].
  apply (loop_series rest p0 loop_init []); reflexivity.
Qed.

Lemma runLoop_totalLength (points : list CapturePoint.t) :
  totalLength (runLoop points) = Rsum (map segDistance (segments points)).
Proof.
  destruct points as [|p0 rest]; [reflexivity|].
  simpl runLoop. rewrite loop_totalLength. simpl totalLength. lra.
Qed.

(** C4.  For every list of at least 2 points:
    - a segment whose time delta is <= 0 leaves the velocity and the
      acceleration series untouched (it is not recorded as a zero
      velocity) and still adds its Euclidean distance to the length;
    - so the series the loop ends with are the velocities [d / dt] of the
      segments with [dt > 0], and the accelerations [|v' - v| / dt']
      between consecutive ones of them, while the length is the sum of
      the distances of all segments;
    - avgVelocity and avgAcceleration are the arithmetic means of their
      series, and 0 for an empty series; maxVelocity and maxAcceleration
      are the maxima of their series, and 0 for an empty series. *)
Theorem computeStrokeMetrics_series (points : list CapturePoint.t) :
  (2 <= List.length points)%nat ->
  let m := computeStrokeMetrics points in
  let vs := velocitySeries points in
  let acs := accelerationSeries points in
  (forall a b st,
      CapturePoint.timestamp b - CapturePoint.timestamp a <= 0 ->
      velocities (loop_body a b st) = velocities st
      /\ accelerations (loop_body a b st) = accelerations st
      /\ totalLength (loop_body a b st) = totalLength st + distance a b)
  /\ vs = map segVelocity (filter positiveDt (segments points))
  /\ velocities (runLoop points) = vs
  /\ accelerations (runLoop points) = acs
  /\ StrokeMetrics.length m = Rsum (map segDistance (segments points))
  /\ (vs = [] ->
      StrokeMetrics.avgVelocity m = 0 /\ StrokeMetrics.maxVelocity m = 0)
  /\ (vs <> [] ->
      StrokeMetrics.avgVelocity m = mean vs
      /\ isMaximum (StrokeMetrics.maxVelocity m) vs)
  /\ (acs = [] ->
      StrokeMetrics.avgAcceleration m = 0
      /\ StrokeMetrics.maxAcceleration m = 0)
  /\ (acs <> [] ->
      StrokeMetrics.avgAcceleration m = mean acs
      /\ isMaximum (StrokeMetrics.maxAcceleration m) acs).
Proof.
  intros Hlen m vs acs.
  destruct points as [|p0 [|p1 rest]]; [simpl in Hlen; lia ..|].
  subst m. rewrite computeStrokeMetrics_fields.
  cbv zeta. cbn [StrokeMetrics.length StrokeMetrics.avgVelocity
    StrokeMetrics.maxVelocity StrokeMetrics.avgAcceleration
    StrokeMetrics.maxAcceleration].
  destruct (runLoop_series (p0 :: p1 :: rest)) as [Hv Ha].
  rewrite Hv, Ha, runLoop_totalLength. subst vs acs.
  split; [exact body_untimed|].
  do 4 (split; [reflexivity|]).
  generalize (velocitySeries (p0 :: p1 :: rest)) as vs.
  generalize (accelerationSeries (p0 :: p1 :: rest)) as acs.
  intros acs vs.
  split; [intros ->; split; reflexivity|].
  split; [intros Hne; split;
          [now apply average_mean | now apply maximum_isMaximum]|].
  split; [intros ->; split; reflexivity|].
  intros Hne; split; [now apply average_mean | now apply maximum_isMaximum].
Qed.

Lemma computeStrokeMetrics_series_witness :
  (2 <= List.length Examples.stutter)%nat
  /\ velocities (runLoop Examples.stutter) = velocitySeries Examples.stutter
  /\ StrokeMetrics.length (computeStrokeMetrics Examples.stutter) =
     Rsum (map segDistance (segments Examples.stutter)).
Proof.
  assert (H : (2 <= List.length Examples.stutter)%nat) by (simpl; lia).
  split; [exact H|].
  pose proof (computeStrokeMetrics_series Examples.stutter H)
    as (_ & _ & Hv & _ & Hl & _).
  split; [exact Hv | exact Hl].
Defined.

(** *** Direction changes *)

Lemma Math_atan2_range (y x : R) : - PI < Math_atan2 y x <= PI.
Proof.
  pose proof PI_RGT_0 as Hpi.
  pose proof (atan_bound (y / x)) as Hb.
  unfold Math_atan2.
  destruct (Rgt_dec x 0) as [Hx|Hx]; [lra|].
  destruct (Rlt_dec x 0) as [Hx'|Hx'].
  - assert (Hinv : / x < 0) by now apply Rinv_lt_0_compat.
    destruct (Rge_dec y 0) as [Hy|Hy].
    + assert (Hq : y / x <= 0) by (unfold Rdiv; nra).
      assert (atan (y / x) <= 0).
      { destruct Hq as [Hq|Hq]; [|rewrite Hq, atan_0; lra].
        left. rewrite <- atan_0. now apply atan_increasing. }
      lra.
    + assert (Hq : 0 < y / x) by (unfold Rdiv; nra).
      assert (0 < atan (y / x))
        by (rewrite <- atan_0; now apply atan_increasing).
      lra.
  - destruct (Rgt_dec y 0); [lra|]. destruct (Rlt_dec y 0); lra.
Qed.

Lemma wrappedDifference_range (b1 b2 : R) :
  - PI < b1 <= PI -> - PI < b2 <= PI ->
  0 <= wrappedDifference b1 b2 <= PI.
Proof.
  intros H1 H2. unfold wrappedDifference.
  pose proof (Rabs_pos (b2 - b1)) as Hpos.
  assert (Rabs (b2 - b1) < 2 * PI)
    by (unfold Rabs; destruct (Rcase_abs _); lra).
  destruct (Rlt_dec _ _); lra.
Qed.

Lemma runLoop_directionChanges (points : list CapturePoint.t) :
  directionChanges (runLoop points) =
  countTurns (map bearing (segments points)).
Proof.
  destruct points as [|p0 rest]; [reflexivity|].
  simpl runLoop. now rewrite loop_directionChanges.
Qed.

Lemma computeStrokeMetrics_countTurns (points : list CapturePoint.t) :
  StrokeMetrics.directionChanges (computeStrokeMetrics points) =
  countTurns (map bearing (segments points)).
Proof.
  destruct points as [|p0 [|p1 rest]]; [reflexivity ..|].
  rewrite computeStrokeMetrics_fields. cbv zeta.
  cbn [StrokeMetrics.directionChanges].
  apply runLoop_directionChanges.
Qed.

Lemma bearing_along_x (a b : CapturePoint.t) :
  CapturePoint.y b - CapturePoint.y a = 0 ->
  CapturePoint.x b - CapturePoint.x a > 0 ->
  bearing (a, b) = 0.
Proof.
  intros Hy Hx. unfold bearing, Math_atan2. simpl fst; simpl snd.
  destruct (Rgt_dec _ _); [|contradiction].
  rewrite Hy. unfold Rdiv. now rewrite Rmult_0_l, atan_0.
Qed.

Lemma bearing_along_y (a b : CapturePoint.t) :
  CapturePoint.y b - CapturePoint.y a > 0 ->
  CapturePoint.x b - CapturePoint.x a = 0 ->
  bearing (a, b) = PI / 2.
Proof.
  intros Hy Hx. unfold bearing, Math_atan2. simpl fst; simpl snd.
  rewrite Hx.
  destruct (Rgt_dec 0 0); [lra|]. destruct (Rlt_dec 0 0); [lra|].
  destruct (Rgt_dec _ _); [reflexivity | contradiction].
Qed.

Lemma segDistance_horizontal (a b : CapturePoint.t) (d : R) :
  0 <= d ->
  CapturePoint.x b - CapturePoint.x a = d ->
  CapturePoint.y b - CapturePoint.y a = 0 ->
  segDistance (a, b) = d.
Proof.
  intros Hd Hx Hy. unfold segDistance. simpl fst; simpl snd.
  rewrite Hx, Hy. replace (d * d + 0 * 0) with (d * d) by ring.
  now apply sqrt_square.
Qed.

Lemma segDistance_vertical (a b : CapturePoint.t) (d : R) :
  0 <= d ->
  CapturePoint.x b - CapturePoint.x a = 0 ->
  CapturePoint.y b - CapturePoint.y a = d ->
  segDistance (a, b) = d.
Proof.
  intros Hd Hx Hy. unfold segDistance. simpl fst; simpl snd.
  rewrite Hx, Hy. replace (0 * 0 + d * d) with (d * d) by ring.
  now apply sqrt_square.
Qed.

(** C5.  For every list of points (at least 2 of them or not),
    directionChanges is the number of consecutive segment bearings, each
    computed with atan2, whose wrapped absolute difference exceeds PI/6;
    the wrapped difference is the raw absolute difference, replaced by
    2 PI minus it when it is above PI, and lies in [0, PI]; a stroke of
    two points, which has a first segment only, counts nothing; and for
    P0 = (0,0,t=0), P1 = (10,0,t=10), P2 = (10,10,t=20), whatever the
    pressure and pointer type, directionChanges = 1 and length = 20. *)
Theorem computeStrokeMetrics_directionChanges :
  (forall points,
      StrokeMetrics.directionChanges (computeStrokeMetrics points) =
      countTurns (map bearing (segments points)))
  /\ (forall b1 b2,
      isTurn b1 b2 = true <-> PI / 6 < wrappedDifference b1 b2)
  /\ (forall b1 b2,
      wrappedDifference b1 b2 =
      if Rlt_dec PI (Rabs (b2 - b1)) then 2 * PI - Rabs (b2 - b1)
      else Rabs (b2 - b1))
  /\ (forall s1 s2,
      0 <= wrappedDifference (bearing s1) (bearing s2) <= PI)
  /\ (forall a b,
      StrokeMetrics.directionChanges (computeStrokeMetrics [a; b]) = 0%nat)
  /\ (forall pr0 pr1 pr2 ty0 ty1 ty2,
      let m := computeStrokeMetrics
                 [CapturePoint.mk 0 0 0 pr0 ty0;
                  CapturePoint.mk 10 0 10 pr1 ty1;
                  CapturePoint.mk 10 10 20 pr2 ty2] in
      StrokeMetrics.directionChanges m = 1%nat
      /\ StrokeMetrics.length m = 20).
Proof.
  split; [exact computeStrokeMetrics_countTurns|].
  split.
  { intros b1 b2. unfold isTurn.
    destruct (Rlt_dec _ _); split; intros; try discriminate; easy. }
  split; [reflexivity|].
  split.
  { intros s1 s2. apply wrappedDifference_range; apply Math_atan2_range. }
  split.
  { intros a b. now rewrite computeStrokeMetrics_countTurns. }
  intros pr0 pr1 pr2 ty0 ty1 ty2 m. subst m. split.
  - rewrite computeStrokeMetrics_countTurns.
    cbn [segments map]. rewrite countTurns_cons2.
    rewrite bearing_along_x by (simpl; lra).
    rewrite bearing_along_y by (simpl; lra).
    pose proof PI_RGT_0 as Hpi.
    unfold isTurn, wrappedDifference.
    replace (PI / 2 - 0) with (PI / 2) by lra.
    rewrite Rabs_pos_eq by lra.
    destruct (Rlt_dec PI (PI / 2)); [lra|].
    destruct (Rlt_dec (PI / 6) (PI / 2)); [reflexivity | lra].
  - rewrite computeStrokeMetrics_fields. cbv zeta.
    cbn [StrokeMetrics.length]. rewrite runLoop_totalLength.
    cbn [segments map Rsum fold_right].
    rewrite (segDistance_horizontal _ _ 10) by (simpl; lra).
    rewrite (segDistance_vertical _ _ 10) by (simpl; lra).
    lra.
Qed.

End MetricsTheorems.

(** ** The [useStrokeCapture] hook *)

Module CaptureFacts.
Import Js Spec StrokeCapture SeriesFacts.

(** *** Pauses *)

Lemma pauses_cons2 (a b : Stroke.t) (rest : list Stroke.t) :
  pauses (a :: b :: rest) =
  (Stroke.startTime b - Stroke.endTime a) :: pauses (b :: rest).
Proof. reflexivity. Qed.

Lemma pauses_length (l : list Stroke.t) :
  List.length (pauses l) = (List.length l - 1)%nat.
Proof.
  induction l as [|a [|b rest] IH]; [reflexivity ..|].
  rewrite pauses_cons2. cbn [List.length] in *. lia.
Qed.

Lemma pauses_nth (l : list Stroke.t) :
  forall (i : nat) (a b : Stroke.t),
    nth_error l i = Some a ->
    nth_error l (S i) = Some b ->
    nth_error (pauses l) i = Some (Stroke.startTime b - Stroke.endTime a).
Proof.
  induction l as [|a0 [|b0 rest] IH]; intros i a b Ha Hb.
  - destruct i; discriminate.
  - destruct i; discriminate.
  - rewrite pauses_cons2. destruct i as [|i].
    + simpl in Ha, Hb. now inversion Ha; inversion Hb; subst.
    + apply IH; assumption.
Qed.

(** *** Totals *)

Lemma fold_left_lengths (l : list Stroke.t) (a : R) :
  fold_left (fun sum s => sum + StrokeMetrics.length (Stroke.metrics s)) l a
  = a + Rsum (map (fun s => StrokeMetrics.length (Stroke.metrics s)) l).
Proof.
  revert a; induction l as [|s l IH]; intros a; simpl.
  - lra.
  - rewrite IH. lra.
Qed.

(** *** Stroke identifiers *)

Lemma StronglySorted_snoc (l : list nat) (n : nat) :
  StronglySorted lt l -> Forall (fun m => (m < n)%nat) l ->
  StronglySorted lt (l ++ [n]).
Proof.
  induction 1 as [|m l Hs IH Hm]; intros Hall; simpl.
  - repeat constructor.
  - inversion Hall; subst. constructor; [now apply IH|].
    apply Forall_app. split; [assumption | now repeat constructor].
Qed.

Lemma StronglySorted_prefix (l1 l2 : list nat) :
  StronglySorted lt (l1 ++ l2) -> StronglySorted lt l1.
Proof.
  induction l1 as [|m l1 IH]; simpl; intros H; [constructor|].
  inversion H; subst. constructor; [now apply IH|].
  match goal with
  | Hall : Forall _ (l1 ++ l2) |- _ => now apply Forall_app in Hall
  end.
Qed.

Lemma StronglySorted_lt_NoDup (l : list nat) :
  StronglySorted lt l -> NoDup l.
Proof.
  induction 1 as [|m l Hs IH Hm]; constructor; [|assumption].
  intros Hin. rewrite Forall_forall in Hm. specialize (Hm _ Hin). lia.
Qed.

Lemma removelast_prefix {A : Type} (l : list A) :
  exists tl, l = removelast l ++ tl.
Proof.
  destruct l as [|a l]; [now exists []|].
  exists [last (a :: l) a]. now apply app_removelast_last.
Qed.

Lemma endStroke_short (st : State) :
  (List.length (currentPoints st) < 2)%nat ->
  strokes (endStroke st) = strokes st
  /\ strokeId (endStroke st) = strokeId st
  /\ currentPoints (endStroke st) = []
  /\ isDrawing (endStroke st) = false.
Proof.
  intros H. unfold endStroke. apply Nat.ltb_lt in H. rewrite H.
  repeat split.
Qed.

Lemma endStroke_kept (st : State) :
  (2 <= List.length (currentPoints st))%nat ->
  exists s,
    strokes (endStroke st) = strokes st ++ [s]
    /\ Stroke.id s = strokeId st
    /\ Stroke.points s = currentPoints st
    /\ Stroke.metrics s = Metrics.computeStrokeMetrics (currentPoints st)
    /\ strokeId (endStroke st) = S (strokeId st)
    /\ currentPoints (endStroke st) = []
    /\ isDrawing (endStroke st) = false.
Proof.
  intros H. unfold endStroke.
  assert (Hlt : (List.length (currentPoints st) <? 2)%nat = false)
    by now apply Nat.ltb_ge.
  rewrite Hlt. destruct (currentPoints st) as [|p0 rest] eqn:E.
  - simpl in H. lia.
  - eexists. repeat split.
Qed.

Lemma coherent_step (st : State) (ev : Event) :
  coherent st -> coherent (step st ev).
Proof.
  intros [Hs Hall]. destruct ev; simpl.
  - split; constructor.
  - now split.
  - now split.
  - destruct (Nat.lt_ge_cases (List.length (currentPoints st)) 2) as [H|H].
    + destruct (endStroke_short st H) as (Hst & Hid & _).
      unfold coherent. now rewrite Hst, Hid.
    + destruct (endStroke_kept st H) as (s & Hst & Hid & Hp & _ & Hn & _).
      unfold coherent. rewrite Hst, Hn, map_app. simpl. split.
      * rewrite Hid. apply StronglySorted_snoc; [assumption|].
        rewrite Forall_map. eapply Forall_impl; [|exact Hall].
        now intros s' [? _].
      * apply Forall_app. split.
        -- eapply Forall_impl; [|exact Hall]. intros s' [? ?]. split; lia.
        -- constructor; [|constructor]. split; [lia | now rewrite Hp].
  - destruct (removelast_prefix (strokes st)) as [tl Htl].
    unfold coherent; simpl. split.
    + rewrite Htl, map_app in Hs. now apply StronglySorted_prefix in Hs.
    + rewrite Htl in Hall. now apply Forall_app in Hall.
  - split; constructor.
Qed.

Lemma coherent_run (evs : list Event) :
  forall st, coherent st -> coherent (run evs st).
Proof.
  induction evs as [|ev evs IH]; intros st H; [assumption|].
  apply IH. now apply coherent_step.
Qed.

Lemma assignedIds_seq (evs : list Event) :
  forall st,
    forallb inSession evs = true ->
    (strokeId st <= strokeId (run evs st))%nat
    /\ assignedIds evs st =
       seq (strokeId st) (strokeId (run evs st) - strokeId st).
Proof.
  induction evs as [|ev evs IH]; intros st Hin.
  - simpl. split; [lia|]. now rewrite Nat.sub_diag.
  - simpl in Hin. apply andb_prop in Hin as [Hev Hin].
    destruct (IH (step st ev) Hin) as [Hle Hseq].
    cbn [assignedIds]. rewrite Hseq. cbn [run fold_left].
    fold (run evs (step st ev)).
    destruct ev; try discriminate; cbn [step] in *;
      try (cbn [beginStroke addPoint undo clear strokeId] in *;
           split; [lia | reflexivity]).
    destruct (Nat.lt_ge_cases (List.length (currentPoints st)) 2) as [H|H].
    + destruct (endStroke_short st H) as (_ & Hid & _).
      rewrite Hid in *. apply Nat.ltb_lt in H. rewrite H.
      split; [lia | reflexivity].
    + destruct (endStroke_kept st H) as (s & _ & _ & _ & _ & Hn & _).
      rewrite Hn in *. apply Nat.ltb_ge in H. rewrite H.
      split; [lia|]. cbn [app].
      replace (strokeId (run evs (endStroke st)) - strokeId st)%nat
        with (S (strokeId (run evs (endStroke st)) - S (strokeId st)))
        by lia.
      reflexivity.
Qed.

End CaptureFacts.

Module CaptureTheorems.
Import Js Spec StrokeCapture SeriesFacts CaptureFacts.

(** C6.  For every session built from an ordered list of finalized
    strokes, strokeCount is the length of the stroke list, the pause list
    has length max(strokeCount - 1, 0), and pauses[i] is
    strokes[i+1].startTime - strokes[i].endTime at every index i that has
    a successor; for two strokes A ending at 100 and B starting at 150,
    the pause list is [50]. *)
Theorem buildSession_pauses (prompt : string) (canvasWidth canvasHeight : R)
    (performance_now : R) (randomUUID : string) (st : State) :
  let session :=
    buildSession prompt canvasWidth canvasHeight performance_now
                 randomUUID st in
  CaptchaSession.strokes session = strokes st
  /\ CaptchaSession.strokeCount session =
     List.length (CaptchaSession.strokes session)
  /\ Z.of_nat (List.length (CaptchaSession.pausesBetweenStrokes session)) =
     Z.max (Z.of_nat (CaptchaSession.strokeCount session) - 1) 0
  /\ (forall i a b,
         nth_error (CaptchaSession.strokes session) i = Some a ->
         nth_error (CaptchaSession.strokes session) (S i) = Some b ->
         nth_error (CaptchaSession.pausesBetweenStrokes session) i =
         Some (Stroke.startTime b - Stroke.endTime a))
  /\ (forall A B,
         strokes st = [A; B] ->
         Stroke.endTime A = 100 ->
         Stroke.startTime B = 150 ->
         CaptchaSession.pausesBetweenStrokes session = [50]).
Proof.
  cbv zeta. unfold buildSession.
  cbn [CaptchaSession.strokes CaptchaSession.strokeCount
       CaptchaSession.pausesBetweenStrokes].
  split; [reflexivity|]. split; [reflexivity|].
  split; [rewrite pauses_length; lia|].
  split; [apply pauses_nth|].
  intros A B -> HA HB. simpl. rewrite HA, HB. f_equal. lra.
Qed.

Lemma buildSession_pauses_witness :
  strokes Examples.twoStrokes = [Examples.strokeA; Examples.strokeB]
  /\ Stroke.endTime Examples.strokeA = 100
  /\ Stroke.startTime Examples.strokeB = 150
  /\ CaptchaSession.pausesBetweenStrokes
       (buildSession "Draw a star" 500 375 180 "session-1"
                     Examples.twoStrokes) = [50].
Proof.
  repeat split.
  apply (buildSession_pauses "Draw a star" 500 375 180 "session-1"
           Examples.twoStrokes) with (A := Examples.strokeA)
                                     (B := Examples.strokeB);
    reflexivity.
Defined.

(** C7.  For every session built by the aggregator, totalPathLength is
    the sum of the per-stroke metric lengths and avgVelocity is the
    unweighted arithmetic mean of the per-stroke average velocities; both
    are functions of the per-stroke metrics alone, so nothing is
    recomputed from the points.  A session built from zero strokes has
    strokeCount = 0, an empty pause list, totalPathLength = 0 and
    avgVelocity = 0; [buildSession] is total, so it does not error. *)
Theorem buildSession_totals (prompt : string) (canvasWidth canvasHeight : R)
    (performance_now : R) (randomUUID : string) (st : State) :
  let session :=
    buildSession prompt canvasWidth canvasHeight performance_now
                 randomUUID st in
  let lengths :=
    map (fun s => StrokeMetrics.length (Stroke.metrics s)) (strokes st) in
  let velocities :=
    map (fun s => StrokeMetrics.avgVelocity (Stroke.metrics s))
        (strokes st) in
  CaptchaSession.totalPathLength session = Rsum lengths
  /\ (strokes st <> [] ->
      CaptchaSession.avgVelocity session = mean velocities)
  /\ (strokes st = [] ->
      CaptchaSession.strokeCount session = 0%nat
      /\ CaptchaSession.pausesBetweenStrokes session = []
      /\ CaptchaSession.totalPathLength session = 0
      /\ CaptchaSession.avgVelocity session = 0).
Proof.
  cbv zeta. unfold buildSession.
  cbn [CaptchaSession.totalPathLength CaptchaSession.avgVelocity
       CaptchaSession.strokeCount CaptchaSession.pausesBetweenStrokes].
  split; [rewrite fold_left_lengths; lra|]. split.
  - intros Hne. destruct (strokes st) as [|s l]; [congruence|].
    cbn [map List.length Nat.ltb Nat.leb]. unfold mean.
    now rewrite reduce_add_Rsum.
  - intros ->. repeat split.
Qed.

Lemma buildSession_totals_witness :
  strokes initial = []
  /\ CaptchaSession.avgVelocity
       (buildSession "Draw a star" 500 375 180 "session-1" initial) = 0
  /\ strokes Examples.twoStrokes <> []
  /\ CaptchaSession.avgVelocity
       (buildSession "Draw a star" 500 375 180 "session-1"
                     Examples.twoStrokes) =
     mean (map (fun s => StrokeMetrics.avgVelocity (Stroke.metrics s))
               (strokes Examples.twoStrokes)).
Proof.
  split; [reflexivity|]. split.
  - apply (buildSession_totals "Draw a star" 500 375 180 "session-1"
             initial). reflexivity.
  - split; [discriminate|].
    apply (buildSession_totals "Draw a star" 500 375 180 "session-1"
             Examples.twoStrokes). discriminate.
Defined.

(** C8.  Within every session, that is, along every run of callbacks
    other than [startSession] after a call of [startSession], whatever
    the state of the hook before that call (strokes of an earlier
    session, a counter above 0): [startSession] empties the stroke list
    and puts the counter back to 0, and then
    - the identifiers handed out are 0, 1, 2, ... in this order;
    - the identifiers of the session's strokes increase along the list,
      so they are unique, and each is one of those handed out;
    - every stroke of the list has at least 2 points;
    and a gesture finalized with fewer than 2 points changes neither the
    stroke list nor the counter, while one with at least 2 points is
    appended with the counter's value as its identifier. *)
Theorem stroke_identifiers (evs : list Event) (prev : State)
    (t0 wall : R) :
  forallb inSession evs = true ->
  let st0 := startSession t0 wall prev in
  let st := run (StartSession t0 wall :: evs) prev in
  st = run evs st0
  /\ strokes st0 = []
  /\ strokeId st0 = 0%nat
  /\ assignedIds (StartSession t0 wall :: evs) prev = seq 0 (strokeId st)
  /\ StronglySorted lt (map Stroke.id (strokes st))
  /\ NoDup (map Stroke.id (strokes st))
  /\ Forall (fun s => In (Stroke.id s)
                         (assignedIds (StartSession t0 wall :: evs) prev)
                      /\ (2 <= List.length (Stroke.points s))%nat)
            (strokes st)
  /\ (forall st',
         (List.length (currentPoints st') < 2)%nat ->
         strokes (endStroke st') = strokes st'
         /\ strokeId (endStroke st') = strokeId st')
  /\ (forall st',
         (2 <= List.length (currentPoints st'))%nat ->
         exists s,
           strokes (endStroke st') = strokes st' ++ [s]
           /\ Stroke.id s = strokeId st'
           /\ Stroke.points s = currentPoints st'
           /\ strokeId (endStroke st') = S (strokeId st')).
Proof.
  intros Hin st0 st.
  assert (Hrun : st = run evs st0) by reflexivity.
  assert (Hids : assignedIds (StartSession t0 wall :: evs) prev =
                 assignedIds evs st0) by reflexivity.
  rewrite Hids. clearbody st. subst st.
  split; [reflexivity|]. split; [reflexivity|]. split; [reflexivity|].
  assert (Hc : coherent (run evs st0)).
  { apply coherent_run. unfold coherent, st0.
    cbn [startSession strokes]. split; constructor. }
  destruct Hc as [Hsorted Hall].
  destruct (assignedIds_seq evs st0 Hin) as [_ Hseq].
  assert (Hid : strokeId st0 = 0%nat) by reflexivity.
  rewrite Hid, Nat.sub_0_r in Hseq.
  split; [exact Hseq|]. split; [exact Hsorted|].
  split; [now apply StronglySorted_lt_NoDup|].
  split.
  { eapply Forall_impl; [|exact Hall]. intros s [Hlt Hp]. split; [|exact Hp].
    rewrite Hseq. apply in_seq. lia. }
  split.
  { intros st' H. now destruct (endStroke_short st' H) as (? & ? & _). }
  intros st' H.
  destruct (endStroke_kept st' H) as (s & ? & ? & ? & _ & ? & _).
  now exists s.
Qed.

(** A second session, begun while the hook holds the stroke and the
    counter of a first one. *)
Lemma stroke_identifiers_witness :
  forallb inSession Examples.interaction = true
  /\ List.length
       (strokes (run Examples.interaction
                     (startSession 10 1000 initial))) = 1%nat
  /\ strokeId (run Examples.interaction
                   (startSession 10 1000 initial)) = 3%nat
  /\ assignedIds (StartSession 500 2000 :: Examples.interaction)
       (run Examples.interaction (startSession 10 1000 initial))
     = seq 0 3
  /\ NoDup (map Stroke.id
              (strokes (run (StartSession 500 2000 :: Examples.interaction)
                            (run Examples.interaction
                                 (startSession 10 1000 initial))))).
Proof.
  assert (H : forallb inSession Examples.interaction = true)
    by reflexivity.
  split; [exact H|]. split; [reflexivity|]. split; [reflexivity|].
  pose proof (stroke_identifiers Examples.interaction
                (run Examples.interaction (startSession 10 1000 initial))
                500 2000 H) as (_ & _ & _ & Ha & _ & Hn & _).
  split; [exact Ha | exact Hn].
Defined.

End CaptureTheorems.

(** ** scoring.ts: the scoring engine *)

Module MapFacts.
Import Js.

Section WithValues.
Context {V : Type}.
Implicit Types (m : Map V) (k : string) (v : V).

Lemma Map_set_keys_old k v m :
  In k (Map_keys m) -> Map_keys (Map_set k v m) = Map_keys m.
Proof.
  induction m as [|[k0 v0] m IH]; simpl; [tauto|].
  intros Hin. destruct (String.eqb_spec k0 k) as [->|Hne];
    [reflexivity|].
  simpl. f_equal. apply IH. destruct Hin; [contradiction | assumption].
Qed.

Lemma Map_set_keys_new k v m :
  ~ In k (Map_keys m) -> Map_keys (Map_set k v m) = Map_keys m ++ [k].
Proof.
  induction m as [|[k0 v0] m IH]; simpl; [reflexivity|].
  intros Hin. destruct (String.eqb_spec k0 k) as [->|Hne]; [tauto|].
  simpl. f_equal. apply IH. tauto.
Qed.

Lemma Map_get_set k k' v m :
  Map_get k' (Map_set k v m) =
  if String.eqb k k' then Some v else Map_get k' m.
Proof.
  induction m as [|[k0 v0] m IH]; simpl.
  - now destruct (String.eqb k k').
  - destruct (String.eqb_spec k0 k) as [->|Hne]; simpl.
    + now destruct (String.eqb k k').
    + rewrite IH.
      destruct (String.eqb_spec k0 k') as [->|Hne'];
        [|reflexivity].
      destruct (String.eqb_spec k k'); [congruence | reflexivity].
Qed.

Lemma Map_set_values k v m v' :
  In v' (Map_values (Map_set k v m)) -> v' = v \/ In v' (Map_values m).
Proof.
  induction m as [|[k0 v0] m IH]; simpl.
  - intros [<-|[]]. now left.
  - destruct (String.eqb k0 k); simpl.
    + intros [<-|H]; [now left | now right; right].
    + intros [<-|H]; [now right; left|].
      destruct (IH H); [now left | now right; right].
Qed.

Lemma Map_size_values m : Map_size m = List.length (Map_values m).
Proof. unfold Map_size, Map_values. now rewrite length_map. Qed.
End WithValues.

End MapFacts.

Module ScoringFacts.
Import Js Spec Scoring SeriesFacts MapFacts.

(** *** Names *)

Lemma distinctNames_In (l : list string) (n : string) :
  In n (distinctNames l) <-> In n l.
Proof.
  induction l as [|a l IH]; simpl; [tauto|].
  rewrite filter_In, IH.
  destruct (String.eqb_spec n a) as [->|Hne]; [tauto|].
  split; [tauto|]. intros [Ha|Hl]; [now left|]. right. now split.
Qed.

Lemma distinctNames_NoDup (l : list string) : NoDup (distinctNames l).
Proof.
  induction l as [|a l IH]; simpl; constructor.
  - rewrite filter_In. intros [_ H].
    now rewrite String.eqb_refl in H.
  - now apply NoDup_filter.
Qed.

Lemma distinctNames_snoc (l : list string) (n : string) :
  (In n l -> distinctNames (l ++ [n]) = distinctNames l)
  /\ (~ In n l -> distinctNames (l ++ [n]) = distinctNames l ++ [n]).
Proof.
  induction l as [|a l [IHin IHout]]; simpl.
  - split; [tauto | reflexivity].
  - destruct (in_dec string_dec n l) as [Hl|Hl].
    + rewrite (IHin Hl). split; [reflexivity | tauto].
    + rewrite (IHout Hl), filter_app. simpl.
      destruct (String.eqb_spec n a) as [->|Hne]; simpl.
      * rewrite app_nil_r. split; [reflexivity | tauto].
      * split; [intros [?|?]; [congruence | contradiction] | reflexivity].
Qed.

Lemma filter_filter_names (l : list string) (a : string) (seen : list string) :
  filter (fun m => negb (String.eqb m a))
         (filter (fun m => negb (existsb (String.eqb m) seen)) l) =
  filter (fun m => negb (existsb (String.eqb m) (a :: seen))) l.
Proof.
  induction l as [|x l IH]; simpl; [reflexivity|].
  destruct (existsb (String.eqb x) seen); simpl.
  - rewrite orb_true_r. simpl. exact IH.
  - rewrite orb_false_r.
    destruct (String.eqb x a); simpl; [exact IH | now rewrite IH].
Qed.

Lemma distinctNames_app (l1 l2 : list string) :
  distinctNames (l1 ++ l2) =
  distinctNames l1
    ++ filter (fun m => negb (existsb (String.eqb m) l1)) (distinctNames l2).
Proof.
  induction l1 as [|a l1 IH]; simpl.
  - induction (distinctNames l2) as [|x l IHl]; simpl; congruence.
  - rewrite IH, filter_app. f_equal. f_equal.
    apply filter_filter_names.
Qed.

Lemma lastNamed_snoc (n : string) (l : list ScoringAlgorithm.t)
    (a : ScoringAlgorithm.t) :
  lastNamed n (l ++ [a]) =
  if String.eqb (ScoringAlgorithm.name a) n then Some a else lastNamed n l.
Proof. unfold lastNamed. now rewrite rev_unit. Qed.

Lemma lastNamed_last (n : string) (pre post : list ScoringAlgorithm.t)
    (a : ScoringAlgorithm.t) :
  ScoringAlgorithm.name a = n ->
  (forall c, In c post -> ScoringAlgorithm.name c <> n) ->
  lastNamed n (pre ++ a :: post) = Some a.
Proof.
  intros Ha. induction post as [|c post IH] using rev_ind; intros Hpost.
  - rewrite lastNamed_snoc, Ha. now rewrite String.eqb_refl.
  - rewrite app_comm_cons, app_assoc, lastNamed_snoc.
    destruct (String.eqb_spec (ScoringAlgorithm.name c) n) as [Heq|_].
    + exfalso. apply (Hpost c); [apply in_or_app; right; now left | assumption].
    + apply IH. intros c' Hc'. apply Hpost. apply in_or_app. now left.
Qed.

(** *** One run of [evaluate] *)

Lemma evaluate_loop_snoc session algos a :
  evaluate_loop session (algos ++ [a]) = evaluate_body session (evaluate_loop session algos) a.
Proof. unfold evaluate_loop. now rewrite fold_left_app. Qed.

Lemma body_results session ev a :
  results (evaluate_body session ev a) =
  Map_set (ScoringAlgorithm.name a) (outcome session a) (results ev).
Proof.
  unfold evaluate_body, outcome.
  now destruct (ScoringAlgorithm.score a session).
Qed.

Lemma body_calls session ev a :
  calls (evaluate_body session ev a) = calls ev ++ [a].
Proof.
  unfold evaluate_body. now destruct (ScoringAlgorithm.score a session).
Qed.

Lemma body_console session ev a :
  console (evaluate_body session ev a) =
  console ev
    ++ match ScoringAlgorithm.score a session with
       | Normal _ => []
       | Throw e => [(failureMessage (ScoringAlgorithm.name a), e)]
       end.
Proof.
  unfold evaluate_body. destruct (ScoringAlgorithm.score a session); simpl;
    [now rewrite app_nil_r | reflexivity].
Qed.

Lemma evaluate_loop_calls session algos : calls (evaluate_loop session algos) = algos.
Proof.
  induction algos as [|a algos IH] using rev_ind; [reflexivity|].
  now rewrite evaluate_loop_snoc, body_calls, IH.
Qed.

Lemma evaluate_loop_console session algos :
  console (evaluate_loop session algos) =
  flat_map (fun a => match ScoringAlgorithm.score a session with
                     | Normal _ => []
                     | Throw e =>
                         [(failureMessage (ScoringAlgorithm.name a), e)]
                     end) algos.
Proof.
  induction algos as [|a algos IH] using rev_ind; [reflexivity|].
  rewrite evaluate_loop_snoc, body_console, IH, flat_map_app. simpl.
  now rewrite app_nil_r.
Qed.

Lemma evaluate_loop_keys session algos :
  Map_keys (results (evaluate_loop session algos)) =
  distinctNames (map ScoringAlgorithm.name algos).
Proof.
  induction algos as [|a algos IH] using rev_ind; [reflexivity|].
  rewrite evaluate_loop_snoc, body_results, map_app. simpl.
  destruct (distinctNames_snoc (map ScoringAlgorithm.name algos)
              (ScoringAlgorithm.name a)) as [Hin Hout].
  destruct (in_dec string_dec (ScoringAlgorithm.name a)
              (map ScoringAlgorithm.name algos)) as [H|H].
  - rewrite (Hin H), Map_set_keys_old; [exact IH|].
    rewrite IH. now apply distinctNames_In.
  - rewrite (Hout H), Map_set_keys_new; [now rewrite IH|].
    rewrite IH. now rewrite distinctNames_In.
Qed.

Lemma evaluate_loop_get session algos n :
  Map_get n (results (evaluate_loop session algos)) =
  option_map (outcome session) (lastNamed n algos).
Proof.
  induction algos as [|a algos IH] using rev_ind; [reflexivity|].
  rewrite evaluate_loop_snoc, body_results, Map_get_set, lastNamed_snoc, IH.
  now destruct (String.eqb (ScoringAlgorithm.name a) n).
Qed.

Lemma evaluate_loop_values session algos r :
  In r (Map_values (results (evaluate_loop session algos))) ->
  exists a, In a algos /\ r = outcome session a.
Proof.
  induction algos as [|a algos IH] using rev_ind; [intros []|].
  rewrite evaluate_loop_snoc, body_results. intros H.
  apply Map_set_values in H as [->|H].
  - exists a. split; [apply in_or_app; right; now left | reflexivity].
  - destruct (IH H) as (a' & Hin & ->). exists a'.
    split; [apply in_or_app; now left | reflexivity].
Qed.

(** *** The combination loop *)

Lemma combine_body_eligible (r : ScoringResult.t) (totalScore totalWeight : R) :
  combine_body (totalScore, totalWeight) r =
  if Rle_dec 0 (ScoringResult.score r)
  then (totalScore
          + ScoringResult.score r * ScoringResult.confidence r,
        totalWeight + ScoringResult.confidence r)
  else (totalScore, totalWeight).
Proof.
  unfold combine_body.
  destruct (Rge_dec _ _); destruct (Rle_dec _ _); try reflexivity; lra.
Qed.

Lemma combine_loop (rs : list ScoringResult.t) (totalScore totalWeight : R) :
  fold_left combine_body rs (totalScore, totalWeight) =
  (totalScore + weightedScore rs, totalWeight + Spec.totalWeight rs).
Proof.
  revert totalScore totalWeight.
  induction rs as [|r rs IH]; intros ts tw.
  - unfold weightedScore, Spec.totalWeight. simpl. f_equal; lra.
  - cbn [fold_left]. rewrite combine_body_eligible.
    unfold weightedScore, Spec.totalWeight, eligible in *.
    cbn [filter].
    destruct (Rle_dec 0 (ScoringResult.score r)) as [Hle|Hle];
      rewrite IH; cbn [map]; unfold Rsum; cbn [fold_right]; f_equal; lra.
Qed.

Lemma getCombinedScore_cases (this : ScoringEngine)
    (session : CaptchaSession.t) :
  let rs := Map_values (evaluate this session) in
  (0 < totalWeight rs ->
   getCombinedScore this session = weightedScore rs / totalWeight rs)
  /\ (totalWeight rs <= 0 -> getCombinedScore this session = -1).
Proof.
  cbv zeta. unfold getCombinedScore.
  rewrite combine_loop, !Rplus_0_l.
  rewrite Map_size_values.
  destruct (Map_values (evaluate this session)) as [|r rs] eqn:E.
  - simpl. split; [|reflexivity].
    unfold totalWeight. simpl. lra.
  - cbn [List.length Nat.eqb].
    destruct (Rgt_dec _ _) as [H|H]; split; intros; try reflexivity; lra.
Qed.

Lemma eligible_bounds (rs : list ScoringResult.t) :
  Forall inRange rs ->
  0 <= weightedScore rs <= totalWeight rs.
Proof.
  unfold weightedScore, totalWeight, eligible.
  induction 1 as [|r rs Hr _ IH]; simpl; [lra|].
  destruct (Rle_dec 0 (ScoringResult.score r)) as [Hle|Hle]; [|exact IH].
  simpl. destruct Hr as [[Hs|Hs] Hc]; [nra | lra].
Qed.

Lemma failureResult_inRange (e : Thrown) : inRange (failureResult e).
Proof. unfold inRange, failureResult. simpl. split; [right|]; lra. Qed.

End ScoringFacts.

Module ScoringTheorems.
Import Js Spec Scoring SeriesFacts MapFacts ScoringFacts.

(** *** Concrete runs *)

Example sameName_results :
  evaluate Examples.sameName Examples.session =
  [("risk"%string,
    {| ScoringResult.score := 0.8; ScoringResult.confidence := 0.5;
       ScoringResult.signals := []; ScoringResult.details := None |})].
Proof. reflexivity. Qed.

Example twoNames_results :
  evaluate Examples.twoNames Examples.session =
  [("risk"%string,
    {| ScoringResult.score := 0.2; ScoringResult.confidence := 1;
       ScoringResult.signals := []; ScoringResult.details := None |});
   ("pace"%string,
    {| ScoringResult.score := 0.8; ScoringResult.confidence := 0.5;
       ScoringResult.signals := []; ScoringResult.details := None |})].
Proof. reflexivity. Qed.

Example overwritten_results :
  evaluate Examples.overwritten Examples.session =
  [("risk"%string,
    {| ScoringResult.score := 0.2; ScoringResult.confidence := 1;
       ScoringResult.signals := []; ScoringResult.details := None |})].
Proof. reflexivity. Qed.

Example mixed_results :
  evaluate Examples.mixed Examples.session =
  [("risk"%string,
    {| ScoringResult.score := 0.8; ScoringResult.confidence := 0.5;
       ScoringResult.signals := []; ScoringResult.details := None |});
   ("entropy"%string,
    {| ScoringResult.score := -1; ScoringResult.confidence := 0;
       ScoringResult.signals := [];
       ScoringResult.details := Some "Error: boom"%string |})].
Proof. reflexivity. Qed.

(** *** The combined score *)

(** C1, as the code has it.  For every session, [getCombinedScore]
    returns the confidence-weighted mean
    sum(score_i * confidence_i) / sum(confidence_i) over exactly those
    results of [evaluate] whose score is >= 0 whenever the total
    confidence weight of those results is positive, and returns -1 when
    that total weight is 0 (or below) and when no algorithm is
    registered.  With exactly two registered algorithms of different
    names returning (score 0.2, confidence 1.0) and (score 0.8,
    confidence 0.5) the weighted sum is 0.6, the weight 1.5 and the
    mean 0.4 in exact arithmetic; the source computes on binary64
    numbers, where 0.2 + 0.4 rounds up, and returns
    0.4000000000000001, the double next above the one nearest to
    0.4. *)
Theorem getCombinedScore_weighted_mean (this : ScoringEngine)
    (session : CaptchaSession.t) :
  let rs := Map_values (evaluate this session) in
  (0 < totalWeight rs ->
   getCombinedScore this session = weightedScore rs / totalWeight rs)
  /\ (totalWeight rs <= 0 -> getCombinedScore this session = -1)
  /\ (algorithms this = [] -> getCombinedScore this session = -1)
  /\ (forall a1 a2 r1 r2,
         algorithms this = [a1; a2] ->
         ScoringAlgorithm.name a1 <> ScoringAlgorithm.name a2 ->
         ScoringAlgorithm.score a1 session = Normal r1 ->
         ScoringAlgorithm.score a2 session = Normal r2 ->
         ScoringResult.score r1 = 0.2 ->
         ScoringResult.confidence r1 = 1.0 ->
         ScoringResult.score r2 = 0.8 ->
         ScoringResult.confidence r2 = 0.5 ->
         weightedScore rs = 0.6
         /\ totalWeight rs = 1.5
         /\ weightedScore rs / totalWeight rs = 0.4)
  /\ (forall b1 b2 q1 q2,
         Binary64.name b1 <> Binary64.name b2 ->
         Binary64.run b1 session = Normal q1 ->
         Binary64.run b2 session = Normal q2 ->
         Binary64.score q1 = Binary64.d0_2 ->
         Binary64.confidence q1 = Binary64.d1 ->
         Binary64.score q2 = Binary64.d0_8 ->
         Binary64.confidence q2 = Binary64.d0_5 ->
         Binary64.getCombinedScore [b1; b2] session =
           Binary64.d0_4000000000000001
         /\ PrimFloat.eqb Binary64.d0_4000000000000001 Binary64.d0_4
            = false
         /\ PrimFloat.ltb Binary64.d0_4 Binary64.d0_4000000000000001
            = true).
Proof.
  cbv zeta.
  destruct (getCombinedScore_cases this session) as [Hpos Hneg].
  split; [exact Hpos|]. split; [exact Hneg|]. split.
  { intros Hnil. unfold getCombinedScore, evaluate, evaluate_run.
    now rewrite Hnil. }
  split.
  - intros a1 a2 r1 r2 Halgos Hne H1 H2 Hs1 Hc1 Hs2 Hc2.
    assert (Hrs : evaluate this session =
                  [(ScoringAlgorithm.name a1, r1);
                   (ScoringAlgorithm.name a2, r2)]).
    { unfold evaluate, evaluate_run, evaluate_loop. rewrite Halgos.
      cbn [fold_left]. rewrite !body_results. unfold outcome.
      rewrite H1, H2. cbn [results evaluation_init Map_empty Map_set].
      apply String.eqb_neq in Hne. now rewrite Hne. }
    assert (Hw : totalWeight (Map_values (evaluate this session)) = 1.5
                 /\ weightedScore (Map_values (evaluate this session))
                    = 0.6).
    { rewrite Hrs. unfold totalWeight, weightedScore, eligible.
      cbn [Map_values map snd filter]. rewrite Hs1, Hs2.
      destruct (Rle_dec 0 0.2); [|lra]. destruct (Rle_dec 0 0.8); [|lra].
      cbn [map]. unfold Rsum. cbn [fold_right].
      rewrite Hs1, Hs2, Hc1, Hc2. split; lra. }
    destruct Hw as [Hw Hsc]. rewrite Hw, Hsc.
    split; [reflexivity|]. split; [reflexivity|]. lra.
  - intros b1 b2 q1 q2 Hne H1 H2 Hs1 Hc1 Hs2 Hc2.
    split; [|split; reflexivity].
    unfold Binary64.getCombinedScore, Binary64.evaluate.
    cbn [fold_left]. unfold Binary64.evaluate_body.
    rewrite H1, H2. cbn [Map_empty Map_set].
    apply String.eqb_neq in Hne. rewrite Hne.
    cbn [Map_size List.length Nat.eqb Map_values map snd fold_left].
    unfold Binary64.combine_body. rewrite Hs1, Hc1, Hs2, Hc2.
    reflexivity.
Qed.

Lemma getCombinedScore_weighted_mean_witness :
  algorithms Examples.twoNames =
    [Examples.returning "risk" 0.2 1; Examples.returning "pace" 0.8 0.5]
  /\ weightedScore
       (Map_values (evaluate Examples.twoNames Examples.session))
     / totalWeight
         (Map_values (evaluate Examples.twoNames Examples.session))
     = 0.4
  /\ Binary64.getCombinedScore
       [Binary64.returning "risk" Binary64.d0_2 Binary64.d1;
        Binary64.returning "pace" Binary64.d0_8 Binary64.d0_5] Examples.session
     = Binary64.d0_4000000000000001
  /\ algorithms scoringEngine = []
  /\ getCombinedScore scoringEngine Examples.session = -1.
Proof.
  split; [reflexivity|]. split.
  { pose proof (getCombinedScore_weighted_mean Examples.twoNames
                  Examples.session) as (_ & _ & _ & H & _).
    eapply (H (Examples.returning "risk" 0.2 1)
              (Examples.returning "pace" 0.8 0.5));
      [reflexivity | discriminate | reflexivity | reflexivity
      | simpl; lra ..]. }
  split.
  { pose proof (getCombinedScore_weighted_mean Examples.twoNames
                  Examples.session) as (_ & _ & _ & _ & H).
    apply (H (Binary64.returning "risk" Binary64.d0_2 Binary64.d1)
             (Binary64.returning "pace" Binary64.d0_8 Binary64.d0_5)
             _ _ ltac:(discriminate) eq_refl eq_refl
             eq_refl eq_refl eq_refl eq_refl). }
  split; [reflexivity|].
  now apply (getCombinedScore_weighted_mean scoringEngine
               Examples.session).
Defined.

(** C1 as stated fails when the two algorithms share their name: the
    second result replaces the first in the map, and the combined score
    of (0.2, 1.0) and (0.8, 0.5) is 0.8 instead of 0.4. *)
Lemma getCombinedScore_same_name :
  algorithms Examples.sameName =
    [Examples.returning "risk" 0.2 1; Examples.returning "risk" 0.8 0.5]
  /\ getCombinedScore Examples.sameName Examples.session = 0.8
  /\ getCombinedScore Examples.sameName Examples.session <> 0.4.
Proof.
  split; [reflexivity|].
  assert (H : getCombinedScore Examples.sameName Examples.session = 0.8).
  { destruct (getCombinedScore_cases Examples.sameName Examples.session)
      as [Hpos _].
    rewrite sameName_results in Hpos.
    unfold totalWeight, weightedScore, eligible in Hpos.
    cbn [Map_values map snd filter ScoringResult.score] in Hpos.
    destruct (Rle_dec 0 0.8); [|lra].
    cbn [map ScoringResult.score ScoringResult.confidence] in Hpos.
    unfold Rsum in Hpos. cbn [fold_right] in Hpos.
    rewrite Hpos by lra. lra. }
  split; [exact H | rewrite H; lra].
Qed.

(** C9.  For every session, if every registered algorithm returns a
    score in [0,1] or the sentinel -1 and a confidence in [0,1] (an
    algorithm may also throw), [getCombinedScore] returns -1 or a value
    in [0,1]. *)
Theorem getCombinedScore_range (this : ScoringEngine)
    (session : CaptchaSession.t) :
  (forall a r,
      In a (algorithms this) ->
      ScoringAlgorithm.score a session = Normal r ->
      (0 <= ScoringResult.score r <= 1 \/ ScoringResult.score r = -1)
      /\ 0 <= ScoringResult.confidence r <= 1) ->
  getCombinedScore this session = -1
  \/ 0 <= getCombinedScore this session <= 1.
Proof.
  intros Hrange.
  assert (Hall : Forall inRange (Map_values (evaluate this session))).
  { apply Forall_forall. intros r Hr.
    apply evaluate_loop_values in Hr as (a & Hin & ->).
    unfold outcome.
    destruct (ScoringAlgorithm.score a session) as [r|e] eqn:E.
    - exact (Hrange a r Hin E).
    - apply failureResult_inRange. }
  apply eligible_bounds in Hall.
  destruct (getCombinedScore_cases this session) as [Hpos Hneg].
  destruct (Rlt_le_dec 0 (totalWeight (Map_values (evaluate this session))))
    as [Hw|Hw].
  - right. rewrite (Hpos Hw). split.
    + apply Rmult_le_pos; [lra|]. left. now apply Rinv_0_lt_compat.
    + apply Rmult_le_reg_r with (1 := Hw).
      unfold Rdiv. rewrite Rmult_assoc, Rinv_l by lra. lra.
  - left. exact (Hneg Hw).
Qed.

Lemma getCombinedScore_range_witness :
  getCombinedScore Examples.mixed Examples.session = -1
  \/ 0 <= getCombinedScore Examples.mixed Examples.session <= 1.
Proof.
  apply (getCombinedScore_range Examples.mixed Examples.session).
  intros a r [<-|[<-|[<-|[]]]] H; simpl in H;
    try discriminate; inversion H; subst; simpl; lra.
Defined.

(** *** Failure isolation *)

Lemma evaluate_keys (this : ScoringEngine) (session : CaptchaSession.t) :
  Map_keys (evaluate this session) =
  distinctNames (map ScoringAlgorithm.name (algorithms this)).
Proof. apply evaluate_loop_keys. Qed.

Lemma evaluate_last (this : ScoringEngine) (session : CaptchaSession.t)
    (pre post : list ScoringAlgorithm.t) (a : ScoringAlgorithm.t) :
  algorithms this = pre ++ a :: post ->
  (forall c, In c post ->
             ScoringAlgorithm.name c <> ScoringAlgorithm.name a) ->
  Map_get (ScoringAlgorithm.name a) (evaluate this session) =
  Some (outcome session a).
Proof.
  intros Halgos Hpost. unfold evaluate, evaluate_run.
  rewrite evaluate_loop_get, Halgos.
  now rewrite (lastNamed_last _ pre post a eq_refl Hpost).
Qed.

(** C2, as the code has it.  For every session and every list of
    registered algorithms, [evaluate] calls the score function of every
    registered algorithm, in registration order, whether or not some of
    them throw, and returns a map with exactly one entry per registered
    algorithm name.  When an algorithm throws and no algorithm registered
    after it has its name, the entry under its name is the synthetic
    result: score -1, confidence 0, no signals, and the details
    "Error: " followed by the message of the error that was thrown
    ("Error: Unknown" when the thrown value is not an Error); the failure
    is written to the console.  In general the entry under a name holds
    the outcome of the algorithm registered last under it.  With one
    registered algorithm, which throws, the map is that single entry.
    [evaluate] returns a map in all cases: no thrown value reaches its
    caller. *)
Theorem evaluate_isolates_failures (this : ScoringEngine)
    (session : CaptchaSession.t) :
  calls (evaluate_run this session) = algorithms this
  /\ Map_keys (evaluate this session) =
     distinctNames (map ScoringAlgorithm.name (algorithms this))
  /\ NoDup (Map_keys (evaluate this session))
  /\ (forall n,
         In n (Map_keys (evaluate this session)) <->
         exists a, In a (algorithms this) /\ ScoringAlgorithm.name a = n)
  /\ (forall n,
         Map_get n (evaluate this session) =
         option_map (outcome session) (lastNamed n (algorithms this)))
  /\ (forall pre a post e,
         algorithms this = pre ++ a :: post ->
         ScoringAlgorithm.score a session = Throw e ->
         (forall c, In c post ->
                    ScoringAlgorithm.name c <> ScoringAlgorithm.name a) ->
         Map_get (ScoringAlgorithm.name a) (evaluate this session) =
         Some {| ScoringResult.score := -1;
                 ScoringResult.confidence := 0;
                 ScoringResult.signals := [];
                 ScoringResult.details :=
                   Some ("Error: " ++ match e with
                                      | ErrorObject message => message
                                      | OtherValue => "Unknown"
                                      end)%string |}
         /\ In (failureMessage (ScoringAlgorithm.name a), e)
               (console (evaluate_run this session)))
  /\ (forall a e,
         algorithms this = [a] ->
         ScoringAlgorithm.score a session = Throw e ->
         evaluate this session =
         [(ScoringAlgorithm.name a, failureResult e)]).
Proof.
  split; [apply evaluate_loop_calls|].
  split; [apply evaluate_keys|].
  split; [rewrite evaluate_keys; apply distinctNames_NoDup|].
  split.
  { intros n. rewrite evaluate_keys, distinctNames_In, in_map_iff.
    split; intros (a & H1 & H2); exists a; tauto. }
  split; [intros n; apply evaluate_loop_get|].
  split.
  - intros pre a post e Halgos Hthrow Hpost. split.
    + rewrite (evaluate_last this session pre post a Halgos Hpost).
      unfold outcome. now rewrite Hthrow.
    + unfold evaluate_run. rewrite evaluate_loop_console, Halgos.
      apply in_flat_map. exists a.
      split; [apply in_or_app; right; now left|].
      rewrite Hthrow. now left.
  - intros a e Halgos Hthrow.
    unfold evaluate, evaluate_run, evaluate_loop. rewrite Halgos.
    cbn [fold_left]. rewrite body_results. unfold outcome.
    now rewrite Hthrow.
Qed.

Lemma evaluate_isolates_failures_witness :
  algorithms Examples.mixed =
    [Examples.returning "risk" 0.2 1]
      ++ Examples.throwing "entropy" "boom"
      :: [Examples.returning "risk" 0.8 0.5]
  /\ Map_get "entropy" (evaluate Examples.mixed Examples.session) =
     Some {| ScoringResult.score := -1;
             ScoringResult.confidence := 0;
             ScoringResult.signals := [];
             ScoringResult.details := Some "Error: boom"%string |}.
Proof.
  split; [reflexivity|].
  pose proof (evaluate_isolates_failures Examples.mixed Examples.session)
    as (_ & _ & _ & _ & _ & H & _).
  apply (H [Examples.returning "risk" 0.2 1]
           (Examples.throwing "entropy" "boom")
           [Examples.returning "risk" 0.8 0.5]
           (ErrorObject "boom") eq_refl eq_refl).
  intros c [<-|[]]. discriminate.
Defined.

(** C2 as stated fails when an algorithm registered after the throwing
    one has its name: the entry under that name then holds the later
    algorithm's result, here score 0.2 and confidence 1, not the
    synthetic one. *)
Lemma evaluate_failure_overwritten :
  algorithms Examples.overwritten =
    [Examples.throwing "risk" "boom"; Examples.returning "risk" 0.2 1]
  /\ ScoringAlgorithm.score (Examples.throwing "risk" "boom")
       Examples.session = Throw (ErrorObject "boom")
  /\ Map_get "risk" (evaluate Examples.overwritten Examples.session) =
     Some {| ScoringResult.score := 0.2;
             ScoringResult.confidence := 1;
             ScoringResult.signals := [];
             ScoringResult.details := None |}
  /\ Map_get "risk" (evaluate Examples.overwritten Examples.session) <>
     Some (failureResult (ErrorObject "boom")).
Proof.
  split; [reflexivity|]. split; [reflexivity|]. split; [reflexivity|].
  rewrite overwritten_results. cbn [Map_get String.eqb Ascii.eqb Bool.eqb].
  intros H. inversion H.
Qed.

(** *** Algorithms that share a name *)

(** C10.  [evaluate] calls the score function of every registered
    algorithm, and its map has one entry per name, placed where the name
    was first registered and holding the outcome of the algorithm
    registered last under that name.  So when two algorithms [a] and [b]
    of one name are registered, [a] first under that name and [b] last,
    both are called, the map has a single entry under the name, that
    entry holds the outcome of [b], and it comes right after the keys of
    the algorithms registered before [a]. *)
Theorem evaluate_same_name (this : ScoringEngine)
    (session : CaptchaSession.t) :
  calls (evaluate_run this session) = algorithms this
  /\ Map_keys (evaluate this session) =
     distinctNames (map ScoringAlgorithm.name (algorithms this))
  /\ (forall n,
         Map_get n (evaluate this session) =
         option_map (outcome session) (lastNamed n (algorithms this)))
  /\ (forall pre a mid b post,
         algorithms this = pre ++ a :: mid ++ b :: post ->
         ScoringAlgorithm.name a = ScoringAlgorithm.name b ->
         (forall c, In c pre ->
                    ScoringAlgorithm.name c <> ScoringAlgorithm.name a) ->
         (forall c, In c post ->
                    ScoringAlgorithm.name c <> ScoringAlgorithm.name a) ->
         In a (calls (evaluate_run this session))
         /\ In b (calls (evaluate_run this session))
         /\ Map_get (ScoringAlgorithm.name a) (evaluate this session) =
            Some (outcome session b)
         /\ exists later,
             Map_keys (evaluate this session) =
             Map_keys (evaluate {| algorithms := pre |} session)
               ++ ScoringAlgorithm.name a :: later
             /\ ~ In (ScoringAlgorithm.name a)
                     (Map_keys (evaluate {| algorithms := pre |} session))
             /\ ~ In (ScoringAlgorithm.name a) later).
Proof.
  split; [apply evaluate_loop_calls|].
  split; [apply evaluate_keys|].
  split; [intros n; apply evaluate_loop_get|].
  intros pre a mid b post Halgos Hname Hpre Hpost.
  assert (Hcalls : calls (evaluate_run this session) = algorithms this)
    by apply evaluate_loop_calls.
  rewrite Hcalls, Halgos.
  split; [apply in_or_app; right; now left|].
  split; [apply in_or_app; right; right; apply in_or_app; right; now left|].
  split.
  { rewrite Hname.
    apply (evaluate_last this session (pre ++ a :: mid) post b).
    - rewrite Halgos. now rewrite <- app_assoc.
    - intros c Hc. rewrite <- Hname. now apply Hpost. }
  assert (Hfresh : ~ In (ScoringAlgorithm.name a)
                     (map ScoringAlgorithm.name pre)).
  { rewrite in_map_iff. intros (c & Hc & Hin). exact (Hpre c Hin Hc). }
  pose proof (distinctNames_NoDup
                (map ScoringAlgorithm.name (algorithms this))) as Hnd.
  rewrite !evaluate_keys. cbn [algorithms].
  rewrite Halgos, map_app, distinctNames_app in Hnd |- *.
  cbn [map distinctNames filter] in Hnd |- *.
  assert (Hex : existsb (String.eqb (ScoringAlgorithm.name a))
                  (map ScoringAlgorithm.name pre) = false).
  { apply not_true_is_false. intros Hex.
    apply existsb_exists in Hex as (n & Hn & Heq).
    apply String.eqb_eq in Heq. now subst. }
  rewrite Hex in Hnd |- *. cbn [negb] in Hnd |- *.
  eexists. split; [reflexivity|].
  split; [now rewrite distinctNames_In|].
  apply NoDup_remove_2 in Hnd. intros Hin. apply Hnd.
  apply in_or_app. now right.
Qed.

Lemma evaluate_same_name_witness :
  algorithms Examples.mixed =
    [] ++ Examples.returning "risk" 0.2 1
       :: [Examples.throwing "entropy" "boom"]
       ++ Examples.returning "risk" 0.8 0.5 :: []
  /\ Map_get "risk" (evaluate Examples.mixed Examples.session) =
     Some (outcome Examples.session (Examples.returning "risk" 0.8 0.5)).
Proof.
  split; [reflexivity|].
  pose proof (evaluate_same_name Examples.mixed Examples.session)
    as (_ & _ & _ & H).
  apply (H [] (Examples.returning "risk" 0.2 1)
           [Examples.throwing "entropy" "boom"]
           (Examples.returning "risk" 0.8 0.5) [] eq_refl eq_refl);
    intros c [].
Defined.

End ScoringTheorems.

(** ** Concrete runs of the definitions *)

Module Checks.
Import Js Spec SeriesFacts MetricsFacts MetricsTheorems.

Ltac decide_order :=
  repeat match goal with
         | |- context [Rlt_dec ?a ?b] => destruct (Rlt_dec a b); try lra
         | |- context [Rle_dec ?a ?b] => destruct (Rle_dec a b); try lra
         | |- context [Rgt_dec ?a ?b] => destruct (Rgt_dec a b); try lra
         end.

Lemma sqrt_of_square (v w : R) : 0 <= w -> v = w * w -> sqrt v = w.
Proof. intros Hw ->. now apply sqrt_square. Qed.

(** The stroke [stutter] has three segments; the middle one has [dt = 0]
    and enters the length only. *)
Example stutter_series :
  velocitySeries Examples.stutter = [1; 0]
  /\ accelerationSeries Examples.stutter = [1 / 4]
  /\ map segDistance (segments Examples.stutter) = [5; 5; 0].
Proof.
  assert (Ht : timedSegments Examples.stutter =
               [(CapturePoint.mk 0 0 0 (1 / 2) mouse,
                 CapturePoint.mk 3 4 5 (1 / 2) mouse);
                (CapturePoint.mk 6 8 5 (1 / 2) mouse,
                 CapturePoint.mk 6 8 9 (1 / 2) mouse)]).
  { unfold timedSegments, Examples.stutter. cbn [segments filter].
    unfold positiveDt, segDt. cbn [fst snd CapturePoint.timestamp].
    decide_order. reflexivity. }
  assert (Hd1 : forall pr pr' ty ty',
             segDistance (CapturePoint.mk 0 0 0 pr ty,
                          CapturePoint.mk 3 4 5 pr' ty') = 5).
  { intros. unfold segDistance. cbn. apply sqrt_of_square; lra. }
  assert (Hd2 : segDistance (CapturePoint.mk 3 4 5 (1 / 2) mouse,
                             CapturePoint.mk 6 8 5 (1 / 2) mouse) = 5).
  { unfold segDistance. cbn. apply sqrt_of_square; lra. }
  assert (Hd3 : segDistance (CapturePoint.mk 6 8 5 (1 / 2) mouse,
                             CapturePoint.mk 6 8 9 (1 / 2) mouse) = 0).
  { unfold segDistance. cbn. apply sqrt_of_square; lra. }
  unfold velocitySeries, accelerationSeries. rewrite Ht.
  cbn [map accelerationsOf]. unfold segVelocity. rewrite Hd1, Hd3.
  unfold Examples.stutter. cbn [segments map]. rewrite Hd1, Hd2, Hd3.
  unfold segDt. cbn [fst snd CapturePoint.timestamp].
  split; [|split].
  - f_equal; [lra|]. f_equal. lra.
  - f_equal. replace (0 / (9 - 5) - 5 / (5 - 0)) with (- (1)) by lra.
    rewrite Rabs_Ropp, Rabs_R1. lra.
  - reflexivity.
Qed.

Example stutter_metrics :
  let m := Metrics.computeStrokeMetrics Examples.stutter in
  StrokeMetrics.length m = 10
  /\ StrokeMetrics.duration m = 9
  /\ StrokeMetrics.avgVelocity m = 1 / 2
  /\ StrokeMetrics.maxVelocity m = 1
  /\ StrokeMetrics.avgAcceleration m = 1 / 4
  /\ StrokeMetrics.maxAcceleration m = 1 / 4.
Proof.
  cbv zeta. unfold Examples.stutter.
  rewrite computeStrokeMetrics_fields. cbv zeta.
  cbn [StrokeMetrics.length StrokeMetrics.duration
       StrokeMetrics.avgVelocity StrokeMetrics.maxVelocity
       StrokeMetrics.avgAcceleration StrokeMetrics.maxAcceleration].
  fold Examples.stutter.
  destruct (runLoop_series Examples.stutter) as [Hv Ha].
  destruct stutter_series as (Hvs & Has & Hds).
  rewrite Hv, Ha, Hvs, Has, runLoop_totalLength, Hds.
  unfold Metrics.average, Metrics.maximum, Math_max, reduce_add, Rsum.
  cbn [fold_left fold_right List.length INR last Examples.stutter
       CapturePoint.timestamp].
  repeat split; try lra.
  unfold Rmax. decide_order.
Qed.

(** The drawing [interaction]: three identifiers are handed out, and the
    clear and the undo leave the stroke with identifier 1 alone. *)
Example interaction_ids :
  let st0 := StrokeCapture.startSession 10 1000 StrokeCapture.initial in
  StrokeCapture.assignedIds Examples.interaction st0 = [0; 1; 2]%nat
  /\ map Stroke.id
         (StrokeCapture.strokes
            (StrokeCapture.run Examples.interaction st0)) = [1%nat]
  /\ StrokeCapture.strokeId (StrokeCapture.run Examples.interaction st0)
     = 3%nat.
Proof. repeat split. Qed.

End Checks.

Module Binary64Checks.
Import PrimFloat.

(** The literals the doubles of [Binary64] stand for: 0.2, 0.4 and 0.8
    round to [d0_2], [d0_4] and [d0_8], and [d0_4000000000000001] is the
    successor of [d0_4].  The sum 0.2 * 1 + 0.8 * 0.5 rounds up to the
    successor of the double nearest to 0.6. *)
Example binary64_literals :
  Binary64.d0_2 = div 2 10
  /\ Binary64.d0_4 = div 4 10
  /\ Binary64.d0_8 = div 8 10
  /\ Binary64.d0_4000000000000001 = next_up Binary64.d0_4
  /\ add (mul Binary64.d0_2 Binary64.d1) (mul Binary64.d0_8 Binary64.d0_5)
     = next_up (div 6 10).
Proof. repeat split. Qed.

End Binary64Checks.

(** * Further properties *)

(** ** scoring.ts: the registry *)

Module RegistryFacts.
Import Js Spec Scoring SeriesFacts MapFacts ScoringFacts.

Lemma filter_comm {A : Type} (p q : A -> bool) (l : list A) :
  filter p (filter q l) = filter q (filter p l).
Proof.
  induction l as [|a l IH]; simpl; [reflexivity|].
  destruct (p a) eqn:Hp; destruct (q a) eqn:Hq; simpl;
    rewrite ?Hp, ?Hq, IH; reflexivity.
Qed.

Lemma filter_idem {A : Type} (p : A -> bool) (l : list A) :
  filter p (filter p l) = filter p l.
Proof.
  induction l as [|a l IH]; simpl; [reflexivity|].
  destruct (p a) eqn:Hp; simpl; rewrite ?Hp, IH; reflexivity.
Qed.

Lemma find_filter_kept {A : Type} (p q : A -> bool) (l : list A) :
  (forall a, q a = true -> p a = true) ->
  find q (filter p l) = find q l.
Proof.
  intros Himp. induction l as [|a l IH]; simpl; [reflexivity|].
  destruct (p a) eqn:Hp; simpl.
  - now rewrite IH.
  - destruct (q a) eqn:Hq; [|exact IH].
    rewrite (Himp a Hq) in Hp. discriminate.
Qed.

Lemma find_filter_dropped {A : Type} (p q : A -> bool) (l : list A) :
  (forall a, q a = true -> p a = false) ->
  find q (filter p l) = None.
Proof.
  intros Himp. induction l as [|a l IH]; simpl; [reflexivity|].
  destruct (p a) eqn:Hp; simpl; [|exact IH].
  destruct (q a) eqn:Hq; [|exact IH].
  rewrite (Himp a Hq) in Hp. discriminate.
Qed.

Lemma unregister_names (name : string) (algos : list ScoringAlgorithm.t) :
  map ScoringAlgorithm.name
      (filter (fun a => negb (String.eqb (ScoringAlgorithm.name a) name))
              algos) =
  filter (fun m => negb (String.eqb m name))
         (map ScoringAlgorithm.name algos).
Proof.
  induction algos as [|a algos IH]; simpl; [reflexivity|].
  destruct (String.eqb (ScoringAlgorithm.name a) name); simpl;
    now rewrite IH.
Qed.

Lemma distinctNames_filter (n : string) (l : list string) :
  distinctNames (filter (fun m => negb (String.eqb m n)) l) =
  filter (fun m => negb (String.eqb m n)) (distinctNames l).
Proof.
  induction l as [|a l IH]; simpl; [reflexivity|].
  destruct (String.eqb a n) eqn:E; simpl.
  - rewrite IH. apply String.eqb_eq in E. subst a.
    now rewrite filter_idem.
  - rewrite IH. f_equal. apply filter_comm.
Qed.

Lemma lastNamed_unregister_other (name n : string)
    (algos : list ScoringAlgorithm.t) :
  n <> name ->
  lastNamed n
    (filter (fun a => negb (String.eqb (ScoringAlgorithm.name a) name))
            algos) =
  lastNamed n algos.
Proof.
  intros Hne. unfold lastNamed. rewrite <- filter_rev.
  apply find_filter_kept. intros a Ha. apply String.eqb_eq in Ha.
  rewrite Ha. apply String.eqb_neq in Hne. now rewrite Hne.
Qed.

Lemma lastNamed_unregister_same (name : string)
    (algos : list ScoringAlgorithm.t) :
  lastNamed name
    (filter (fun a => negb (String.eqb (ScoringAlgorithm.name a) name))
            algos) = None.
Proof.
  unfold lastNamed. rewrite <- filter_rev.
  apply find_filter_dropped. intros a Ha. now rewrite Ha.
Qed.

Lemma Map_set_fresh {V : Type} (k : string) (v : V) (m : Map V) :
  ~ In k (Map_keys m) -> Map_set k v m = m ++ [(k, v)].
Proof.
  induction m as [|[k0 v0] m IH]; simpl; [reflexivity|].
  intros Hin. destruct (String.eqb_spec k0 k) as [->|Hne]; [tauto|].
  f_equal. apply IH. tauto.
Qed.

Lemma evaluate_register (a : ScoringAlgorithm.t) (this : ScoringEngine)
    (session : CaptchaSession.t) :
  evaluate (register a this) session =
  Map_set (ScoringAlgorithm.name a) (outcome session a)
          (evaluate this session).
Proof.
  unfold evaluate, evaluate_run, register. cbn [algorithms].
  now rewrite evaluate_loop_snoc, body_results.
Qed.

Lemma Rsum_app (l1 l2 : list R) : Rsum (l1 ++ l2) = Rsum l1 + Rsum l2.
Proof.
  induction l1 as [|v l1 IH]; simpl; [lra|].
  unfold Rsum in *. simpl. rewrite IH. lra.
Qed.

Lemma sums_snoc (rs : list ScoringResult.t) (r : ScoringResult.t) :
  weightedScore (rs ++ [r]) =
    weightedScore rs
    + (if Rle_dec 0 (ScoringResult.score r)
       then ScoringResult.score r * ScoringResult.confidence r else 0)
  /\ totalWeight (rs ++ [r]) =
    totalWeight rs
    + (if Rle_dec 0 (ScoringResult.score r)
       then ScoringResult.confidence r else 0).
Proof.
  unfold weightedScore, totalWeight, eligible.
  rewrite filter_app. cbn [filter].
  destruct (Rle_dec 0 (ScoringResult.score r));
    rewrite !map_app, !Rsum_app; simpl; split; lra.
Qed.

Lemma evaluate_outcomes (this : ScoringEngine) (session : CaptchaSession.t)
    (P : ScoringResult.t -> Prop) :
  (forall a, In a (algorithms this) -> P (outcome session a)) ->
  forall r, In r (Map_values (evaluate this session)) -> P r.
Proof.
  intros H r Hr.
  apply evaluate_loop_values in Hr as (a & Hin & ->). now apply H.
Qed.

End RegistryFacts.

Module RegistryTheorems.
Import Js Spec Scoring SeriesFacts MapFacts ScoringFacts RegistryFacts.

(** X1.  After [unregister name], [evaluate] has no entry under [name],
    every other name keeps its entry and its place, and the registered
    algorithms are the former ones of another name. *)
Theorem unregister_evaluate (name : string) (this : ScoringEngine)
    (session : CaptchaSession.t) :
  Map_get name (evaluate (unregister name this) session) = None
  /\ (forall n, n <> name ->
                Map_get n (evaluate (unregister name this) session) =
                Map_get n (evaluate this session))
  /\ Map_keys (evaluate (unregister name this) session) =
     filter (fun m => negb (String.eqb m name))
            (Map_keys (evaluate this session))
  /\ (forall a, In a (algorithms (unregister name this)) <->
                In a (algorithms this) /\ ScoringAlgorithm.name a <> name).
Proof.
  unfold evaluate, evaluate_run, unregister. cbn [algorithms].
  split; [|split; [|split]].
  - now rewrite evaluate_loop_get, lastNamed_unregister_same.
  - intros n Hne.
    now rewrite !evaluate_loop_get, lastNamed_unregister_other.
  - now rewrite !evaluate_loop_keys, unregister_names, distinctNames_filter.
  - intros a. rewrite filter_In, negb_true_iff, String.eqb_neq. tauto.
Qed.

(** X2.  [unregister] of a name that no registered algorithm has changes
    nothing, [unregister] twice is [unregister] once, and [unregister]
    undoes a [register] under a name that was not registered before. *)
Theorem unregister_round_trip (name : string) (this : ScoringEngine) :
  unregister name (unregister name this) = unregister name this
  /\ ((forall a, In a (algorithms this) ->
                 ScoringAlgorithm.name a <> name) ->
      unregister name this = this)
  /\ (forall a, ScoringAlgorithm.name a = name ->
                unregister name (register a this) = unregister name this)
  /\ (forall a, ScoringAlgorithm.name a = name ->
                (forall b, In b (algorithms this) ->
                           ScoringAlgorithm.name b <> name) ->
                unregister name (register a this) = this).
Proof.
  assert (Hfresh : (forall a, In a (algorithms this) ->
                              ScoringAlgorithm.name a <> name) ->
                   unregister name this = this).
  { intros H. destruct this as [algos]. unfold unregister.
    cbn [algorithms] in *. f_equal.
    apply forallb_filter_id, forallb_forall. intros a Ha.
    apply negb_true_iff, String.eqb_neq. now apply H. }
  assert (Hreg : forall a, ScoringAlgorithm.name a = name ->
                   unregister name (register a this) =
                   unregister name this).
  { intros a Ha. unfold unregister, register. cbn [algorithms].
    rewrite filter_app. cbn [filter].
    rewrite Ha, String.eqb_refl. cbn [negb]. now rewrite app_nil_r. }
  split; [|split; [exact Hfresh|split; [exact Hreg|]]].
  - unfold unregister. cbn [algorithms]. now rewrite filter_idem.
  - intros a Ha Hb. rewrite (Hreg a Ha). now apply Hfresh.
Qed.

Lemma unregister_round_trip_witness :
  unregister "pace" Examples.sameName = Examples.sameName
  /\ unregister "pace" Examples.twoNames =
     register (Examples.returning "risk" 0.2 1) newEngine.
Proof.
  split.
  - pose proof (unregister_round_trip "pace" Examples.sameName)
      as (_ & H & _).
    apply H. intros a [<-|[<-|[]]]; discriminate.
  - pose proof (unregister_round_trip "pace"
                  (register (Examples.returning "risk" 0.2 1) newEngine))
      as (_ & _ & _ & H).
    apply (H (Examples.returning "pace" 0.8 0.5)); [reflexivity|].
    intros b [<-|[]]. discriminate.
Defined.

(** X3.  Registering an algorithm changes the result of [evaluate] at
    its name only: the entry under its name becomes its outcome, every
    other entry is as before, a new name goes to the end of the map and a
    known name keeps its place; the algorithm is called last. *)
Theorem register_evaluate (a : ScoringAlgorithm.t) (this : ScoringEngine)
    (session : CaptchaSession.t) :
  Map_get (ScoringAlgorithm.name a) (evaluate (register a this) session) =
    Some (outcome session a)
  /\ (forall n, n <> ScoringAlgorithm.name a ->
                Map_get n (evaluate (register a this) session) =
                Map_get n (evaluate this session))
  /\ (In (ScoringAlgorithm.name a) (Map_keys (evaluate this session)) ->
      Map_keys (evaluate (register a this) session) =
      Map_keys (evaluate this session))
  /\ (~ In (ScoringAlgorithm.name a) (Map_keys (evaluate this session)) ->
      evaluate (register a this) session =
      evaluate this session
        ++ [(ScoringAlgorithm.name a, outcome session a)])
  /\ calls (evaluate_run (register a this) session) =
     calls (evaluate_run this session) ++ [a].
Proof.
  rewrite evaluate_register.
  split; [|split; [|split; [|split]]].
  - now rewrite Map_get_set, String.eqb_refl.
  - intros n Hne. rewrite Map_get_set.
    destruct (String.eqb_spec (ScoringAlgorithm.name a) n);
      [congruence | reflexivity].
  - apply Map_set_keys_old.
  - apply Map_set_fresh.
  - unfold evaluate_run, register. cbn [algorithms].
    now rewrite !evaluate_loop_calls.
Qed.

(** X4.  [evaluate] writes one [console.error] line per algorithm that
    throws, in registration order, with the algorithm's name and the
    thrown value, also for an algorithm whose entry a later one of the
    same name replaces; it writes nothing exactly when no algorithm
    throws. *)
Theorem evaluate_console (this : ScoringEngine)
    (session : CaptchaSession.t) :
  console (evaluate_run this session) =
    flat_map (fun a => match ScoringAlgorithm.score a session with
                       | Normal _ => []
                       | Throw e =>
                           [(failureMessage (ScoringAlgorithm.name a), e)]
                       end) (algorithms this)
  /\ (console (evaluate_run this session) = [] <->
      forall a, In a (algorithms this) ->
                exists r, ScoringAlgorithm.score a session = Normal r)
  /\ (forall a e,
         In a (algorithms this) ->
         ScoringAlgorithm.score a session = Throw e ->
         In (failureMessage (ScoringAlgorithm.name a), e)
            (console (evaluate_run this session))).
Proof.
  unfold evaluate_run. rewrite evaluate_loop_console.
  split; [reflexivity|]. split.
  - induction (algorithms this) as [|a algos IH]; simpl.
    + split; [intros _ a [] | reflexivity].
    + destruct (ScoringAlgorithm.score a session) as [r|e] eqn:E; simpl.
      * rewrite IH. split.
        -- intros H b [<-|Hb]; [now exists r | now apply H].
        -- intros H b Hb. apply H. now right.
      * split; [discriminate|]. intros H.
        destruct (H a (or_introl eq_refl)) as [r Hr]. congruence.
  - intros a e Hin Hthrow. apply in_flat_map. exists a.
    split; [exact Hin|]. rewrite Hthrow. now left.
Qed.

Lemma evaluate_console_witness :
  In (Examples.throwing "risk" "boom") (algorithms Examples.overwritten)
  /\ In (failureMessage "risk", ErrorObject "boom")
        (console (evaluate_run Examples.overwritten Examples.session)).
Proof.
  assert (H : In (Examples.throwing "risk" "boom")
                 (algorithms Examples.overwritten)) by (now left).
  split; [exact H|].
  pose proof (evaluate_console Examples.overwritten Examples.session)
    as (_ & _ & Hc).
  now apply (Hc (Examples.throwing "risk" "boom") (ErrorObject "boom")).
Defined.

(** X6.  Registering, under a name not yet registered, an algorithm that
    throws, or that returns a negative score or a confidence of 0, leaves
    [getCombinedScore] as it was. *)
Theorem getCombinedScore_silent (a : ScoringAlgorithm.t)
    (this : ScoringEngine) (session : CaptchaSession.t) :
  (forall b, In b (algorithms this) ->
             ScoringAlgorithm.name b <> ScoringAlgorithm.name a) ->
  (forall r, ScoringAlgorithm.score a session = Normal r ->
             ScoringResult.score r < 0
             \/ ScoringResult.confidence r = 0) ->
  getCombinedScore (register a this) session =
  getCombinedScore this session.
Proof.
  intros Hfresh Hsilent.
  assert (Hout : ScoringResult.score (outcome session a) < 0
                 \/ ScoringResult.confidence (outcome session a) = 0).
  { unfold outcome.
    destruct (ScoringAlgorithm.score a session) as [r|e] eqn:E.
    - now apply Hsilent.
    - left. simpl. lra. }
  assert (Hnew : ~ In (ScoringAlgorithm.name a)
                      (Map_keys (evaluate this session))).
  { unfold evaluate, evaluate_run.
    rewrite evaluate_loop_keys, distinctNames_In, in_map_iff.
    intros (b & Hb & Hin). exact (Hfresh b Hin Hb). }
  destruct (getCombinedScore_cases (register a this) session)
    as [Hpos' Hneg'].
  destruct (getCombinedScore_cases this session) as [Hpos Hneg].
  rewrite evaluate_register, (Map_set_fresh _ _ _ Hnew) in Hpos', Hneg'.
  unfold Map_values in Hpos', Hneg'. rewrite map_app in Hpos', Hneg'.
  cbn [map snd] in Hpos', Hneg'.
  fold (Map_values (evaluate this session)) in Hpos', Hneg'.
  destruct (sums_snoc (Map_values (evaluate this session))
              (outcome session a)) as [Hs Hw].
  assert (Hs0 : weightedScore
                  (Map_values (evaluate this session)
                     ++ [outcome session a]) =
                weightedScore (Map_values (evaluate this session))).
  { rewrite Hs.
    destruct (Rle_dec 0 (ScoringResult.score (outcome session a)));
      [|lra]. destruct Hout as [Hout|Hout]; [lra|]. rewrite Hout. lra. }
  assert (Hw0 : totalWeight
                  (Map_values (evaluate this session)
                     ++ [outcome session a]) =
                totalWeight (Map_values (evaluate this session))).
  { rewrite Hw.
    destruct (Rle_dec 0 (ScoringResult.score (outcome session a)));
      [|lra]. destruct Hout as [Hout|Hout]; [lra|]. rewrite Hout. lra. }
  rewrite Hs0, Hw0 in Hpos'. rewrite Hw0 in Hneg'.
  destruct (Rlt_le_dec 0 (totalWeight (Map_values (evaluate this session))))
    as [Hlt|Hle].
  - now rewrite (Hpos' Hlt), (Hpos Hlt).
  - now rewrite (Hneg' Hle), (Hneg Hle).
Qed.

Lemma getCombinedScore_silent_witness :
  getCombinedScore
    (register (Examples.throwing "entropy" "boom") Examples.twoNames)
    Examples.session =
  getCombinedScore Examples.twoNames Examples.session.
Proof.
  apply (getCombinedScore_silent (Examples.throwing "entropy" "boom")
           Examples.twoNames Examples.session).
  - intros b [<-|[<-|[]]]; discriminate.
  - intros r H. discriminate H.
Defined.

(** X7.  When every registered algorithm throws or returns a confidence
    of 0, [getCombinedScore] is -1.  The four placeholder algorithms of
    scoring.ts return a confidence of 0, so an engine that holds only
    placeholders gives -1 for every session. *)
Theorem getCombinedScore_no_confidence (this : ScoringEngine)
    (session : CaptchaSession.t) :
  ((forall a r, In a (algorithms this) ->
                ScoringAlgorithm.score a session = Normal r ->
                ScoringResult.confidence r = 0) ->
   getCombinedScore this session = -1)
  /\ ((forall a, In a (algorithms this) ->
                 In a [velocityConsistencyScorer; strokeEntropyScorer;
                       microMotorScorer; timingScorer]) ->
      getCombinedScore this session = -1).
Proof.
  assert (Hzero : (forall a r, In a (algorithms this) ->
                     ScoringAlgorithm.score a session = Normal r ->
                     ScoringResult.confidence r = 0) ->
                  getCombinedScore this session = -1).
  { intros H.
    apply (getCombinedScore_cases this session).
    assert (Hall : forall r, In r (Map_values (evaluate this session)) ->
                             ScoringResult.confidence r = 0).
    { apply (evaluate_outcomes this session
               (fun r => ScoringResult.confidence r = 0)).
      intros a Ha. unfold outcome.
      destruct (ScoringAlgorithm.score a session) as [r|e] eqn:E;
        [now apply (H a r) | reflexivity]. }
    unfold totalWeight, eligible.
    induction (Map_values (evaluate this session)) as [|r rs IH];
      simpl; [lra|].
    assert (IH' := IH (fun r' Hr' => Hall r' (or_intror Hr'))).
    destruct (Rle_dec 0 (ScoringResult.score r)); [|exact IH'].
    cbn [map]. unfold Rsum in *. cbn [fold_right].
    rewrite (Hall r (or_introl eq_refl)). lra. }
  split; [exact Hzero|].
  intros H. apply Hzero. intros a r Ha Hr.
  destruct (H a Ha) as [<-|[<-|[<-|[<-|[]]]]];
    simpl in Hr; inversion Hr; reflexivity.
Qed.

Lemma getCombinedScore_no_confidence_witness :
  getCombinedScore
    (register timingScorer (register microMotorScorer newEngine))
    Examples.session = -1.
Proof.
  pose proof (getCombinedScore_no_confidence
                (register timingScorer
                   (register microMotorScorer newEngine))
                Examples.session) as [_ H].
  apply H. intros a [<-|[<-|[]]]; simpl; tauto.
Defined.

End RegistryTheorems.

(** ** metrics.ts: what the metrics satisfy *)

Module KinematicsFacts.
Import Js Spec Metrics SeriesFacts MetricsFacts MetricsTheorems.

Lemma segDistance_nonneg (s : CapturePoint.t * CapturePoint.t) :
  0 <= segDistance s.
Proof. unfold segDistance. apply sqrt_pos. Qed.

Lemma positiveDt_spec (s : CapturePoint.t * CapturePoint.t) :
  positiveDt s = true <-> 0 < segDt s.
Proof.
  unfold positiveDt. destruct (Rlt_dec 0 (segDt s)); split;
    intros; try discriminate; tauto.
Qed.

Lemma timedSegments_positive (points : list CapturePoint.t) :
  Forall (fun s => 0 < segDt s) (timedSegments points).
Proof.
  apply Forall_forall. intros s Hs. unfold timedSegments in Hs.
  apply filter_In in Hs as [_ Hs]. now apply positiveDt_spec.
Qed.

Lemma velocities_nonneg (timed : list (CapturePoint.t * CapturePoint.t)) :
  Forall (fun s => 0 < segDt s) timed ->
  Forall (fun v => 0 <= v) (map segVelocity timed).
Proof.
  intros H. apply Forall_map. eapply Forall_impl; [|exact H].
  intros s Hs. unfold segVelocity.
  apply Rmult_le_pos; [apply segDistance_nonneg|].
  left. now apply Rinv_0_lt_compat.
Qed.

Lemma accelerations_nonneg
    (timed : list (CapturePoint.t * CapturePoint.t)) :
  Forall (fun s => 0 < segDt s) timed ->
  Forall (fun c => 0 <= c) (accelerationsOf timed).
Proof.
  induction timed as [|s [|s' rest] IH]; intros H;
    [constructor ..|].
  inversion H as [|? ? _ Hrest]; subst.
  change (accelerationsOf (s :: s' :: rest))
    with (Rabs (segVelocity s' - segVelocity s) / segDt s'
            :: accelerationsOf (s' :: rest)).
  constructor; [|now apply IH].
  inversion Hrest; subst.
  apply Rmult_le_pos; [apply Rabs_pos|].
  left. now apply Rinv_0_lt_compat.
Qed.

Lemma Rsum_le_max (l : list R) (m : R) :
  (forall v, In v l -> v <= m) -> Rsum l <= INR (List.length l) * m.
Proof.
  induction l as [|v l IH]; intros H.
  - simpl. lra.
  - change (Rsum (v :: l)) with (v + Rsum l).
    change (List.length (v :: l)) with (S (List.length l)).
    rewrite S_INR.
    assert (v <= m) by (apply H; now left).
    assert (Rsum l <= INR (List.length l) * m)
      by (apply IH; intros; apply H; now right).
    lra.
Qed.

Lemma Rsum_nonneg (l : list R) :
  Forall (fun v => 0 <= v) l -> 0 <= Rsum l.
Proof.
  induction 1 as [|v l Hv _ IH]; [simpl; lra|].
  change (Rsum (v :: l)) with (v + Rsum l). lra.
Qed.

(** The average of a series of non-negative numbers lies between 0 and
    its maximum. *)
Lemma average_maximum (l : list R) :
  Forall (fun v => 0 <= v) l ->
  0 <= average l <= maximum l.
Proof.
  intros Hpos. destruct l as [|v l]; [simpl; lra|].
  assert (Hne : v :: l <> []) by discriminate.
  destruct (maximum_isMaximum (v :: l) Hne) as [_ Hub].
  rewrite (average_mean _ Hne). unfold mean.
  assert (Hn : 0 < INR (List.length (v :: l)))
    by (apply lt_0_INR; simpl; lia).
  pose proof (Rsum_nonneg _ Hpos) as Hs.
  pose proof (Rsum_le_max _ _ Hub) as Hm.
  split.
  - apply Rmult_le_pos; [exact Hs|]. left. now apply Rinv_0_lt_compat.
  - apply Rmult_le_reg_r with (1 := Hn).
    unfold Rdiv. rewrite Rmult_assoc, Rinv_l by lra. lra.
Qed.

Lemma segments_length (points : list CapturePoint.t) :
  List.length (segments points) = (List.length points - 1)%nat.
Proof.
  induction points as [|a [|b rest] IH]; [reflexivity ..|].
  rewrite segments_cons2. cbn [List.length] in *. lia.
Qed.

Lemma countTurns_le (bearings : list R) :
  (countTurns bearings <= List.length bearings - 1)%nat.
Proof.
  induction bearings as [|b1 [|b2 rest] IH]; [simpl; lia ..|].
  rewrite countTurns_cons2. cbn [List.length] in *.
  destruct (isTurn b1 b2); lia.
Qed.

Lemma last_nonempty {A : Type} (a : A) (l : list A) (d d' : A) :
  last (a :: l) d = last (a :: l) d'.
Proof.
  revert a. induction l as [|b l IH]; intros a; [reflexivity|].
  change (last (a :: b :: l) d) with (last (b :: l) d).
  change (last (a :: b :: l) d') with (last (b :: l) d').
  apply IH.
Qed.

Lemma directionChanges_le (points : list CapturePoint.t) :
  (StrokeMetrics.directionChanges (computeStrokeMetrics points)
   <= List.length points - 2)%nat.
Proof.
  rewrite computeStrokeMetrics_countTurns.
  pose proof (countTurns_le (map bearing (segments points))) as H.
  rewrite length_map, segments_length in H. lia.
Qed.

(** The time deltas of the segments add up to the time between the first
    and the last point. *)
Lemma segDt_telescope (rest : list CapturePoint.t) :
  forall p0,
    Rsum (map segDt (segments (p0 :: rest))) =
    CapturePoint.timestamp (last (p0 :: rest) p0)
    - CapturePoint.timestamp p0.
Proof.
  induction rest as [|p rest IH]; intros p0.
  - simpl. lra.
  - rewrite segments_cons2.
    change (map segDt ((p0, p) :: segments (p :: rest)))
      with (segDt (p0, p) :: map segDt (segments (p :: rest))).
    change (Rsum (segDt (p0, p) :: map segDt (segments (p :: rest))))
      with (segDt (p0, p) + Rsum (map segDt (segments (p :: rest)))).
    rewrite IH. unfold segDt. cbn [fst snd].
    change (last (p0 :: p :: rest) p0) with (last (p :: rest) p0).
    rewrite (last_nonempty p rest p0 p). lra.
Qed.

Lemma all_timed (segs : list (CapturePoint.t * CapturePoint.t)) :
  Forall (fun s => 0 < segDt s) segs -> filter positiveDt segs = segs.
Proof.
  intros H. apply forallb_filter_id, forallb_forall. intros s Hs.
  apply positiveDt_spec. rewrite Forall_forall in H. now apply H.
Qed.

Lemma Rsum_positive (l : list R) :
  l <> [] -> Forall (fun v => 0 < v) l -> 0 < Rsum l.
Proof.
  intros Hne H. destruct H as [|v l Hv Hl]; [congruence|].
  change (Rsum (v :: l)) with (v + Rsum l).
  assert (0 <= Rsum l).
  { apply Rsum_nonneg. eapply Forall_impl; [|exact Hl]. intros; lra. }
  lra.
Qed.

Lemma Rsum_ge_each (l : list R) :
  Forall (fun v => 0 <= v) l -> forall v, In v l -> v <= Rsum l.
Proof.
  induction 1 as [|w l Hw Hl IH]; intros v Hin; [destruct Hin|].
  change (Rsum (w :: l)) with (w + Rsum l).
  pose proof (Rsum_nonneg l Hl).
  destruct Hin as [<-|Hin]; [lra|]. specialize (IH v Hin). lra.
Qed.

Lemma Rsum_zero (l : list R) :
  Forall (fun v => 0 <= v) l -> Rsum l = 0 -> forall v, In v l -> v = 0.
Proof.
  intros Hpos Hsum v Hin.
  pose proof (Rsum_ge_each l Hpos v Hin).
  rewrite Forall_forall in Hpos. specialize (Hpos v Hin). lra.
Qed.

Lemma distances_nonneg (segs : list (CapturePoint.t * CapturePoint.t)) :
  Forall (fun v => 0 <= v) (map segDistance segs).
Proof.
  apply Forall_map, Forall_forall. intros s _. apply segDistance_nonneg.
Qed.

Lemma computeStrokeMetrics_length (points : list CapturePoint.t) :
  StrokeMetrics.length (computeStrokeMetrics points) =
  Rsum (map segDistance (segments points)).
Proof.
  destruct points as [|p0 [|p1 rest]]; [reflexivity ..|].
  rewrite computeStrokeMetrics_fields. cbv zeta.
  cbn [StrokeMetrics.length]. apply runLoop_totalLength.
Qed.

Lemma computeStrokeMetrics_duration (points : list CapturePoint.t) :
  StrokeMetrics.duration (computeStrokeMetrics points) =
  Rsum (map segDt (segments points)).
Proof.
  destruct points as [|p0 [|p1 rest]]; [reflexivity ..|].
  rewrite computeStrokeMetrics_fields. cbv zeta.
  cbn [StrokeMetrics.duration]. now rewrite segDt_telescope.
Qed.

(** *** Translation *)




(** *** Series of equal entries *)

Lemma map_constant {A : Type} (f : A -> R) (c : R) (l : list A) :
  (forall a, In a l -> f a = c) -> map f l = repeat c (List.length l).
Proof.
  induction l as [|a l IH]; intros H; [reflexivity|].
  cbn [map List.length repeat]. rewrite (H a (or_introl eq_refl)).
  f_equal. apply IH. intros; apply H; now right.
Qed.

Lemma Rsum_repeat (c : R) (n : nat) : Rsum (repeat c n) = INR n * c.
Proof.
  induction n as [|n IH]; [simpl; lra|].
  cbn [repeat]. change (Rsum (c :: repeat c n)) with (c + Rsum (repeat c n)).
  rewrite IH, S_INR. lra.
Qed.

Lemma average_repeat (c : R) (n : nat) : average (repeat c (S n)) = c.
Proof.
  rewrite average_mean by discriminate. unfold mean.
  rewrite Rsum_repeat, repeat_length.
  assert (0 < INR (S n)) by (apply lt_0_INR; lia).
  field. lra.
Qed.

Lemma maximum_repeat (c : R) (n : nat) : maximum (repeat c (S n)) = c.
Proof.
  destruct (maximum_isMaximum (repeat c (S n))) as [Hin _];
    [discriminate|].
  now apply repeat_spec in Hin.
Qed.

Lemma accelerationsOf_constant
    (segs : list (CapturePoint.t * CapturePoint.t)) (v : R) :
  (forall s, In s segs -> segVelocity s = v) ->
  accelerationsOf segs = repeat 0 (List.length segs - 1).
Proof.
  induction segs as [|s [|s' rest] IH]; intros H; [reflexivity ..|].
  change (accelerationsOf (s :: s' :: rest))
    with (Rabs (segVelocity s' - segVelocity s) / segDt s'
            :: accelerationsOf (s' :: rest)).
  rewrite IH by (intros; apply H; now right).
  rewrite (H s), (H s') by (simpl; tauto).
  replace (v - v) with 0 by ring. rewrite Rabs_R0.
  unfold Rdiv. rewrite Rmult_0_l.
  cbn [List.length]. rewrite !Nat.sub_succ, !Nat.sub_0_r. reflexivity.
Qed.

Lemma countTurns_constant (bearings : list R) (b : R) :
  (forall c, In c bearings -> c = b) -> countTurns bearings = 0%nat.
Proof.
  induction bearings as [|b1 [|b2 rest] IH]; intros H; [reflexivity ..|].
  rewrite countTurns_cons2, IH by (intros; apply H; now right).
  rewrite (H b1), (H b2) by (simpl; tauto).
  unfold isTurn, wrappedDifference.
  replace (b - b) with 0 by ring. rewrite Rabs_R0.
  pose proof PI_RGT_0.
  destruct (Rlt_dec PI 0); [lra|].
  destruct (Rlt_dec (PI / 6) 0); [lra | reflexivity].
Qed.

End KinematicsFacts.

Module KinematicsTheorems.
Import Js Spec Metrics SeriesFacts MetricsFacts MetricsTheorems
       KinematicsFacts.

(** X8.  For every list of points, the length, the average and maximum
    velocity and the average and maximum acceleration are all >= 0; an
    average is 0 when its maximum is 0; and when the length is 0 (the
    pointer did not move) the maximum velocity and the maximum
    acceleration are 0. *)
Theorem computeStrokeMetrics_nonneg (points : list CapturePoint.t) :
  let m := computeStrokeMetrics points in
  0 <= StrokeMetrics.length m
  /\ 0 <= StrokeMetrics.avgVelocity m
  /\ 0 <= StrokeMetrics.maxVelocity m
  /\ 0 <= StrokeMetrics.avgAcceleration m
  /\ 0 <= StrokeMetrics.maxAcceleration m
  /\ (StrokeMetrics.maxVelocity m = 0 -> StrokeMetrics.avgVelocity m = 0)
  /\ (StrokeMetrics.maxAcceleration m = 0 ->
      StrokeMetrics.avgAcceleration m = 0)
  /\ (StrokeMetrics.length m = 0 ->
      StrokeMetrics.maxVelocity m = 0
      /\ StrokeMetrics.maxAcceleration m = 0).
Proof.
  cbv zeta. pose proof (computeStrokeMetrics_length points) as Hlen.
  destruct points as [|p0 [|p1 rest]];
    [cbn; repeat split; intros; lra ..|].
  rewrite computeStrokeMetrics_fields in Hlen |- *. cbv zeta in Hlen |- *.
  cbn [StrokeMetrics.length StrokeMetrics.avgVelocity
       StrokeMetrics.maxVelocity StrokeMetrics.avgAcceleration
       StrokeMetrics.maxAcceleration] in Hlen |- *.
  destruct (runLoop_series (p0 :: p1 :: rest)) as [Hv Ha].
  rewrite Hv, Ha, Hlen.
  pose proof (timedSegments_positive (p0 :: p1 :: rest)) as Hpos.
  pose proof (average_maximum _ (velocities_nonneg _ Hpos)) as Hvel.
  pose proof (average_maximum _ (accelerations_nonneg _ Hpos)) as Hacc.
  fold (velocitySeries (p0 :: p1 :: rest)) in Hvel.
  fold (accelerationSeries (p0 :: p1 :: rest)) in Hacc.
  split; [apply Rsum_nonneg, distances_nonneg|].
  split; [lra|]. split; [lra|]. split; [lra|]. split; [lra|].
  split; [intros; lra|]. split; [intros; lra|].
  intros Hzero.
  assert (Hstill : forall s, In s (timedSegments (p0 :: p1 :: rest)) ->
                             segVelocity s = 0).
  { intros s Hin. apply filter_In in Hin as [Hin _].
    unfold segVelocity.
    rewrite (Rsum_zero _ (distances_nonneg _) Hzero (segDistance s))
      by now apply in_map.
    unfold Rdiv. ring. }
  unfold velocitySeries, accelerationSeries.
  rewrite (map_constant segVelocity _ _ Hstill).
  rewrite (accelerationsOf_constant _ _ Hstill).
  split.
  - destruct (List.length (timedSegments (p0 :: p1 :: rest)));
      [reflexivity | apply maximum_repeat].
  - destruct (List.length (timedSegments (p0 :: p1 :: rest)) - 1)%nat;
      [reflexivity | apply maximum_repeat].
Qed.

(** X9.  The number of direction changes is at most the number of
    points minus 2: one per segment after the first. *)
Theorem directionChanges_bound (points : list CapturePoint.t) :
  (StrokeMetrics.directionChanges (computeStrokeMetrics points)
   <= List.length points - 2)%nat.
Proof.
  rewrite computeStrokeMetrics_countTurns.
  pose proof (countTurns_le (map bearing (segments points))) as H.
  rewrite length_map, segments_length in H. lia.
Qed.

(** X10.  When the timestamps of a stroke never decrease from a point
    to the next, the duration is >= 0 and is at least the time delta of
    every segment; when they increase strictly and there are at least 2
    points, the duration is positive. *)
Theorem duration_covers_segments (points : list CapturePoint.t) :
  Forall (fun s => 0 <= segDt s) (segments points) ->
  let m := computeStrokeMetrics points in
  0 <= StrokeMetrics.duration m
  /\ (forall a b,
         In (a, b) (segments points) ->
         CapturePoint.timestamp b - CapturePoint.timestamp a
         <= StrokeMetrics.duration m)
  /\ (Forall (fun s => 0 < segDt s) (segments points) ->
      (2 <= List.length points)%nat ->
      0 < StrokeMetrics.duration m).
Proof.
  intros Hmono. cbv zeta. rewrite computeStrokeMetrics_duration.
  assert (Hpos : Forall (fun v => 0 <= v) (map segDt (segments points)))
    by now apply Forall_map.
  split; [now apply Rsum_nonneg|]. split.
  - intros a b Hin.
    apply (Rsum_ge_each _ Hpos (segDt (a, b))).
    now apply in_map.
  - intros Hinc Hlen. apply Rsum_positive; [|now apply Forall_map].
    destruct points as [|p0 [|p1 rest]]; [simpl in Hlen; lia ..|].
    rewrite segments_cons2. discriminate.
Qed.

Lemma duration_covers_segments_witness :
  Forall (fun s => 0 <= segDt s) (segments Inputs.steady)
  /\ 0 <= StrokeMetrics.duration (computeStrokeMetrics Inputs.steady).
Proof.
  assert (H : Forall (fun s => 0 <= segDt s) (segments Inputs.steady)).
  { unfold Inputs.steady. cbn [segments].
    repeat constructor; unfold segDt; simpl; lra. }
  split; [exact H|].
  apply (duration_covers_segments Inputs.steady H).
Defined.

(** X11.  The length of a stroke is at least the distance between any
    two consecutive points of it, and for a stroke of exactly two points
    it is the distance between them. *)
Theorem length_at_least_segment (points : list CapturePoint.t) :
  let m := computeStrokeMetrics points in
  (forall a b, In (a, b) (segments points) ->
               distance a b <= StrokeMetrics.length m)
  /\ (forall p0 p1, points = [p0; p1] ->
                    StrokeMetrics.length m = distance p0 p1).
Proof.
  cbv zeta. rewrite computeStrokeMetrics_length. split.
  - intros a b Hin. rewrite distance_segDistance.
    apply (Rsum_ge_each _ (distances_nonneg _)).
    now apply in_map.
  - intros p0 p1 ->. rewrite distance_segDistance.
    cbn [segments map]. unfold Rsum. cbn [fold_right]. lra.
Qed.


(** X13.  For a stroke of at least 2 points in which every segment has
    the same displacement and the same positive time delta (a straight
    line drawn at constant speed), there is no direction change, the
    maximum velocity is the velocity of the first segment, its distance
    over its time delta, and the average and maximum acceleration are
    0. *)
Theorem constant_velocity (p0 p1 : CapturePoint.t)
    (rest : list CapturePoint.t) (dx dy dt : R) :
  let points := p0 :: p1 :: rest in
  0 < dt ->
  (forall a b, In (a, b) (segments points) ->
      CapturePoint.x b - CapturePoint.x a = dx
      /\ CapturePoint.y b - CapturePoint.y a = dy
      /\ CapturePoint.timestamp b - CapturePoint.timestamp a = dt) ->
  let m := computeStrokeMetrics points in
  StrokeMetrics.directionChanges m = 0%nat
  /\ StrokeMetrics.maxVelocity m =
     distance p0 p1
     / (CapturePoint.timestamp p1 - CapturePoint.timestamp p0)
  /\ StrokeMetrics.avgAcceleration m = 0
  /\ StrokeMetrics.maxAcceleration m = 0.
Proof.
  intros points Hdt Hseg. cbv zeta.
  assert (Hb : forall c, In c (map bearing (segments points)) ->
                         c = Math_atan2 dy dx).
  { intros c Hc. apply in_map_iff in Hc as ([a b] & <- & Hin).
    destruct (Hseg a b Hin) as (Hx & Hy & _).
    unfold bearing. cbn [fst snd]. now rewrite Hx, Hy. }
  assert (Hvel : forall s, In s (segments points) ->
                           segVelocity s = segVelocity (p0, p1)).
  { assert (Hall : forall s, In s (segments points) ->
                     segVelocity s = sqrt (dx * dx + dy * dy) / dt).
    { intros [a b] Hin. destruct (Hseg a b Hin) as (Hx & Hy & Ht).
      unfold segVelocity, segDistance, segDt. cbn [fst snd].
      now rewrite Hx, Hy, Ht. }
    intros s Hin. rewrite (Hall s Hin). symmetry. apply Hall.
    unfold points. rewrite segments_cons2. now left. }
  assert (Htimed : timedSegments points = segments points).
  { apply all_timed, Forall_forall. intros [a b] Hin.
    destruct (Hseg a b Hin) as (_ & _ & Ht).
    unfold segDt. cbn [fst snd]. lra. }
  split; [rewrite computeStrokeMetrics_countTurns;
          now apply (countTurns_constant _ (Math_atan2 dy dx))|].
  unfold points in *. rewrite computeStrokeMetrics_fields. cbv zeta.
  cbn [StrokeMetrics.maxVelocity
       StrokeMetrics.avgAcceleration StrokeMetrics.maxAcceleration].
  destruct (runLoop_series (p0 :: p1 :: rest)) as [Hv Ha].
  rewrite Hv, Ha. unfold velocitySeries, accelerationSeries.
  rewrite Htimed.
  rewrite (map_constant segVelocity _ _ Hvel).
  rewrite (accelerationsOf_constant _ _ Hvel).
  assert (Hn : List.length (segments (p0 :: p1 :: rest)) =
               S (List.length rest))
    by (rewrite segments_length; cbn [List.length]; lia).
  rewrite Hn. replace (S (List.length rest) - 1)%nat
    with (List.length rest) by lia.
  rewrite maximum_repeat.
  split.
  { unfold segVelocity, segDt. cbn [fst snd].
    now rewrite distance_segDistance. }
  destruct (List.length rest) as [|n];
    [now split | now rewrite average_repeat, maximum_repeat].
Qed.

Lemma constant_velocity_witness :
  0 < 10
  /\ StrokeMetrics.directionChanges (computeStrokeMetrics Inputs.steady)
     = 0%nat
  /\ StrokeMetrics.maxAcceleration (computeStrokeMetrics Inputs.steady)
     = 0.
Proof.
  assert (H : 0 < 10) by lra.
  split; [exact H|].
  pose proof (constant_velocity
                (CapturePoint.mk 0 0 0 (1 / 2) mouse)
                (CapturePoint.mk 3 4 10 (1 / 2) mouse)
                [CapturePoint.mk 6 8 20 (1 / 2) mouse;
                 CapturePoint.mk 9 12 30 (1 / 2) mouse]
                3 4 10 H) as Hc.
  cbv zeta in Hc. destruct Hc as (Hd & _ & _ & Hm); [|split; assumption].
  cbn [segments]. intros a b Hin.
  repeat (destruct Hin as [Heq|Hin];
          [inversion Heq; subst; simpl; repeat split; lra|]).
  destruct Hin.
Defined.

End KinematicsTheorems.

(** ** The [useStrokeCapture] hook: gestures, undo and sessions *)

Module GestureFacts.
Import Js Spec StrokeCapture SeriesFacts CaptureFacts.

Lemma endStroke_times (st : State) (p0 : CapturePoint.t)
    (rest : list CapturePoint.t) :
  currentPoints st = p0 :: rest ->
  rest <> [] ->
  strokes (endStroke st) =
  strokes st
    ++ [{| Stroke.id := strokeId st;
           Stroke.points := p0 :: rest;
           Stroke.startTime := CapturePoint.timestamp p0;
           Stroke.endTime := CapturePoint.timestamp (last rest p0);
           Stroke.metrics := Metrics.computeStrokeMetrics (p0 :: rest) |}].
Proof.
  intros Hp Hne. unfold endStroke. rewrite Hp.
  destruct rest as [|p1 rest]; [congruence|]. reflexivity.
Qed.

Lemma run_app (evs1 evs2 : list Event) (st : State) :
  run (evs1 ++ evs2) st = run evs2 (run evs1 st).
Proof. unfold run. apply fold_left_app. Qed.

Lemma run_addPoints (pts : list CapturePoint.t) :
  forall st,
    run (map AddPoint pts) st =
    {| strokes := strokes st;
       isDrawing := isDrawing st;
       currentPoints := currentPoints st ++ pts;
       strokeId := strokeId st;
       sessionStart := sessionStart st;
       sessionTimestamp := sessionTimestamp st |}.
Proof.
  induction pts as [|p pts IH]; intros st.
  - simpl. rewrite app_nil_r. now destruct st.
  - cbn [map]. change (run (AddPoint p :: map AddPoint pts) st)
      with (run (map AddPoint pts) (addPoint p st)).
    rewrite IH. cbn [addPoint strokes isDrawing currentPoints strokeId
                     sessionStart sessionTimestamp].
    now rewrite <- app_assoc.
Qed.

Lemma gesture_kept (p0 : CapturePoint.t) (rest : list CapturePoint.t)
    (st : State) :
  rest <> [] ->
  let st' :=
    run (BeginStroke :: map AddPoint (p0 :: rest) ++ [EndStroke]) st in
  strokes st' =
    strokes st
      ++ [{| Stroke.id := strokeId st;
             Stroke.points := p0 :: rest;
             Stroke.startTime := CapturePoint.timestamp p0;
             Stroke.endTime := CapturePoint.timestamp (last rest p0);
             Stroke.metrics :=
               Metrics.computeStrokeMetrics (p0 :: rest) |}]
  /\ strokeId st' = S (strokeId st)
  /\ currentPoints st' = []
  /\ isDrawing st' = false.
Proof.
  intros Hne. cbv zeta.
  change (run (BeginStroke :: map AddPoint (p0 :: rest) ++ [EndStroke]) st)
    with (run (map AddPoint (p0 :: rest) ++ [EndStroke]) (beginStroke st)).
  rewrite run_app, run_addPoints.
  cbn [beginStroke strokes isDrawing currentPoints strokeId sessionStart
       sessionTimestamp app run fold_left step].
  set (mid := {| strokes := strokes st; isDrawing := true;
                 currentPoints := p0 :: rest; strokeId := strokeId st;
                 sessionStart := sessionStart st;
                 sessionTimestamp := sessionTimestamp st |}).
  assert (Hge : (2 <= List.length (currentPoints mid))%nat).
  { cbn [mid currentPoints]. destruct rest; [congruence | simpl; lia]. }
  destruct (endStroke_kept mid Hge) as (s & _ & _ & _ & _ & Hn & Hc & Hd).
  rewrite (endStroke_times mid p0 rest eq_refl Hne).
  repeat split; assumption.
Qed.

Lemma gesture_dropped (pts : list CapturePoint.t) (st : State) :
  (List.length pts < 2)%nat ->
  let st' := run (BeginStroke :: map AddPoint pts ++ [EndStroke]) st in
  strokes st' = strokes st
  /\ strokeId st' = strokeId st
  /\ currentPoints st' = []
  /\ isDrawing st' = false.
Proof.
  intros Hlt. cbv zeta.
  change (run (BeginStroke :: map AddPoint pts ++ [EndStroke]) st)
    with (run (map AddPoint pts ++ [EndStroke]) (beginStroke st)).
  rewrite run_app, run_addPoints.
  cbn [beginStroke strokes isDrawing currentPoints strokeId sessionStart
       sessionTimestamp app run fold_left step].
  set (mid := {| strokes := strokes st; isDrawing := true;
                 currentPoints := pts; strokeId := strokeId st;
                 sessionStart := sessionStart st;
                 sessionTimestamp := sessionTimestamp st |}).
  exact (endStroke_short mid Hlt).
Qed.

Lemma finalized_step (st : State) (ev : Event) :
  Forall Inputs.finalized (strokes st) ->
  Forall Inputs.finalized (strokes (step st ev)).
Proof.
  intros H. destruct ev; cbn [step startSession beginStroke addPoint
                              undo clear strokes]; try assumption.
  - constructor.
  - destruct (currentPoints st) as [|p0 [|p1 rest]] eqn:E.
    + unfold endStroke. now rewrite E.
    + unfold endStroke. now rewrite E.
    + rewrite (endStroke_times st p0 (p1 :: rest) E) by discriminate.
      apply Forall_app. split; [assumption|].
      constructor; [|constructor].
      exists p0, (p1 :: rest). cbn. repeat split. discriminate.
  - destruct (removelast_prefix (strokes st)) as [tl Htl].
    rewrite Htl in H. now apply Forall_app in H.
  - constructor.
Qed.

Lemma finalized_run (evs : list Event) :
  forall st,
    Forall Inputs.finalized (strokes st) ->
    Forall Inputs.finalized (strokes (run evs st)).
Proof.
  induction evs as [|ev evs IH]; intros st H; [assumption|].
  apply IH. now apply finalized_step.
Qed.

Lemma session_clock_step (st : State) (ev : Event) :
  inSession ev = true ->
  sessionStart (step st ev) = sessionStart st
  /\ sessionTimestamp (step st ev) = sessionTimestamp st.
Proof.
  destruct ev; intros H; try discriminate; cbn [step];
    try (now split).
  unfold endStroke.
  destruct (_ <? _)%nat; [now split|].
  destruct (currentPoints st); now split.
Qed.

Lemma session_clock_run (evs : list Event) :
  forall st,
    forallb inSession evs = true ->
    sessionStart (run evs st) = sessionStart st
    /\ sessionTimestamp (run evs st) = sessionTimestamp st.
Proof.
  induction evs as [|ev evs IH]; intros st H; [now split|].
  cbn [forallb] in H. apply andb_prop in H as [Hev H].
  change (run (ev :: evs) st) with (run evs (step st ev)).
  destruct (IH (step st ev) H) as [-> ->].
  now apply session_clock_step.
Qed.

End GestureFacts.

Module GestureTheorems.
Import Js Spec StrokeCapture SeriesFacts CaptureFacts GestureFacts.

(** X14.  A gesture, that is [beginStroke], then [addPoint] for each of
    its points, then [endStroke], appends one stroke when it has at least
    2 points: the stroke holds exactly these points in order, the
    counter's value as identifier, the timestamps of the first and last
    point as start and end time, and the metrics of the points; the
    counter goes up by one.  With fewer than 2 points the stroke list and
    the counter stay as they were.  Points added before [beginStroke]
    are dropped, and no point is pending afterwards. *)
Theorem gesture (pts : list CapturePoint.t) (st : State) :
  let st' := run (BeginStroke :: map AddPoint pts ++ [EndStroke]) st in
  currentPoints st' = []
  /\ isDrawing st' = false
  /\ ((List.length pts < 2)%nat ->
      strokes st' = strokes st /\ strokeId st' = strokeId st)
  /\ (forall p0 rest,
         pts = p0 :: rest -> rest <> [] ->
         strokes st' =
         strokes st
           ++ [{| Stroke.id := strokeId st;
                  Stroke.points := pts;
                  Stroke.startTime := CapturePoint.timestamp p0;
                  Stroke.endTime := CapturePoint.timestamp (last rest p0);
                  Stroke.metrics := Metrics.computeStrokeMetrics pts |}]
         /\ strokeId st' = S (strokeId st)).
Proof.
  cbv zeta.
  change (run (BeginStroke :: map AddPoint pts ++ [EndStroke]) st)
    with (run (map AddPoint pts ++ [EndStroke]) (beginStroke st)).
  rewrite run_app, run_addPoints.
  cbn [beginStroke strokes isDrawing currentPoints strokeId sessionStart
       sessionTimestamp app run fold_left step].
  set (mid := {| strokes := strokes st; isDrawing := true;
                 currentPoints := pts; strokeId := strokeId st;
                 sessionStart := sessionStart st;
                 sessionTimestamp := sessionTimestamp st |}).
  destruct (Nat.lt_ge_cases (List.length pts) 2) as [Hlt|Hge].
  - destruct (endStroke_short mid Hlt) as (Hs & Hid & Hc & Hd).
    split; [exact Hc|]. split; [exact Hd|].
    split; [intros _; now split|].
    intros p0 rest -> Hne. destruct rest; [congruence|].
    simpl in Hlt. lia.
  - destruct (endStroke_kept mid Hge) as (s & _ & _ & _ & _ & Hn & Hc & Hd).
    split; [exact Hc|]. split; [exact Hd|]. split.
    + intros Hlt. cbn [mid currentPoints] in Hge. lia.
    + intros p0 rest Hpts Hne. split; [|exact Hn].
      rewrite (endStroke_times mid p0 rest Hpts Hne).
      cbn [mid strokes strokeId]. now rewrite Hpts.
Qed.

Lemma gesture_witness :
  let pts := [CapturePoint.mk 0 0 40 (1 / 2) touch;
              CapturePoint.mk 3 4 100 (1 / 2) touch] in
  map Stroke.id
      (strokes (run (BeginStroke :: map AddPoint pts ++ [EndStroke])
                    initial)) = [0%nat]
  /\ strokeId (run (BeginStroke :: map AddPoint pts ++ [EndStroke])
                   initial) = 1%nat.
Proof.
  intros pts.
  pose proof (gesture pts initial) as (_ & _ & _ & H).
  destruct (H (CapturePoint.mk 0 0 40 (1 / 2) touch)
              [CapturePoint.mk 3 4 100 (1 / 2) touch] eq_refl)
    as [Hs Hn]; [discriminate|].
  rewrite Hs, Hn. split; reflexivity.
Defined.

(** X15.  In every session built after any run of callbacks from a state
    without strokes, each stroke has at least 2 points, its start and
    end times are the timestamps of its first and last point, its metrics
    are those of its points, and so the duration in its metrics is its
    end time minus its start time. *)
Theorem session_strokes_finalized (evs : list Event) (st0 : State)
    (prompt : string) (canvasWidth canvasHeight performance_now : R)
    (randomUUID : string) :
  strokes st0 = [] ->
  let session :=
    buildSession prompt canvasWidth canvasHeight performance_now
                 randomUUID (run evs st0) in
  Forall (fun s =>
            Inputs.finalized s
            /\ (2 <= List.length (Stroke.points s))%nat
            /\ StrokeMetrics.duration (Stroke.metrics s) =
               Stroke.endTime s - Stroke.startTime s)
         (CaptchaSession.strokes session).
Proof.
  intros Hs. cbv zeta. unfold buildSession. cbn [CaptchaSession.strokes].
  assert (H : Forall Inputs.finalized (strokes (run evs st0))).
  { apply finalized_run. rewrite Hs. constructor. }
  eapply Forall_impl; [|exact H].
  intros s Hf. split; [exact Hf|].
  destruct Hf as (p0 & rest & Hp & Hne & Hst & Hen & Hm).
  destruct rest as [|p1 rest]; [congruence|].
  split; [rewrite Hp; simpl; lia|].
  rewrite Hm, Hp, Hst, Hen.
  rewrite MetricsTheorems.computeStrokeMetrics_fields. reflexivity.
Qed.

Lemma session_strokes_finalized_witness :
  strokes initial = []
  /\ Forall (fun s => StrokeMetrics.duration (Stroke.metrics s) =
                      Stroke.endTime s - Stroke.startTime s)
            (CaptchaSession.strokes
               (buildSession "Draw a star" 500 375 300 "session-1"
                  (run Examples.interaction initial))).
Proof.
  split; [reflexivity|].
  pose proof (session_strokes_finalized Examples.interaction initial
                "Draw a star" 500 375 300 "session-1" eq_refl) as H.
  cbv zeta in H. eapply Forall_impl; [|exact H]. now intros s (_ & _ & Hd).
Defined.

(** X16.  [undo] removes the last stroke and nothing else: the strokes
    before the last one stay, and the drawing flag, the pending points,
    the counter and the session clock are untouched; on an empty stroke
    list it changes nothing at all.  Right after an [endStroke] that kept
    a stroke it gives back the stroke list as it was, with no point
    pending and the counter one higher, so the identifier of an undone
    stroke is not handed out again. *)
Theorem undo_endStroke (st : State) :
  (strokes st = [] -> undo st = st)
  /\ (forall before s,
         strokes st = before ++ [s] -> strokes (undo st) = before)
  /\ List.length (strokes (undo st)) = (List.length (strokes st) - 1)%nat
  /\ isDrawing (undo st) = isDrawing st
  /\ currentPoints (undo st) = currentPoints st
  /\ strokeId (undo st) = strokeId st
  /\ sessionStart (undo st) = sessionStart st
  /\ sessionTimestamp (undo st) = sessionTimestamp st
  /\ ((2 <= List.length (currentPoints st))%nat ->
      undo (endStroke st) =
      {| strokes := strokes st;
         isDrawing := false;
         currentPoints := [];
         strokeId := S (strokeId st);
         sessionStart := sessionStart st;
         sessionTimestamp := sessionTimestamp st |}).
Proof.
  split.
  { destruct st as [ss d ps n t0 w]. cbn [strokes]. intros ->.
    reflexivity. }
  split.
  { intros before s Hs. cbn [undo strokes]. rewrite Hs.
    apply removelast_last. }
  split.
  { cbn [undo strokes]. rewrite removelast_firstn_len, length_firstn.
    lia. }
  do 5 (split; [reflexivity|]).
  intros H. apply Nat.ltb_ge in H.
  unfold endStroke. rewrite H.
  destruct (currentPoints st) as [|p0 ps] eqn:E;
    [cbn in H; discriminate|].
  unfold undo. cbn [strokes isDrawing currentPoints strokeId
                    sessionStart sessionTimestamp].
  now rewrite removelast_last.
Qed.

Lemma undo_endStroke_witness :
  (2 <= List.length
          (currentPoints
             (run [BeginStroke;
                   AddPoint (CapturePoint.mk 0 0 40 (1 / 2) touch);
                   AddPoint (CapturePoint.mk 3 4 100 (1 / 2) touch)]
                  initial)))%nat
  /\ undo (endStroke
             (run [BeginStroke;
                   AddPoint (CapturePoint.mk 0 0 40 (1 / 2) touch);
                   AddPoint (CapturePoint.mk 3 4 100 (1 / 2) touch)]
                  initial)) =
     {| strokes := []; isDrawing := false; currentPoints := [];
        strokeId := 1; sessionStart := 0; sessionTimestamp := 0 |}.
Proof.
  assert (H : (2 <= List.length
                      (currentPoints
                         (run [BeginStroke;
                               AddPoint (CapturePoint.mk 0 0 40 (1 / 2)
                                                         touch);
                               AddPoint (CapturePoint.mk 3 4 100 (1 / 2)
                                                         touch)]
                              initial)))%nat)
    by (simpl; lia).
  split; [exact H|].
  pose proof (undo_endStroke
                (run [BeginStroke;
                      AddPoint (CapturePoint.mk 0 0 40 (1 / 2) touch);
                      AddPoint (CapturePoint.mk 3 4 100 (1 / 2) touch)]
                     initial))
    as (_ & _ & _ & _ & _ & _ & _ & _ & Hu).
  exact (Hu H).
Defined.

(** X18.  Whatever callbacks other than [startSession] run after
    [startSession], the session built at time [t1] starts at the time
    [t0] at which [startSession] read the clock, carries the wall-clock
    time read then, ends at [t1] and lasts [t1 - t0]. *)
Theorem session_clock (evs : list Event) (st0 : State)
    (t0 wall t1 : R) (prompt : string) (canvasWidth canvasHeight : R)
    (randomUUID : string) :
  forallb inSession evs = true ->
  let session :=
    buildSession prompt canvasWidth canvasHeight t1 randomUUID
                 (run evs (startSession t0 wall st0)) in
  CaptchaSession.startTime session = t0
  /\ CaptchaSession.startTimestamp session = wall
  /\ CaptchaSession.endTime session = t1
  /\ CaptchaSession.totalDuration session = t1 - t0.
Proof.
  intros H. cbv zeta. unfold buildSession.
  cbn [CaptchaSession.startTime CaptchaSession.startTimestamp
       CaptchaSession.endTime CaptchaSession.totalDuration].
  destruct (session_clock_run evs (startSession t0 wall st0) H)
    as [-> ->].
  repeat split.
Qed.

Lemma session_clock_witness :
  forallb inSession Examples.interaction = true
  /\ CaptchaSession.totalDuration
       (buildSession "Draw a star" 500 375 300 "session-1"
          (run Examples.interaction (startSession 10 1000 initial)))
     = 300 - 10.
Proof.
  split; [reflexivity|].
  apply (session_clock Examples.interaction initial 10 1000 300
           "Draw a star" 500 375 "session-1").
  reflexivity.
Defined.

End GestureTheorems.

(** ** The [Canvas] component *)

Module CanvasFacts.
Import Js Spec StrokeCapture CaptureFacts GestureFacts.
Import Canvas.

(** The points of one [handlePointerMove] are its events converted in
    order, each stamped with the clock reading of its iteration. *)
Lemma moveLoop_points (rect : DOMRect) (d : R) (clock : nat -> R)
    (events : list PointerEvent) :
  forall i last,
    let pts := fst (fst (moveLoop rect d clock i events last)) in
    Forall2 (fun p e => p = toPoint rect (CapturePoint.timestamp p) e)
            pts events
    /\ map CapturePoint.timestamp pts =
       map clock (seq i (List.length events)).
Proof.
  induction events as [|pe events IH]; intros i last.
  - split; [constructor | reflexivity].
  - cbn [moveLoop].
    specialize (IH (S i)
                   (Some (CapturePoint.x (toPoint rect (clock i) pe),
                          CapturePoint.y (toPoint rect (clock i) pe)))).
    destruct (moveLoop rect d clock (S i) events _)
      as [[pts lines] last'].
    cbn [fst] in *. destruct IH as [IH1 IH2]. split.
    + constructor; [reflexivity | exact IH1].
    + cbn [List.length seq map]. now rewrite IH2.
Qed.

Lemma last_cons {A : Type} (a : A) (l : list A) (d : A) :
  List.last (a :: l) d = List.last l a.
Proof.
  destruct l as [|b l]; [reflexivity|].
  change (List.last (a :: b :: l) d) with (List.last (b :: l) d).
  apply KinematicsFacts.last_nonempty.
Qed.

Lemma moveLoop_last (rect : DOMRect) (d : R) (clock : nat -> R)
    (events : list PointerEvent) :
  forall i last,
    let '(pts, _, last') := moveLoop rect d clock i events last in
    last' = match pts with
            | [] => last
            | p :: rest =>
                Some (CapturePoint.x (List.last rest p),
                      CapturePoint.y (List.last rest p))
            end.
Proof.
  induction events as [|pe events IH]; intros i last; [reflexivity|].
  cbn [moveLoop].
  specialize (IH (S i)
                 (Some (CapturePoint.x (toPoint rect (clock i) pe),
                        CapturePoint.y (toPoint rect (clock i) pe)))).
  destruct (moveLoop rect d clock (S i) events _) as [[pts lines] last'].
  rewrite IH. destruct pts as [|p rest]; [reflexivity|].
  now rewrite last_cons.
Qed.

Lemma moveLoop_lines (rect : DOMRect) (d : R) (clock : nat -> R)
    (events : list PointerEvent) :
  forall i lx ly,
    let '(pts, lines, _) :=
      moveLoop rect d clock i events (Some (lx, ly)) in
    List.length lines = List.length events
    /\ List.length pts = List.length events.
Proof.
  induction events as [|pe events IH]; intros i lx ly; [now split|].
  cbn [moveLoop].
  specialize (IH (S i) (CapturePoint.x (toPoint rect (clock i) pe))
                 (CapturePoint.y (toPoint rect (clock i) pe))).
  destruct (moveLoop rect d clock (S i) events _) as [[pts lines] last'].
  destruct IH as [IH1 IH2]. cbn [app List.length]. split; lia.
Qed.


Lemma last_app_cons {A : Type} (l r : list A) (a d : A) :
  List.last (l ++ a :: r) d = List.last r a.
Proof.
  induction l as [|b l IH].
  - apply last_cons.
  - rewrite <- IH. destruct l; reflexivity.
Qed.

Lemma pointerStep_down (rect : DOMRect) (t : R) (e : PointerEvent)
    (refs : Refs) (hook : State) :
  pointerStep true (refs, hook) (Down rect t e) =
  ({| pointerDown := true;
      lastPt := Some (CapturePoint.x (toPoint rect t e),
                      CapturePoint.y (toPoint rect t e));
      dpr := dpr refs |},
   addPoint (toPoint rect t e) (beginStroke hook)).
Proof. reflexivity. Qed.

Lemma pointerStep_up_down (refs : Refs) (hook : State) (a : bool) :
  pointerDown refs = true ->
  pointerStep a (refs, hook) Up =
  ({| pointerDown := false; lastPt := None; dpr := dpr refs |},
   endStroke hook).
Proof.
  intros H. unfold pointerStep, dispatch, handlePointerUp.
  cbn [fst snd]. now rewrite H.
Qed.

Lemma pointerStep_up_idle (refs : Refs) (hook : State) (a : bool) :
  pointerDown refs = false ->
  pointerStep a (refs, hook) Up = (refs, hook).
Proof.
  intros H. unfold pointerStep, dispatch, handlePointerUp.
  cbn [fst snd]. now rewrite H.
Qed.

Lemma pointerStep_move (rect : DOMRect) (clock : nat -> R)
    (native : PointerEvent) (coalesced : list PointerEvent)
    (refs : Refs) (hook : State) :
  pointerDown refs = true ->
  let events :=
    if (0 <? List.length coalesced)%nat then coalesced else [native] in
  let out := moveLoop rect (dpr refs) clock 0 events (lastPt refs) in
  pointerStep true (refs, hook) (Move true rect clock native coalesced) =
  ({| pointerDown := true; lastPt := snd out; dpr := dpr refs |},
   run (map AddPoint (fst (fst out))) hook).
Proof.
  intros H. cbv zeta. unfold pointerStep, dispatch, handlePointerMove.
  cbn [fst snd]. rewrite H. cbn [negb orb].
  destruct (moveLoop _ _ _ _ _ _) as [[pts lines] last'].
  reflexivity.
Qed.

Lemma consistent_step (isActive : bool) (st : Refs * State) (p : Pointer) :
  consistent st -> consistent (pointerStep isActive st p).
Proof.
  destruct st as [refs hook]. intros [Hd Hp]. cbn [fst snd] in Hd, Hp.
  destruct p as [rect t e|ctx rect clock native coalesced|].
  - destruct isActive; [|split; assumption].
    rewrite pointerStep_down. unfold consistent.
    cbn [fst snd pointerDown lastPt isDrawing currentPoints addPoint
         beginStroke app List.last].
    repeat split.
  - unfold pointerStep, dispatch, handlePointerMove. cbn [fst snd].
    destruct (negb (pointerDown refs) || negb isActive) eqn:Hg;
      [split; assumption|].
    destruct (negb ctx); [split; assumption|].
    pose proof (moveLoop_last rect (dpr refs) clock
                  (if (0 <? List.length coalesced)%nat
                   then coalesced else [native]) 0 (lastPt refs)) as Hl.
    destruct (moveLoop _ _ _ _ _ _) as [[pts lines] last'].
    cbn [fst snd]. rewrite run_addPoints. unfold consistent.
    cbn [fst snd pointerDown lastPt isDrawing currentPoints].
    split; [exact Hd|].
    destruct pts as [|p' rest'].
    + rewrite app_nil_r. now subst last'.
    + destruct (currentPoints hook) as [|p cps].
      * destruct Hp as [Hp _]. rewrite Hp in Hg. discriminate.
      * destruct Hp as [Hp _]. cbn [app]. split; [exact Hp|].
        now rewrite Hl, last_app_cons.
  - destruct (pointerDown refs) eqn:Hpd.
    + rewrite pointerStep_up_down by assumption.
      unfold consistent. cbn [fst snd pointerDown lastPt].
      destruct (Nat.lt_ge_cases (List.length (currentPoints hook)) 2)
        as [H|H].
      * destruct (endStroke_short hook H) as (_ & _ & -> & ->).
        now repeat split.
      * destruct (endStroke_kept hook H)
          as (s & _ & _ & _ & _ & _ & -> & ->).
        now repeat split.
    + rewrite pointerStep_up_idle by assumption.
      unfold consistent. cbn [fst snd]. rewrite Hpd. now split.
Qed.

Lemma strokes_grow_step (isActive : bool) (st : Refs * State)
    (p : Pointer) :
  exists added,
    strokes (snd (pointerStep isActive st p)) = strokes (snd st) ++ added
    /\ (List.length added <= 1)%nat.
Proof.
  destruct st as [refs hook].
  destruct p as [rect t e|ctx rect clock native coalesced|].
  - unfold pointerStep, dispatch, handlePointerDown. cbn [fst snd].
    destruct (negb isActive); exists []; cbn; rewrite app_nil_r;
      split; (reflexivity || lia).
  - unfold pointerStep, dispatch, handlePointerMove. cbn [fst snd].
    destruct (negb (pointerDown refs) || negb isActive);
      [exists []; cbn; rewrite app_nil_r; split; (reflexivity || lia)|].
    destruct (negb ctx);
      [exists []; cbn; rewrite app_nil_r; split; (reflexivity || lia)|].
    destruct (moveLoop _ _ _ _ _ _) as [[pts lines] last'].
    cbn [fst snd]. rewrite run_addPoints. exists [].
    cbn [strokes]. rewrite app_nil_r. split; [reflexivity | simpl; lia].
  - destruct (pointerDown refs) eqn:Hpd.
    + rewrite pointerStep_up_down by assumption. cbn [snd].
      destruct (Nat.lt_ge_cases (List.length (currentPoints hook)) 2)
        as [H|H].
      * destruct (endStroke_short hook H) as (-> & _).
        exists []. rewrite app_nil_r. split; [reflexivity | simpl; lia].
      * destruct (endStroke_kept hook H) as (s & -> & _).
        exists [s]. split; [reflexivity | simpl; lia].
    + rewrite pointerStep_up_idle by assumption. exists [].
      cbn [snd]. rewrite app_nil_r. split; [reflexivity | simpl; lia].
Qed.

End CanvasFacts.

Module CanvasTheorems.
Import Js Spec StrokeCapture CaptureFacts GestureFacts.
Import Canvas CanvasFacts.

(** X19.  For a bounding rectangle of positive width and height,
    [toPoint] maps the left and top edge of the rectangle to 0 and a
    position right of or below them to a coordinate >= 0; it keeps the
    order of positions along each axis; on a canvas shown at its logical
    size, 500 by 375, the coordinates are the offsets from the left and
    top edge; the pressure of the point is the reported one, or 0.5 when
    the device reports 0, so it is never 0; an unreported pointer type
    becomes mouse; the timestamp is the clock reading. *)
Theorem toPoint_normalises (rect : DOMRect) (performance_now : R)
    (e : PointerEvent) :
  0 < width rect -> 0 < height rect ->
  let pt := toPoint rect performance_now e in
  (left rect <= clientX e -> 0 <= CapturePoint.x pt)
  /\ (top rect <= clientY e -> 0 <= CapturePoint.y pt)
  /\ (clientX e = left rect -> CapturePoint.x pt = 0)
  /\ (clientY e = top rect -> CapturePoint.y pt = 0)
  /\ (forall t' e',
         clientX e <= clientX e' ->
         CapturePoint.x pt <= CapturePoint.x (toPoint rect t' e'))
  /\ (forall t' e',
         clientY e <= clientY e' ->
         CapturePoint.y pt <= CapturePoint.y (toPoint rect t' e'))
  /\ (width rect = CANVAS_W ->
      CapturePoint.x pt = clientX e - left rect)
  /\ (height rect = CANVAS_H ->
      CapturePoint.y pt = clientY e - top rect)
  /\ CapturePoint.pressure pt <> 0
  /\ (pressure e <> 0 -> CapturePoint.pressure pt = pressure e)
  /\ (pressure e = 0 -> CapturePoint.pressure pt = 0.5)
  /\ (pointerType e = None -> CapturePoint.pointerType pt = mouse)
  /\ CapturePoint.timestamp pt = performance_now.
Proof.
  intros Hw Hh. cbv zeta.
  cbn [toPoint CapturePoint.x CapturePoint.y CapturePoint.pressure
       CapturePoint.pointerType CapturePoint.timestamp].
  unfold CANVAS_W, CANVAS_H.
  assert (Hpw : 0 < / width rect) by now apply Rinv_0_lt_compat.
  assert (Hph : 0 < / height rect) by now apply Rinv_0_lt_compat.
  unfold Rdiv.
  split; [intros H; nra|]. split; [intros H; nra|].
  split; [intros ->; nra|]. split; [intros ->; nra|].
  split; [intros t' e' H; nra|]. split; [intros t' e' H; nra|].
  split; [intros ->; field|]. split; [intros ->; field|].
  destruct (Req_dec_T (pressure e) 0) as [H0|H0].
  - split; [lra|]. split; [tauto|]. split; [reflexivity|].
    split; [now intros ->|reflexivity].
  - split; [exact H0|]. split; [reflexivity|]. split; [tauto|].
    split; [now intros ->|reflexivity].
Qed.

Lemma toPoint_normalises_witness :
  0 < width (mkRect 20 10 1000 750)
  /\ 0 < height (mkRect 20 10 1000 750)
  /\ CapturePoint.pressure
       (toPoint (mkRect 20 10 1000 750) 5
                (mkPointerEvent 520 385 0 None)) = 0.5
  /\ 0 <= CapturePoint.x
            (toPoint (mkRect 20 10 1000 750) 5
                     (mkPointerEvent 520 385 0 None)).
Proof.
  assert (Hw : 0 < width (mkRect 20 10 1000 750)) by (simpl; lra).
  assert (Hh : 0 < height (mkRect 20 10 1000 750)) by (simpl; lra).
  split; [exact Hw|]. split; [exact Hh|].
  pose proof (toPoint_normalises (mkRect 20 10 1000 750) 5
                (mkPointerEvent 520 385 0 None) Hw Hh)
    as (Hx & _ & _ & _ & _ & _ & _ & _ & _ & _ & Hp & _).
  split; [now apply Hp | apply Hx; simpl; lra].
Defined.

(** X20.  Along every sequence of pointer inputs on a canvas wired to
    the capture hook, the refs and the hook stay in step: the pointer is
    down exactly while the hook is drawing, points are pending exactly
    while the pointer is down, and [lastPt] is the last pending point.
    Pointer input only ever appends strokes: the strokes present before
    stay, unchanged and in place. *)
Theorem pointer_protocol (isActive : bool) (ps : list Pointer)
    (st : Refs * State) :
  consistent st ->
  let st' := pointerRun isActive ps st in
  pointerDown (fst st') = isDrawing (snd st')
  /\ (pointerDown (fst st') = true <-> currentPoints (snd st') <> [])
  /\ (forall p pts,
         currentPoints (snd st') = p :: pts ->
         lastPt (fst st') =
         Some (CapturePoint.x (last pts p), CapturePoint.y (last pts p)))
  /\ (exists added, strokes (snd st') = strokes (snd st) ++ added
                    /\ (List.length added <= List.length ps)%nat).
Proof.
  intros Hc. cbv zeta.
  assert (H : consistent (pointerRun isActive ps st)
              /\ exists added,
                   strokes (snd (pointerRun isActive ps st)) =
                   strokes (snd st) ++ added
                   /\ (List.length added <= List.length ps)%nat).
  { revert st Hc. induction ps as [|p ps IH]; intros st Hc.
    - split; [exact Hc|]. exists []. cbn. rewrite app_nil_r.
      split; [reflexivity | lia].
    - change (pointerRun isActive (p :: ps) st)
        with (pointerRun isActive ps (pointerStep isActive st p)).
      destruct (IH _ (consistent_step isActive st p Hc))
        as (Hc' & added & Ha & Hn).
      split; [exact Hc'|].
      destruct (strokes_grow_step isActive st p) as (a1 & Ha1 & Hn1).
      exists (a1 ++ added). rewrite Ha, Ha1, <- app_assoc.
      split; [reflexivity|]. rewrite length_app. simpl. lia. }
  destruct H as [[Hd Hp] Hadded].
  split; [exact Hd|]. split; [|split; [|exact Hadded]].
  - destruct (currentPoints (snd (pointerRun isActive ps st)));
      destruct Hp as [Hp _]; rewrite Hp; split;
      intros; congruence.
  - intros p pts Hcur. rewrite Hcur in Hp. tauto.
Qed.

Lemma pointer_protocol_witness :
  let st := (mounted 2, initial) in
  let ps := [Down (mkRect 0 0 500 375) 1 (mkPointerEvent 10 10 0 None);
             Move true (mkRect 0 0 500 375) (fun _ => 2)
                  (mkPointerEvent 20 10 0 None) [];
             Up] in
  consistent st
  /\ pointerDown (fst (pointerRun true ps st)) =
     isDrawing (snd (pointerRun true ps st)).
Proof.
  intros st ps.
  assert (H : consistent st) by (repeat split).
  split; [exact H|].
  apply (pointer_protocol true ps st H).
Defined.

(** X21.  From a state in which the pointer is up: a press followed by
    a release (a tap) adds no stroke and uses no identifier; a press,
    one move and a release add exactly one stroke, whose points are the
    pressed point followed by those of the move (its coalesced samples,
    or the move itself when there are none), start at the clock reading
    of the press, and carry the counter's value as identifier; a release
    without a press changes nothing. *)
Theorem tap_and_drag (refs : Refs) (hook : State) :
  pointerDown refs = false ->
  (forall rect t e,
      let st' := pointerRun true [Down rect t e; Up] (refs, hook) in
      strokes (snd st') = strokes hook
      /\ strokeId (snd st') = strokeId hook)
  /\ (forall rect t e rect' clock native coalesced,
      let st' :=
        pointerRun true
          [Down rect t e; Move true rect' clock native coalesced; Up]
          (refs, hook) in
      exists s,
        strokes (snd st') = strokes hook ++ [s]
        /\ Stroke.id s = strokeId hook
        /\ Stroke.startTime s = t
        /\ hd_error (Stroke.points s) = Some (toPoint rect t e)
        /\ List.length (Stroke.points s) =
           S (Nat.max 1 (List.length coalesced))
        /\ strokeId (snd st') = S (strokeId hook))
  /\ (forall a, pointerRun a [Up] (refs, hook) = (refs, hook)).
Proof.
  intros Hup. split; [|split].
  - intros rect t e. cbv zeta.
    unfold pointerRun. cbn [fold_left]. rewrite pointerStep_down.
    rewrite pointerStep_up_down by reflexivity. cbn [snd].
    pose proof (gesture_dropped [toPoint rect t e] hook) as Hg.
    cbv zeta in Hg. destruct Hg as (Hs & Hn & _); [simpl; lia|].
    split; [exact Hs | exact Hn].
  - intros rect t e rect' clock native coalesced. cbv zeta.
    unfold pointerRun. cbn [fold_left]. rewrite pointerStep_down.
    rewrite pointerStep_move by reflexivity. cbv zeta.
    rewrite pointerStep_up_down by reflexivity. cbn [snd dpr lastPt].
    set (events := if (0 <? List.length coalesced)%nat
                   then coalesced else [native]).
    set (out := moveLoop rect' (dpr refs) clock 0 events _).
    assert (Hlen : List.length (fst (fst out)) =
                   Nat.max 1 (List.length coalesced)).
    { pose proof (moveLoop_points rect' (dpr refs) clock events 0
                    (Some (CapturePoint.x (toPoint rect t e),
                           CapturePoint.y (toPoint rect t e))))
        as [HF _].
      apply Forall2_length in HF. fold out in HF. rewrite HF.
      subst events. destruct coalesced; simpl; reflexivity. }
    destruct (fst (fst out)) as [|q qs] eqn:Eq;
      [cbn [List.length] in Hlen; lia|].
    pose proof (gesture_kept (toPoint rect t e) (q :: qs) hook) as Hk.
    cbv zeta in Hk. destruct Hk as (Hs & Hn & _); [discriminate|].
    assert (Heq : endStroke
                    (run (map AddPoint (q :: qs))
                         (addPoint (toPoint rect t e) (beginStroke hook)))
                  = run (BeginStroke
                           :: map AddPoint (toPoint rect t e :: q :: qs)
                           ++ [EndStroke]) hook).
    { change (run (BeginStroke
                     :: map AddPoint (toPoint rect t e :: q :: qs)
                     ++ [EndStroke]) hook)
        with (run (map AddPoint (q :: qs) ++ [EndStroke])
                  (addPoint (toPoint rect t e) (beginStroke hook))).
      now rewrite run_app. }
    rewrite Heq. eexists. split; [exact Hs|].
    cbn [Stroke.id Stroke.startTime Stroke.points hd_error List.length].
    repeat split; try assumption.
    now rewrite <- Hlen.
  - intros a. unfold pointerRun. cbn [fold_left].
    now apply pointerStep_up_idle.
Qed.

Lemma tap_and_drag_witness :
  pointerDown (mounted 2) = false
  /\ strokes (snd (pointerRun true
                     [Down (mkRect 0 0 500 375) 1
                           (mkPointerEvent 10 10 0 None); Up]
                     (mounted 2, initial))) = [].
Proof.
  split; [reflexivity|].
  pose proof (tap_and_drag (mounted 2) initial eq_refl) as (H & _).
  apply (H (mkRect 0 0 500 375) 1 (mkPointerEvent 10 10 0 None)).
Defined.

End CanvasTheorems.

(** ** The [MetricsPanel] and [StrokeGraph] components *)

Module PanelFacts.
Import Js Spec SeriesFacts MetricsFacts MetricsTheorems KinematicsFacts.

Lemma fold_left_sum {A : Type} (f : A -> R) (l : list A) (z : R) :
  fold_left (fun acc a => acc + f a) l z = z + Rsum (map f l).
Proof.
  revert z. induction l as [|a l IH]; intros z; simpl; [lra|].
  rewrite IH. unfold Rsum. simpl. lra.
Qed.

Lemma fold_left_count {A : Type} (f : A -> nat) (l : list A) (z : nat) :
  fold_left (fun acc a => (acc + f a)%nat) l z
  = (z + list_sum (map f l))%nat.
Proof.
  revert z. induction l as [|a l IH]; intros z; simpl; [lia|].
  rewrite IH. lia.
Qed.

Lemma mean_between (l : list R) (lo hi : R) :
  l <> [] ->
  (forall v, In v l -> lo <= v <= hi) ->
  lo <= Rsum l / INR (List.length l) <= hi.
Proof.
  intros Hne H.
  assert (Hn : 0 < INR (List.length l)).
  { apply lt_0_INR. destruct l; [congruence | simpl; lia]. }
  assert (Hs : INR (List.length l) * lo <= Rsum l
               <= INR (List.length l) * hi).
  { clear Hne Hn. induction l as [|v l IH]; [simpl; lra|].
    change (Rsum (v :: l)) with (v + Rsum l).
    change (List.length (v :: l)) with (S (List.length l)).
    rewrite S_INR.
    assert (lo <= v <= hi) by (apply H; now left).
    assert (INR (List.length l) * lo <= Rsum l
            <= INR (List.length l) * hi)
      by (apply IH; intros; apply H; now right).
    lra. }
  split; apply Rmult_le_reg_r with (1 := Hn);
    unfold Rdiv; rewrite Rmult_assoc, Rinv_l by lra; lra.
Qed.

Lemma strokePressure_mean (s : Stroke.t) :
  MetricsPanel.strokePressure s =
  Rsum (map CapturePoint.pressure (Stroke.points s))
  / INR (List.length (Stroke.points s)).
Proof.
  unfold MetricsPanel.strokePressure. rewrite fold_left_sum. f_equal. lra.
Qed.

(** *** The global maximum of [StrokeGraph] *)

Lemma fold_Rmax_ge (l : list Stroke.t) (z : R) :
  z <= fold_left (fun maxV s =>
                    Rmax maxV (StrokeMetrics.maxVelocity (Stroke.metrics s)))
                 l z
  /\ forall s, In s l ->
               StrokeMetrics.maxVelocity (Stroke.metrics s)
               <= fold_left
                    (fun maxV s =>
                       Rmax maxV (StrokeMetrics.maxVelocity
                                    (Stroke.metrics s))) l z.
Proof.
  revert z. induction l as [|a l IH]; intros z.
  - split; [simpl; lra | intros s []].
  - cbn [fold_left].
    destruct (IH (Rmax z (StrokeMetrics.maxVelocity (Stroke.metrics a))))
      as [Hz Hin].
    pose proof (Rmax_l z (StrokeMetrics.maxVelocity (Stroke.metrics a))).
    pose proof (Rmax_r z (StrokeMetrics.maxVelocity (Stroke.metrics a))).
    split; [lra|]. intros s [<-|Hs]; [lra | now apply Hin].
Qed.

Lemma segmentVelocity_cases (a b : CapturePoint.t) :
  (positiveDt (a, b) = true /\
   StrokeGraph.segmentVelocity a b = segVelocity (a, b))
  \/ (positiveDt (a, b) = false /\ StrokeGraph.segmentVelocity a b = 0).
Proof.
  unfold StrokeGraph.segmentVelocity, positiveDt, segVelocity,
    segDistance, segDt. cbn [fst snd].
  destruct (Rgt_dec _ _) as [H|H]; destruct (Rlt_dec _ _) as [H'|H'];
    try (exfalso; lra);
    [left | right]; split; reflexivity.
Qed.

Lemma segmentVelocity_nonneg (a b : CapturePoint.t) :
  0 <= StrokeGraph.segmentVelocity a b.
Proof.
  destruct (segmentVelocity_cases a b) as [[Hp ->]|[_ ->]]; [|lra].
  apply positiveDt_spec in Hp. unfold segVelocity.
  apply Rmult_le_pos; [apply segDistance_nonneg|].
  left. now apply Rinv_0_lt_compat.
Qed.

(** A segment of a finalized stroke is not faster than the stroke's
    maximum velocity. *)
Lemma segmentVelocity_le_max (s : Stroke.t) (a b : CapturePoint.t) :
  Inputs.finalized s ->
  In (a, b) (segments (Stroke.points s)) ->
  StrokeGraph.segmentVelocity a b
  <= StrokeMetrics.maxVelocity (Stroke.metrics s).
Proof.
  intros (p0 & rest & Hp & Hne & _ & _ & Hm) Hin.
  destruct rest as [|p1 rest]; [congruence|].
  rewrite Hm, Hp in *. rewrite computeStrokeMetrics_fields. cbv zeta.
  cbn [StrokeMetrics.maxVelocity].
  destruct (runLoop_series (p0 :: p1 :: rest)) as [-> _].
  pose proof (velocities_nonneg _
                (timedSegments_positive (p0 :: p1 :: rest))) as Hpos.
  fold (velocitySeries (p0 :: p1 :: rest)) in Hpos.
  destruct (segmentVelocity_cases a b) as [[Ht ->]|[_ ->]].
  - assert (Hv : In (segVelocity (a, b))
                    (velocitySeries (p0 :: p1 :: rest))).
    { unfold velocitySeries, timedSegments. apply in_map.
      apply filter_In. now split. }
    apply (maximum_isMaximum (velocitySeries (p0 :: p1 :: rest)));
      [|exact Hv]. intros E. rewrite E in Hv. destruct Hv.
  - apply (average_maximum _) in Hpos. lra.
Qed.

End PanelFacts.

Module PanelTheorems.
Import Js Spec SeriesFacts MetricsFacts MetricsTheorems KinematicsFacts
       PanelFacts.

(** X22.  The average pressure shown by the panel is 0 for a session
    without strokes.  For a session with strokes, none of them empty, it
    lies between 0 and 1 when the pressure of every point does (the
    range a pointer event reports), and it is 0.5 when every point has
    0.5, the pressure [toPoint] gives a device that reports none. *)
Theorem avgPressure_between (session : CaptchaSession.t) :
  (CaptchaSession.strokes session = [] ->
   MetricsPanel.avgPressure session = 0)
  /\ (CaptchaSession.strokes session <> [] ->
      (forall s, In s (CaptchaSession.strokes session) ->
                 Stroke.points s <> []
                 /\ forall p, In p (Stroke.points s) ->
                              0 <= CapturePoint.pressure p <= 1) ->
      0 <= MetricsPanel.avgPressure session <= 1)
  /\ (CaptchaSession.strokes session <> [] ->
      (forall s, In s (CaptchaSession.strokes session) ->
                 Stroke.points s <> []
                 /\ forall p, In p (Stroke.points s) ->
                              CapturePoint.pressure p = 0.5) ->
      MetricsPanel.avgPressure session = 0.5).
Proof.
  assert (Hb : forall lo hi,
             CaptchaSession.strokes session <> [] ->
             (forall s, In s (CaptchaSession.strokes session) ->
                        Stroke.points s <> []
                        /\ forall p, In p (Stroke.points s) ->
                              lo <= CapturePoint.pressure p <= hi) ->
             lo <= MetricsPanel.avgPressure session <= hi).
  { unfold MetricsPanel.avgPressure. intros lo hi Hne H.
    destruct (CaptchaSession.strokes session) as [|s0 l] eqn:E;
      [congruence|].
    replace (0 <? List.length (s0 :: l))%nat with true by reflexivity.
    rewrite fold_left_sum, Rplus_0_l.
    rewrite <- (length_map MetricsPanel.strokePressure (s0 :: l)).
    apply mean_between; [discriminate|].
    intros v Hv. apply in_map_iff in Hv as (s & <- & Hs).
    destruct (H s Hs) as [Hp Hbd]. rewrite strokePressure_mean.
    rewrite <- (length_map CapturePoint.pressure (Stroke.points s)).
    apply mean_between.
    + destruct (Stroke.points s); [congruence | discriminate].
    + intros v Hv. apply in_map_iff in Hv as (p & <- & Hin).
      now apply Hbd. }
  split; [|split].
  - unfold MetricsPanel.avgPressure. now intros ->.
  - apply Hb.
  - intros Hne H.
    assert (0.5 <= MetricsPanel.avgPressure session <= 0.5); [|lra].
    apply Hb; [exact Hne|]. intros s Hs. destruct (H s Hs) as [Hp Hq].
    split; [exact Hp|]. intros p Hin. rewrite (Hq p Hin). lra.
Qed.

Lemma avgPressure_between_witness :
  CaptchaSession.strokes Examples.session <> []
  /\ MetricsPanel.avgPressure Examples.session = 0.5.
Proof.
  assert (H : CaptchaSession.strokes Examples.session <> [])
    by discriminate.
  split; [exact H|].
  pose proof (avgPressure_between Examples.session) as (_ & _ & Hb).
  apply Hb; [exact H|].
  intros s [<-|[<-|[]]]; (split; [discriminate|]);
    intros p [<-|[<-|[]]]; simpl; lra.
Defined.

(** X23.  The total of direction changes shown by the panel is the sum
    of the strokes' direction changes; in a session whose strokes are as
    [endStroke] builds them it is at most the number of captured points
    minus twice the number of strokes. *)
Theorem totalDirChanges_bound (session : CaptchaSession.t) :
  MetricsPanel.totalDirChanges session =
    list_sum (map (fun s => StrokeMetrics.directionChanges
                              (Stroke.metrics s))
                  (CaptchaSession.strokes session))
  /\ (Forall Inputs.finalized (CaptchaSession.strokes session) ->
      (MetricsPanel.totalDirChanges session
       + 2 * List.length (CaptchaSession.strokes session)
       <= list_sum (map (fun s => List.length (Stroke.points s))
                        (CaptchaSession.strokes session)))%nat).
Proof.
  unfold MetricsPanel.totalDirChanges. rewrite fold_left_count.
  split; [reflexivity|].
  generalize (CaptchaSession.strokes session) as strokes.
  induction 1 as [|s l Hs _ IH]; [simpl; lia|].
  cbn [map list_sum List.length] in *.
  destruct Hs as (p0 & rest & Hp & Hne & _ & _ & Hm).
  pose proof (directionChanges_le (Stroke.points s)) as Hd.
  rewrite <- Hm in Hd. rewrite Hp in Hd |- *.
  destruct rest as [|p1 rest]; [congruence|].
  cbn [List.length] in *. unfold list_sum in *. cbn [fold_right] in *.
  lia.
Qed.

(** X24.  For a velocity >= 0 and a maximum >= 0, [velocityColor]
    returns a hue between 0 and 220 with saturation 80 and lightness 55;
    the hue is 220 (blue) at velocity 0 and whenever the maximum is 0,
    it is 0 (red) at and above a positive maximum, and it does not
    increase when the velocity increases. *)
Theorem velocityColor_hue (v maxV : R) :
  0 <= v -> 0 <= maxV ->
  let c := StrokeGraph.velocityColor v maxV in
  0 <= StrokeGraph.hue c <= 220
  /\ StrokeGraph.saturation c = 80
  /\ StrokeGraph.lightness c = 55
  /\ (v = 0 -> StrokeGraph.hue c = 220)
  /\ (maxV = 0 -> StrokeGraph.hue c = 220)
  /\ (0 < maxV -> maxV <= v -> StrokeGraph.hue c = 0)
  /\ (0 < maxV -> v <= maxV ->
      StrokeGraph.hue c = (1 - v / maxV) * 220)
  /\ (forall v', v <= v' ->
        StrokeGraph.hue (StrokeGraph.velocityColor v' maxV)
        <= StrokeGraph.hue c).
Proof.
  intros Hv Hm. cbv zeta. unfold StrokeGraph.velocityColor.
  destruct (Req_dec_T maxV 0) as [H0|H0].
  - cbn. repeat split; intros; lra.
  - assert (Hpos : 0 < maxV) by lra.
    assert (Hinv : 0 < / maxV) by now apply Rinv_0_lt_compat.
    assert (Hone : maxV * / maxV = 1) by (field; lra).
    cbn [StrokeGraph.hue StrokeGraph.saturation StrokeGraph.lightness].
    assert (Hq : 0 <= v / maxV) by (unfold Rdiv; nra).
    unfold Rmin.
    destruct (Rle_dec (v / maxV) 1) as [Hle|Hgt].
    + split; [lra|]. split; [reflexivity|]. split; [reflexivity|].
      split; [intros ->; unfold Rdiv; lra|].
      split; [intros; lra|].
      split; [intros _ Hge; unfold Rdiv in *; nra|].
      split; [reflexivity|].
      intros v' Hvv. destruct (Rle_dec (v' / maxV) 1); [|lra].
      unfold Rdiv in *. nra.
    + split; [lra|]. split; [reflexivity|]. split; [reflexivity|].
      split; [intros ->; unfold Rdiv in *; lra|].
      split; [intros; lra|].
      split; [intros; lra|].
      split; [intros _ Hle; unfold Rdiv in *; nra|].
      intros v' Hvv. destruct (Rle_dec (v' / maxV) 1); [|lra].
      unfold Rdiv in *. nra.
Qed.

Lemma velocityColor_hue_witness :
  0 <= StrokeGraph.hue (StrokeGraph.velocityColor 1 4) <= 220.
Proof.
  apply (velocityColor_hue 1 4); lra.
Defined.

(** X25.  When the strokes are as [endStroke] builds them, no segment
    that [StrokeGraph] paints is faster than the global maximum it
    normalises with: segment speeds lie between 0 and that maximum, so
    the ratio is never clamped and the colour of a segment is
    [(1 - v / maxV) * 220] whenever the maximum is not 0. *)
Theorem paint_not_clamped (strokes : list Stroke.t) :
  Forall Inputs.finalized strokes ->
  0 <= StrokeGraph.globalMaxVelocity strokes
  /\ forall s a b,
       In s strokes ->
       In (a, b) (segments (Stroke.points s)) ->
       0 <= StrokeGraph.segmentVelocity a b
         <= StrokeGraph.globalMaxVelocity strokes
       /\ (StrokeGraph.globalMaxVelocity strokes <> 0 ->
           StrokeGraph.hue
             (StrokeGraph.velocityColor
                (StrokeGraph.segmentVelocity a b)
                (StrokeGraph.globalMaxVelocity strokes))
           = (1 - StrokeGraph.segmentVelocity a b
                  / StrokeGraph.globalMaxVelocity strokes) * 220).
Proof.
  intros Hf. unfold StrokeGraph.globalMaxVelocity.
  destruct (fold_Rmax_ge strokes 0) as [H0 Hmax].
  split; [exact H0|]. intros s a b Hs Hin.
  rewrite Forall_forall in Hf.
  pose proof (segmentVelocity_le_max s a b (Hf s Hs) Hin) as Hle.
  pose proof (Hmax s Hs) as Hg.
  pose proof (segmentVelocity_nonneg a b) as Hn.
  split; [lra|]. intros Hne.
  unfold StrokeGraph.velocityColor.
  destruct (Req_dec_T _ 0) as [E|_]; [contradiction|].
  cbn [StrokeGraph.hue]. unfold Rmin.
  destruct (Rle_dec _ 1) as [_|Hgt]; [reflexivity|].
  exfalso. apply Hgt.
  set (m := fold_left _ strokes 0) in *.
  assert (0 < m) by lra.
  apply Rmult_le_reg_r with (r := m); [assumption|].
  unfold Rdiv. rewrite Rmult_assoc, Rinv_l by lra. lra.
Qed.

Lemma paint_not_clamped_witness :
  Forall Inputs.finalized [Examples.strokeA; Examples.strokeB]
  /\ 0 <= StrokeGraph.globalMaxVelocity
            [Examples.strokeA; Examples.strokeB].
Proof.
  assert (H : Forall Inputs.finalized
                [Examples.strokeA; Examples.strokeB]).
  { constructor; [|constructor; [|constructor]].
    - exists (CapturePoint.mk 0 0 40 (1 / 2) pen),
             [CapturePoint.mk 3 4 100 (1 / 2) pen].
      repeat split. discriminate.
    - exists (CapturePoint.mk 5 5 150 (1 / 2) pen),
             [CapturePoint.mk 5 9 170 (1 / 2) pen].
      repeat split. discriminate. }
  split; [exact H|].
  apply (paint_not_clamped [Examples.strokeA; Examples.strokeB] H).
Defined.

End PanelTheorems.

(** ** The [DrawCaptcha] component *)

Module AppFacts.
Import Js Spec SeriesFacts CaptureFacts GestureFacts CanvasFacts.
Import DrawCaptcha.

Lemma pickChallenge_some (random : R) :
  0 <= random < 1 ->
  exists c, pickChallenge random = Some c /\ In c challenges.
Proof.
  intros [H0 H1]. unfold pickChallenge.
  replace (INR (List.length challenges)) with 5 by (simpl; lra).
  destruct (base_Int_part (random * 5)) as [Hlo Hhi].
  set (index := Int_part (random * 5)) in *.
  assert (Hneg : (-1 < index)%Z) by (apply lt_IZR; lra).
  assert (Hfive : (index < 5)%Z) by (apply lt_IZR; lra).
  assert (Hltb : (index <? 0)%Z = false) by (apply Z.ltb_ge; lia).
  rewrite Hltb.
  destruct (nth_error challenges (Z.to_nat index)) as [c|] eqn:E.
  - exists c. split; [reflexivity|]. now apply nth_error_In in E.
  - apply nth_error_None in E. simpl in E. lia.
Qed.

Lemma Phase_eqb_eq (p q : Phase) : Phase_eqb p q = true <-> p = q.
Proof. destruct p, q; simpl; split; intros; congruence. Qed.

Lemma run_snoc (evs : list UserEvent) (ev : UserEvent) (st : State) :
  run (evs ++ [ev]) st = step (run evs st) ev.
Proof. unfold run. now rewrite fold_left_app. Qed.

Lemma handlePointer_fields (p : Canvas.Pointer) (st : State)
    (refs : Canvas.Refs) :
  canvas st = Some refs ->
  handlePointer p st =
  {| phase := phase st;
     challenge := challenge st;
     session := session st;
     hasRandomised := hasRandomised st;
     capture :=
       StrokeCapture.run (snd (Canvas.dispatch true refs p)) (capture st);
     canvas := Some (fst (Canvas.dispatch true refs p)) |}.
Proof.
  intros H. unfold handlePointer, Canvas.pointerStep. rewrite H.
  cbn [fst snd]. now destruct (Canvas.dispatch true refs p).
Qed.

(** What every state the page reaches satisfies. *)
Lemma reachable (evs : list UserEvent) :
  Forall randomInRange evs ->
  let st := run evs initial in
  (exists c, challenge st = Some c /\ In c challenges)
  /\ match phase st with
     | idle => session st = None /\ canvas st = None
     | drawing => session st = None /\ canvas st <> None
     | submitted =>
         canvas st = None
         /\ exists data,
             session st = Some data
             /\ CaptchaSession.strokes data =
                StrokeCapture.strokes (capture st)
             /\ (1 <= CaptchaSession.strokeCount data)%nat
             /\ CaptchaSession.canvasWidth data = 500
             /\ CaptchaSession.canvasHeight data = 375
     end
  /\ coherent (capture st)
  /\ Forall Inputs.finalized (StrokeCapture.strokes (capture st)).
Proof.
  induction evs as [|ev evs IH] using rev_ind; intros Hr; cbv zeta.
  - cbn. split; [eexists; split; [reflexivity | now left]|].
    split; [now split|]. split; [split; constructor | constructor].
  - apply Forall_app in Hr as [Hr Hev].
    inversion Hev as [|? ? Hrange _]; subst.
    specialize (IH Hr). cbv zeta in IH. rewrite run_snoc.
    set (st := run evs initial) in *.
    destruct IH as (Hc & Hp & Hco & Hf).
    unfold step. destruct (offered st ev) eqn:Hoff;
      [|exact (conj Hc (conj Hp (conj Hco Hf)))].
    destruct ev as [random t wall d|p| | |t uuid|random];
      cbn [offered] in Hoff.
    + apply Phase_eqb_eq in Hoff. rewrite Hoff in Hp.
      destruct Hp as [Hs _].
      cbn [handleStart challenge phase session canvas capture].
      split.
      { destruct (hasRandomised st); [exact Hc|].
        now apply pickChallenge_some. }
      split; [split; [exact Hs | discriminate]|].
      split; [split; constructor | constructor].
    + apply Phase_eqb_eq in Hoff. rewrite Hoff in Hp.
      destruct Hp as [Hs Hcv].
      destruct (canvas st) as [refs|] eqn:E; [|congruence].
      rewrite (handlePointer_fields p st refs E).
      cbn [challenge phase session canvas capture]. rewrite Hoff.
      split; [exact Hc|]. split; [split; [exact Hs | discriminate]|].
      split; [now apply coherent_run | now apply finalized_run].
    + apply andb_prop in Hoff as [Hph _]. apply Phase_eqb_eq in Hph.
      cbn [handleClear challenge phase session canvas capture].
      split; [exact Hc|]. split; [rewrite Hph in Hp |- *; exact Hp|].
      split; [apply (coherent_step _ StrokeCapture.Clear Hco)|].
      apply (finalized_step _ StrokeCapture.Clear Hf).
    + apply andb_prop in Hoff as [Hph _]. apply Phase_eqb_eq in Hph.
      cbn [handleUndo challenge phase session canvas capture].
      split; [exact Hc|]. split; [rewrite Hph in Hp |- *; exact Hp|].
      split; [apply (coherent_step _ StrokeCapture.Undo Hco)|].
      apply (finalized_step _ StrokeCapture.Undo Hf).
    + apply andb_prop in Hoff as [Hph Hst]. apply Phase_eqb_eq in Hph.
      unfold handleSubmit. destruct Hc as (c & Hc & Hin). rewrite Hc.
      cbn [challenge phase session canvas capture]. rewrite <- Hc.
      split; [now exists c; rewrite Hc|].
      split; [|split; assumption].
      split; [reflexivity|]. eexists. split; [reflexivity|].
      unfold StrokeCapture.buildSession.
      cbn [CaptchaSession.strokes CaptchaSession.strokeCount
           CaptchaSession.canvasWidth CaptchaSession.canvasHeight].
      unfold hasStrokes in Hst. apply Nat.ltb_lt in Hst.
      split; [reflexivity|]. split; [lia|]. split; reflexivity.
    + apply andb_prop in Hoff as [Hph _]. apply Phase_eqb_eq in Hph.
      rewrite Hph in Hp. destruct Hp as [Hcv _].
      cbn [handleRetry challenge phase session canvas capture].
      split; [now apply pickChallenge_some|].
      split; [now split|].
      split; [apply (coherent_step _ StrokeCapture.Clear Hco)|].
      apply (finalized_step _ StrokeCapture.Clear Hf).
Qed.

End AppFacts.

Module AppTheorems.
Import Js Spec SeriesFacts CaptureFacts GestureFacts CanvasFacts.
Import DrawCaptcha AppFacts.

(** X26.  For every value that [Math.random()] can return, a number in
    [0, 1), [pickChallenge] returns one of the five challenges; for the
    value 1, outside that range, the index is 5 and the result is
    undefined. *)
Theorem pickChallenge_in_range (random : R) :
  0 <= random < 1 ->
  (exists c, pickChallenge random = Some c /\ In c challenges)
  /\ pickChallenge 0 = nth_error challenges 0
  /\ pickChallenge 1 = None.
Proof.
  intros H. split; [now apply pickChallenge_some|].
  unfold pickChallenge.
  replace (INR (List.length challenges)) with 5 by (simpl; lra).
  split.
  - rewrite <- (Int_part_spec (0 * 5) 0) by (simpl; lra). reflexivity.
  - rewrite <- (Int_part_spec (1 * 5) 5) by (simpl; lra). reflexivity.
Qed.

Lemma pickChallenge_in_range_witness :
  0 <= 1 / 2 < 1
  /\ exists c, pickChallenge (1 / 2) = Some c /\ In c challenges.
Proof.
  assert (H : 0 <= 1 / 2 < 1) by lra.
  split; [exact H|]. apply (pickChallenge_in_range (1 / 2) H).
Defined.

(** X27.  In every state the page reaches from its initial state by
    user events, with [Math.random()] in [0, 1): the challenge is one of
    the five; a session is held exactly in the submitted phase and the
    canvas is rendered exactly in the drawing phase; a held session has
    the strokes of the hook, at least one of them, and the logical
    canvas size 500 by 375; the identifiers of the hook's strokes
    increase along the list, and each stroke is as [endStroke] builds
    it. *)
Theorem page_invariants (evs : list UserEvent) :
  Forall randomInRange evs ->
  let st := run evs initial in
  (exists c, challenge st = Some c /\ In c challenges)
  /\ (phase st = submitted <-> session st <> None)
  /\ (phase st = drawing <-> canvas st <> None)
  /\ (forall data,
         session st = Some data ->
         CaptchaSession.strokes data = StrokeCapture.strokes (capture st)
         /\ (1 <= CaptchaSession.strokeCount data)%nat
         /\ CaptchaSession.canvasWidth data = 500
         /\ CaptchaSession.canvasHeight data = 375)
  /\ StronglySorted lt
       (map Stroke.id (StrokeCapture.strokes (capture st)))
  /\ NoDup (map Stroke.id (StrokeCapture.strokes (capture st)))
  /\ Forall Inputs.finalized (StrokeCapture.strokes (capture st)).
Proof.
  intros Hr. cbv zeta.
  destruct (reachable evs Hr) as (Hc & Hp & [Hs _] & Hf).
  split; [exact Hc|].
  split; [|split; [|split; [|split; [exact Hs|split; [|exact Hf]]]]].
  - destruct (phase (run evs initial));
      [destruct Hp as [-> _] | destruct Hp as [-> _]
      | destruct Hp as (_ & data & -> & _)];
      split; intros; congruence.
  - destruct (phase (run evs initial));
      [destruct Hp as [_ ->] | destruct Hp as [_ Hcv]
      | destruct Hp as (-> & _)];
      split; intros; congruence.
  - intros data Hd.
    destruct (phase (run evs initial));
      [destruct Hp as [Hn _]; congruence
      | destruct Hp as [Hn _]; congruence|].
    destruct Hp as (_ & data' & Hd' & H).
    rewrite Hd in Hd'. inversion Hd'; subst. exact H.
  - now apply StronglySorted_lt_NoDup.
Qed.

Lemma page_invariants_witness :
  Forall randomInRange
    [ClickStart (1 / 2) 10 1000 2;
     PointerInput (Canvas.Down (Canvas.mkRect 0 0 500 375) 20
                     (Canvas.mkPointerEvent 10 10 0 None));
     PointerInput Canvas.Up;
     ClickSubmit 60 "session-1"]
  /\ exists c,
       challenge
         (run [ClickStart (1 / 2) 10 1000 2;
               PointerInput (Canvas.Down (Canvas.mkRect 0 0 500 375) 20
                               (Canvas.mkPointerEvent 10 10 0 None));
               PointerInput Canvas.Up;
               ClickSubmit 60 "session-1"] initial) = Some c
       /\ In c challenges.
Proof.
  set (evs := [ClickStart (1 / 2) 10 1000 2;
               PointerInput (Canvas.Down (Canvas.mkRect 0 0 500 375) 20
                               (Canvas.mkPointerEvent 10 10 0 None));
               PointerInput Canvas.Up;
               ClickSubmit 60 "session-1"]).
  assert (H : Forall randomInRange evs).
  { repeat constructor; simpl; lra. }
  split; [exact H|]. apply (page_invariants evs H).
Defined.



End AppTheorems.
